(** * OcImage2Downloader: the image pipeline of [main.go]

    A shallow embedding of the core of [main.go]: reference extraction,
    URL resolution, filename synthesis, the asset fetcher, link rewriting
    and the batch orchestrator [processRecords].

    Go strings are byte sequences; they are modelled as [list ascii]
    (one [ascii] per byte) and written with [str "..."]. *)

From Stdlib Require Import ZArith Ascii String List Lia Bool.
From stdpp Require Import gmap strings list.

Set Warnings "-clear-no-such-hyp".

Local Open Scope Z_scope.
Local Open Scope list_scope.

Abbreviation bytes := (list ascii).

(** A Go string literal. *)
Definition str (s : string) : bytes := list_ascii_of_string s.

Definition byteZ (c : ascii) : Z := Z.of_N (N_of_ascii c).
Definition Zbyte (z : Z) : ascii := ascii_of_N (Z.to_N z).

Definition DQUOTE : ascii := Zbyte 34.
Definition SQUOTE : ascii := Zbyte 39.
Definition SLASH : ascii := Zbyte 47.
Definition DOT : ascii := Zbyte 46.
Definition DASH : ascii := Zbyte 45.

(** ** Package [unicode/utf8] *)

Module utf8.

Definition RuneError : Z := 0xFFFD.

Definition contb (b : Z) : bool := (0x80 <=? b) && (b <=? 0xBF).

(** [utf8.DecodeRuneInString]: the rune and its width; a byte that
    starts no valid encoding is [RuneError], width 1. *)
Definition DecodeRune (s : bytes) : Z * nat :=
  match map byteZ s with
  | [] => (RuneError, 0%nat)
  | s0 :: t =>
      if s0 <? 0x80 then (s0, 1%nat)
      else if (s0 <? 0xC2) || (0xF4 <? s0) then (RuneError, 1%nat)
      else
        let sz := if s0 <? 0xE0 then 2 else if s0 <? 0xF0 then 3 else 4 in
        let lo := if s0 =? 0xE0 then 0xA0 else if s0 =? 0xF0 then 0x90 else 0x80 in
        let hi := if s0 =? 0xED then 0x9F else if s0 =? 0xF4 then 0x8F else 0xBF in
        match t with
        | [] => (RuneError, 1%nat)
        | s1 :: t1 =>
            if (s1 <? lo) || (hi <? s1) then (RuneError, 1%nat)
            else if sz <=? 2 then
              (Z.lor (Z.shiftl (Z.land s0 0x1F) 6) (Z.land s1 0x3F), 2%nat)
            else
              match t1 with
              | [] => (RuneError, 1%nat)
              | s2 :: t2 =>
                  if negb (contb s2) then (RuneError, 1%nat)
                  else if sz <=? 3 then
                    (Z.lor (Z.lor (Z.shiftl (Z.land s0 0x0F) 12)
                                  (Z.shiftl (Z.land s1 0x3F) 6))
                           (Z.land s2 0x3F), 3%nat)
                  else
                    match t2 with
                    | [] => (RuneError, 1%nat)
                    | s3 :: _ =>
                        if negb (contb s3) then (RuneError, 1%nat)
                        else
                          (Z.lor (Z.lor (Z.lor (Z.shiftl (Z.land s0 0x07) 18)
                                               (Z.shiftl (Z.land s1 0x3F) 12))
                                        (Z.shiftl (Z.land s2 0x3F) 6))
                                 (Z.land s3 0x3F), 4%nat)
                    end
              end
        end
  end.

(** The runes a [for _, char := range s] loop visits. *)
Fixpoint runesFrom (skip : nat) (s : bytes) {struct s} : list Z :=
  match s with
  | [] => []
  | _ :: s' =>
      match skip with
      | S k => runesFrom k s'
      | O => let '(r, size) := DecodeRune s in r :: runesFrom (size - 1) s'
      end
  end.

Definition runes (s : bytes) : list Z := runesFrom 0 s.

(** [utf8.AppendRune], as [WriteRune] uses it. *)
Definition EncodeRune (r : Z) : bytes :=
  let t3 (x : Z) :=
    [Zbyte (Z.lor 0xE0 (Z.shiftr x 12));
     Zbyte (Z.lor 0x80 (Z.land (Z.shiftr x 6) 0x3F));
     Zbyte (Z.lor 0x80 (Z.land x 0x3F))] in
  if (0 <=? r) && (r <? 0x80) then [Zbyte r]
  else if (0 <=? r) && (r <? 0x800) then
    [Zbyte (Z.lor 0xC0 (Z.shiftr r 6)); Zbyte (Z.lor 0x80 (Z.land r 0x3F))]
  else if (r <? 0) || (0x10FFFF <? r) || ((0xD800 <=? r) && (r <=? 0xDFFF)) then
    t3 RuneError
  else if r <? 0x10000 then t3 r
  else
    [Zbyte (Z.lor 0xF0 (Z.shiftr r 18));
     Zbyte (Z.lor 0x80 (Z.land (Z.shiftr r 12) 0x3F));
     Zbyte (Z.lor 0x80 (Z.land (Z.shiftr r 6) 0x3F));
     Zbyte (Z.lor 0x80 (Z.land r 0x3F))].

End utf8.

(** ** Package [unicode]

    The tables of the Go library are not part of the repository; the
    program's use of them is taken as an interface whose laws fix the
    ASCII range, which is all [transliterate] can reach them with. *)

Definition isUpperASCII (r : Z) : bool := (65 <=? r) && (r <=? 90).
Definition isLowerASCII (r : Z) : bool := (97 <=? r) && (r <=? 122).
Definition isDigitASCII (r : Z) : bool := (48 <=? r) && (r <=? 57).

Class Unicode : Type := {
  IsLetter : Z → bool;
  IsDigit : Z → bool;
  ToLower : Z → Z;
  IsLetter_ascii : ∀ r, 0 <= r < 128 → IsLetter r = isUpperASCII r || isLowerASCII r;
  IsDigit_ascii : ∀ r, 0 <= r < 128 → IsDigit r = isDigitASCII r;
}.

(** An instance: the tables cut down to ASCII. *)
#[export] Instance asciiTables : Unicode := {|
  IsLetter r := isUpperASCII r || isLowerASCII r;
  IsDigit r := isDigitASCII r;
  ToLower r := if isUpperASCII r then r + 32 else r;
  IsLetter_ascii := fun _ _ => eq_refl;
  IsDigit_ascii := fun _ _ => eq_refl;
|}.

(** ** Package [strings] *)

Module strings.

(** [strings.HasPrefix]. *)
Fixpoint HasPrefix (s prefix : bytes) {struct prefix} : bool :=
  match prefix, s with
  | [], _ => true
  | p :: prefix', c :: s' => if decide (p = c) then HasPrefix s' prefix' else false
  | _ :: _, [] => false
  end.

(** [strings.HasSuffix]. *)
Definition HasSuffix (s suffix : bytes) : bool :=
  HasPrefix (rev s) (rev suffix).

(** [strings.TrimLeft s cutset]: drop the leading bytes that occur in
    [cutset] (every cutset of the program is ASCII). *)
Fixpoint TrimLeft (s cutset : bytes) : bytes :=
  match s with
  | c :: s' => if decide (c ∈ cutset) then TrimLeft s' cutset else s
  | [] => []
  end.

(** [strings.TrimRight s cutset]. *)
Definition TrimRight (s cutset : bytes) : bytes :=
  rev (TrimLeft (rev s) cutset).

(** [strings.TrimSuffix]. *)
Definition TrimSuffix (s suffix : bytes) : bytes :=
  if HasSuffix s suffix then take (length s - length suffix)%nat s else s.

(** [strings.Split s sep] for a one-byte separator, the only kind the
    program uses ("/" and "?"); the result is never empty. *)
Fixpoint Split (s : bytes) (sep : ascii) : list bytes :=
  match s with
  | [] => [[]]
  | c :: s' =>
      if decide (c = sep) then [] :: Split s' sep
      else match Split s' sep with
           | w :: ws => (c :: w) :: ws
           | [] => [[c]]
           end
  end.

(** [strings.Join]. *)
Fixpoint Join (elems : list bytes) (sep : bytes) : bytes :=
  match elems with
  | [] => []
  | [e] => e
  | e :: rest => e ++ sep ++ Join rest sep
  end.

(** [strings.Replace s old new 1]: the first occurrence of [old] in [s] is
    replaced; an empty [old] matches at the beginning of the string. *)
Fixpoint Replace1 (s old new : bytes) : bytes :=
  if HasPrefix s old then new ++ drop (length old) s
  else match s with
       | c :: s' => c :: Replace1 s' old new
       | [] => []
       end.

(** [strings.ReplaceAll s old new] for a one-byte [old]. *)
Definition ReplaceAllByte (s : bytes) (old : ascii) (new : bytes) : bytes :=
  concat (map (fun c => if decide (c = old) then new else [c]) s).

(** [strings.Map]: a negative result drops the rune. *)
Definition Map (mapping : Z → Z) (s : bytes) : bytes :=
  concat (map (fun r => let r' := mapping r in
                        if r' <? 0 then [] else utf8.EncodeRune r')
              (utf8.runes s)).

(** [strings.ToLower]: the ASCII fast path, else rune by rune. *)
Definition ToLower `{Unicode} (s : bytes) : bytes :=
  if forallb (fun c => byteZ c <? 0x80) s then
    map (fun c => if isUpperASCII (byteZ c) then Zbyte (byteZ c + 32) else c) s
  else Map ToLower s.

End strings.

(** ** URL resolution (the head of [downloadAndSaveImage]) *)

Definition resolveURL (imageURL hostname : bytes) : bytes :=
  if strings.HasPrefix imageURL (str "//") then
    str "https:" ++ imageURL
  else if negb (strings.HasPrefix imageURL (str "http")) then
    strings.TrimRight hostname (str "/") ++ str "/" ++ strings.TrimLeft imageURL (str "/")
  else imageURL.

(** ** Package [regexp]

    The fragment of Go's regular expressions that the program's three
    patterns use: literals, character classes, greedy [*] and [+] over a
    class, concatenation and one capturing group.  Go returns the
    leftmost match and, among those, the one a backtracking search
    finds first; [run] is that search.  The engine reads bytes.  For
    the patterns of the program this agrees with Go's rune-wise
    matching: every literal and class member is ASCII, so a negated
    class accepts each byte of a multi-byte (or invalid) sequence
    exactly when Go accepts the rune.  None of the patterns matches the
    empty string. *)

Module regexp.

Inductive Regexp : Type :=
| Lit (c : ascii)
| Class (p : ascii → bool)
| Star (p : ascii → bool)
| Plus (p : ascii → bool)
| Cat (r1 r2 : Regexp)
| Capture (r : Regexp).

(** A literal string. *)
Fixpoint Lits (cs : bytes) (r : Regexp) : Regexp :=
  match cs with
  | [] => r
  | c :: cs' => Cat (Lit c) (Lits cs' r)
  end.

Section Backtracking.
Context {A : Type}.

(** Greedy repetition of a class: the longest run first, then shorter. *)
Fixpoint loop (p : ascii → bool) (k : bytes → option A) (s : bytes) : option A :=
  match s with
  | c :: s' =>
      if p c then
        match loop p k s' with
        | Some a => Some a
        | None => k s
        end
      else k s
  | [] => k []
  end.

(** [run r s cap k]: match [r] at the head of [s], then continue with
    [k] on the rest and the capture; [None] makes the search backtrack. *)
Fixpoint run (r : Regexp) (s : bytes) (cap : option bytes)
         (k : bytes → option bytes → option A) : option A :=
  match r with
  | Lit c =>
      match s with
      | c' :: s' => if decide (c = c') then k s' cap else None
      | [] => None
      end
  | Class p =>
      match s with
      | c' :: s' => if p c' then k s' cap else None
      | [] => None
      end
  | Star p => loop p (fun s' => k s' cap) s
  | Plus p =>
      match s with
      | c' :: s' => if p c' then loop p (fun s'' => k s'' cap) s' else None
      | [] => None
      end
  | Cat r1 r2 => run r1 s cap (fun s' cap' => run r2 s' cap' k)
  | Capture r1 =>
      run r1 s cap (fun s' _ => k s' (Some (take (length s - length s')%nat s)))
  end.
End Backtracking.

(** The match that starts at the head of [s]: its length and group 1. *)
Definition matchHere (r : Regexp) (s : bytes) : option (nat * option bytes) :=
  run r s None (fun s' cap => Some ((length s - length s')%nat, cap)).

(** [FindStringSubmatch]: the leftmost match and its group, [None] for
    Go's nil slice. *)
Fixpoint FindStringSubmatch (r : Regexp) (s : bytes) : option (bytes * option bytes) :=
  match matchHere r s with
  | Some (n, cap) => Some (take n s, cap)
  | None =>
      match s with
      | _ :: s' => FindStringSubmatch r s'
      | [] => None
      end
  end.

(** The scan behind [FindAllStringSubmatch r s (-1)]: successive
    non-overlapping leftmost matches.  [skip] counts the bytes of the
    current match still to step over. *)
Fixpoint findAll (r : Regexp) (skip : nat) (s : bytes) {struct s}
  : list (bytes * option bytes) :=
  match skip with
  | S k =>
      match s with
      | _ :: s' => findAll r k s'
      | [] => []
      end
  | O =>
      match matchHere r s with
      | Some (n, cap) =>
          (take n s, cap) ::
            match s with
            | _ :: s' => findAll r (n - 1) s'
            | [] => []
            end
      | None =>
          match s with
          | _ :: s' => findAll r 0 s'
          | [] => []
          end
      end
  end.

Definition FindAllStringSubmatch (r : Regexp) (s : bytes) : list (bytes * option bytes) :=
  findAll r 0 s.

(** The scan behind [ReplaceAllStringFunc]: unmatched bytes are copied,
    each match is replaced by [repl] of it. *)
Fixpoint replaceAll (r : Regexp) (repl : bytes → bytes) (skip : nat) (s : bytes)
         {struct s} : bytes :=
  match skip with
  | S k =>
      match s with
      | _ :: s' => replaceAll r repl k s'
      | [] => []
      end
  | O =>
      match matchHere r s with
      | Some (O, _) =>
          repl [] ++
            match s with
            | c :: s' => c :: replaceAll r repl 0 s'
            | [] => []
            end
      | Some (S n, _) =>
          repl (take (S n) s) ++
            match s with
            | _ :: s' => replaceAll r repl n s'
            | [] => []
            end
      | None =>
          match s with
          | c :: s' => c :: replaceAll r repl 0 s'
          | [] => []
          end
      end
  end.

Definition ReplaceAllStringFunc (r : Regexp) (src : bytes) (repl : bytes → bytes) : bytes :=
  replaceAll r repl 0 src.

(** [ReplaceAllString] with a replacement text free of [$]. *)
Definition ReplaceAllString (r : Regexp) (src repl : bytes) : bytes :=
  replaceAll r (fun _ => repl) 0 src.

End regexp.

Import regexp.

(** ** The patterns of [extractImageLinks] and [replaceImageLinks] *)

Definition notGt (c : ascii) : bool := negb (Ascii.eqb c (Zbyte 62)).
Definition isQuote (c : ascii) : bool := Ascii.eqb c DQUOTE || Ascii.eqb c SQUOTE.
Definition notQuote (c : ascii) : bool := negb (isQuote c).

(** The pattern of [srcRe] in the source: [src=], a quote (double or
    single), group 1 = one or more non-quote bytes, a quote. *)
Definition srcRe : Regexp :=
  Lits (str "src=") (Cat (Class isQuote) (Cat (Capture (Plus notQuote)) (Class isQuote))).

(** The pattern of [re] in the source: [<img], one or more bytes other
    than [>], [src=], a quote, group 1 = one or more non-quote bytes, a
    quote, any bytes other than [>], then [>]. *)
Definition imgRe : Regexp :=
  Lits (str "<img") (Cat (Plus notGt)
    (Lits (str "src=") (Cat (Class isQuote) (Cat (Capture (Plus notQuote))
      (Cat (Class isQuote) (Cat (Star notGt) (Lit (Zbyte 62)))))))).

(** [extractImageLinks]: group 1 of every match. *)
Definition extractImageLinks (htmlContent : bytes) : list bytes :=
  map (fun m => default [] (snd m)) (FindAllStringSubmatch imgRe htmlContent).

(** The callback of [replaceImageLinks], applied to one matched tag. *)
Definition replaceTag (imagePathMap : gmap bytes bytes) (imgTag : bytes) : bytes :=
  match FindStringSubmatch srcRe imgTag with
  | Some (_, srcMatch1) =>
      let originalLink := default [] srcMatch1 in
      match imagePathMap !! originalLink with
      | Some newPath => strings.Replace1 imgTag originalLink newPath
      | None => imgTag
      end
  | None => imgTag
  end.

(** [replaceImageLinks]. *)
Definition replaceImageLinks (htmlContent : bytes) (imagePathMap : gmap bytes bytes) : bytes :=
  ReplaceAllStringFunc imgRe htmlContent (replaceTag imagePathMap).

(** ** [cyrillicToLatin] and [transliterate] *)

Definition cyrillicToLatin : gmap Z bytes :=
  list_to_map [
    (0x0410, str "A"); (0x0411, str "B"); (0x0412, str "V"); (0x0413, str "H");
    (0x0490, str "G"); (0x0414, str "D"); (0x0415, str "E"); (0x0404, str "Ye");
    (0x0416, str "Zh"); (0x0417, str "Z"); (0x0418, str "Y"); (0x0406, str "I");
    (0x0407, str "Yi"); (0x0419, str "Y"); (0x041A, str "K"); (0x041B, str "L");
    (0x041C, str "M"); (0x041D, str "N"); (0x041E, str "O"); (0x041F, str "P");
    (0x0420, str "R"); (0x0421, str "S"); (0x0422, str "T"); (0x0423, str "U");
    (0x0424, str "F"); (0x0425, str "Kh"); (0x0426, str "Ts"); (0x0427, str "Ch");
    (0x0428, str "Sh"); (0x0429, str "Shch"); (0x042E, str "Yu"); (0x042F, str "Ya");
    (0x042C, []); (0x0430, str "a"); (0x0431, str "b"); (0x0432, str "v");
    (0x0433, str "h"); (0x0491, str "g"); (0x0434, str "d"); (0x0435, str "e");
    (0x0454, str "ye"); (0x0436, str "zh"); (0x0437, str "z"); (0x0438, str "y");
    (0x0456, str "i"); (0x0457, str "yi"); (0x0439, str "y"); (0x043A, str "k");
    (0x043B, str "l"); (0x043C, str "m"); (0x043D, str "n"); (0x043E, str "o");
    (0x043F, str "p"); (0x0440, str "r"); (0x0441, str "s"); (0x0442, str "t");
    (0x0443, str "u"); (0x0444, str "f"); (0x0445, str "kh"); (0x0446, str "ts");
    (0x0447, str "ch"); (0x0448, str "sh"); (0x0449, str "shch"); (0x044E, str "yu");
    (0x044F, str "ya"); (0x044C, []); (0x0401, str "E"); (0x042B, str "Y");
    (0x042D, str "E"); (0x0451, str "e"); (0x044B, str "y"); (0x044D, str "e")
  ].

Definition isWord (c : ascii) : bool :=
  let z := byteZ c in
  isDigitASCII z || isUpperASCII z || isLowerASCII z || (z =? 95).

(** The pattern [[^\w-]]. *)
Definition notWordDash (c : ascii) : bool := negb (isWord c || Ascii.eqb c DASH).

Definition transliterate `{Unicode} (filename : bytes) : bytes :=
  (* Step 1: transliterate each character *)
  let builder :=
    concat (map (fun char => match cyrillicToLatin !! char with
                             | Some latin => latin
                             | None => utf8.EncodeRune char
                             end)
                (utf8.runes filename)) in
  (* Step 2: replace forbidden symbols *)
  let transliterated := strings.ReplaceAllByte builder (Zbyte 32) (str "-") in
  let transliterated := ReplaceAllString (Class notWordDash) transliterated [] in
  (* Step 3: only letters, digits and '-' remain *)
  let transliterated :=
    strings.Map (fun r => if (r =? 45) || IsLetter r || IsDigit r then r else -1)
                 transliterated in
  (* Step 4: lower case *)
  strings.ToLower transliterated.

(** ** Packages [crypto/sha1] and [encoding/hex]

    The digest of the Go library, computed as FIPS 180-4 defines it on
    32-bit words held in [Z]. *)

Module sha1.

Definition w32 (x : Z) : Z := Z.land x 0xFFFFFFFF.
Definition add32 (x y : Z) : Z := w32 (x + y).
Definition rotl (n x : Z) : Z := w32 (Z.lor (Z.shiftl x n) (Z.shiftr x (32 - n))).
Definition not32 (x : Z) : Z := Z.lxor x 0xFFFFFFFF.

(** Big-endian bytes of a word of [n] bytes. *)
Fixpoint beBytes (n : nat) (x : Z) : list Z :=
  match n with
  | O => []
  | S k => Z.land (Z.shiftr x (8 * Z.of_nat k)) 0xFF :: beBytes k x
  end.

Definition pad (msg : list Z) : list Z :=
  let l := Z.of_nat (length msg) in
  msg ++ [0x80] ++ repeat 0 (Z.to_nat ((55 - l) mod 64)) ++ beBytes 8 (8 * l).

(** Big-endian words of a byte list; a short tail is dropped. *)
Fixpoint words (fuel : nat) (bs : list Z) : list Z :=
  match fuel, bs with
  | S k, b0 :: b1 :: b2 :: b3 :: rest =>
      Z.lor (Z.lor (Z.lor (Z.shiftl b0 24) (Z.shiftl b1 16)) (Z.shiftl b2 8)) b3
        :: words k rest
  | _, _ => []
  end.

(** The message schedule, most recent word first. *)
Fixpoint extend (n : nat) (w : list Z) : list Z :=
  match n with
  | O => w
  | S k =>
      let x := Z.lxor (Z.lxor (Z.lxor (nth 2 w 0) (nth 7 w 0)) (nth 13 w 0)) (nth 15 w 0) in
      extend k (rotl 1 x :: w)
  end.

Definition State : Type := Z * Z * Z * Z * Z.

Definition round (st : State) (tw : nat * Z) : State :=
  let '(a, b, c, d, e) := st in
  let '(t, w) := tw in
  let '(f, k) :=
    if (t <? 20)%nat then (Z.lor (Z.land b c) (Z.land (not32 b) d), 0x5A827999)
    else if (t <? 40)%nat then (Z.lxor (Z.lxor b c) d, 0x6ED9EBA1)
    else if (t <? 60)%nat then
      (Z.lor (Z.lor (Z.land b c) (Z.land b d)) (Z.land c d), 0x8F1BBCDC)
    else (Z.lxor (Z.lxor b c) d, 0xCA62C1D6) in
  let temp := add32 (add32 (add32 (add32 (rotl 5 a) f) e) k) w in
  (temp, a, rotl 30 b, c, d).

Definition block (h : State) (chunk : list Z) : State :=
  let w := rev (extend 64 (rev (words 16 chunk))) in
  let '(a, b, c, d, e) := fold_left round (combine (seq 0 80) w) h in
  let '(h0, h1, h2, h3, h4) := h in
  (add32 h0 a, add32 h1 b, add32 h2 c, add32 h3 d, add32 h4 e).

Fixpoint blocks (fuel : nat) (h : State) (bs : list Z) : State :=
  match fuel with
  | O => h
  | S k =>
      match bs with
      | [] => h
      | _ => blocks k (block h (take 64 bs)) (drop 64 bs)
      end
  end.

Definition init : State :=
  (0x67452301, 0xEFCDAB89, 0x98BADCFE, 0x10325476, 0xC3D2E1F0).

(** [sha1.New], [Write] and [Sum(nil)]: the 20 bytes of the digest. *)
Definition Sum (data : bytes) : list Z :=
  let p := pad (map byteZ data) in
  let '(h0, h1, h2, h3, h4) := blocks (length p) init p in
  beBytes 4 h0 ++ beBytes 4 h1 ++ beBytes 4 h2 ++ beBytes 4 h3 ++ beBytes 4 h4.

End sha1.

Module hex.

Definition hextable : bytes := str "0123456789abcdef".

Definition digit (v : Z) : ascii := nth (Z.to_nat (Z.land v 0x0F)) hextable (Zbyte 48).

(** [hex.EncodeToString]. *)
Definition EncodeToString (src : list Z) : bytes :=
  concat (map (fun v => [digit (Z.shiftr v 4); digit v]) src).

End hex.

(** ** Package [path/filepath], with [/] as the separator *)

Module filepath.

(** The last element of a path without trailing slashes. *)
Fixpoint lastElem (revp acc : bytes) : bytes :=
  match revp with
  | [] => acc
  | c :: r => if decide (c = SLASH) then acc else lastElem r (c :: acc)
  end.

(** [filepath.Base]. *)
Definition Base (path : bytes) : bytes :=
  match path with
  | [] => str "."
  | _ =>
      let path := strings.TrimRight path [SLASH] in
      let path := lastElem (rev path) [] in
      match path with
      | [] => [SLASH]
      | _ => path
      end
  end.

(** The loop of [filepath.Ext], from the last byte backwards. *)
Fixpoint scanExt (revp suffix : bytes) : bytes :=
  match revp with
  | [] => []
  | c :: r =>
      if decide (c = SLASH) then []
      else if decide (c = DOT) then c :: suffix
      else scanExt r (c :: suffix)
  end.

(** [filepath.Ext]. *)
Definition Ext (path : bytes) : bytes := scanExt (rev path) [].

(** [filepath.ToSlash]: the identity where the separator is [/]. *)
Definition ToSlash (path : bytes) : bytes := path.

End filepath.

(** ** The filename synthesizer (the middle of [downloadAndSaveImage])

    [Path] is the [Path] field of [url.Parse imageURL]. *)

Definition synthFilename `{Unicode} (imageURL Path : bytes) : bytes :=
  let pathParts := strings.Split Path SLASH in
  let n := length pathParts in
  let uniquePart :=
    if (3 <=? n)%nat then strings.Join (take 2 (drop (n - 3) pathParts)) (str "_")
    else if (2 <=? n)%nat then nth (n - 2) pathParts []
    else [] in
  let filenameWithExt := filepath.Base Path in
  let filenameWithExt := hd [] (strings.Split filenameWithExt (Zbyte 63)) in
  let extension := filepath.Ext filenameWithExt in
  let extension := match extension with [] => str ".jpg" | _ => extension end in
  let filename := strings.TrimSuffix filenameWithExt (filepath.Ext filenameWithExt) in
  let hash := take 4 (hex.EncodeToString (sha1.Sum imageURL)) in
  let filename := hash ++ str "-" ++ uniquePart ++ str "-" ++ filename in
  let filename := transliterate filename in
  filename ++ extension.


(** ** The world of [downloadAndSaveImage] and [processRecords]

    The file system, the network and the Go libraries the repository
    calls are an environment of oracles; each may answer from the
    current state of the world. *)

Record Response : Type := { StatusCode : Z; ContentLength : Z }.

Inductive Progress : Type :=
| PZero                                   (* [progressBinding.Set(0)] *)
| PRatio (stepsCompleted totalSteps : nat).
                      (* [float64(stepsCompleted) / float64(totalSteps)] *)

Record World : Type := {
  present : gset bytes;          (* the paths on which [os.Stat] succeeds *)
  requests : list bytes;         (* the URLs handed to [client.Do], latest first *)
  emitted : list Progress;       (* the values set on [progressBinding], latest first *)
  written : option (bytes * Z * list (list bytes));
                                 (* the output file: name, delimiter, records *)
}.

Record Env : Type := {
  url_Parse : bytes → option bytes;       (* the [Path] of the parsed URL, or an error *)
  filepath_Join : bytes → bytes → bytes;
  os_MkdirAll : World → bytes → bool;
  http_NewRequest : World → bytes → bool;
  client_Do : World → bytes → option Response;
  os_Create : World → bytes → bool;
  io_Copy : World → bytes → bool;
  out_Stat : World → bytes → option Z;    (* the size of the written file *)
  writer_Write : World → list bytes → bool;
  mapOrder : gset bytes → list bytes;     (* the order of [range] over the set *)
  mapOrder_perm : ∀ s, mapOrder s ≡ₚ elements s;
}.

Definition statOK (w : World) (path : bytes) : bool := bool_decide (path ∈ present w).

Definition touch (path : bytes) (w : World) : World :=
  {| present := {[path]} ∪ present w; requests := requests w;
     emitted := emitted w; written := written w |}.

Definition request (url : bytes) (w : World) : World :=
  {| present := present w; requests := url :: requests w;
     emitted := emitted w; written := written w |}.

Definition emit (p : Progress) (w : World) : World :=
  {| present := present w; requests := requests w;
     emitted := p :: emitted w; written := written w |}.

Inductive DownloadError : Type :=
| InvalidImageURL
| FailedToCreateDirectory
| FailedToCreateRequest
| FailedToExecuteRequest
| FailedToDownload (status : Z)
| FailedToCreateFile
| FailedToSave
| FileSizeMismatch (expected got : Z).

Section Download.
Context `{Unicode} (E : Env).

(** [downloadAndSaveImage]: the relative path for the HTML, or an error. *)
Definition downloadAndSaveImage (imageURL hostname imagedir : bytes) (w : World)
  : (DownloadError + bytes) * World :=
  let imageURL := resolveURL imageURL hostname in
  match url_Parse E imageURL with
  | None => (inl InvalidImageURL, w)
  | Some Path =>
      let filename := synthFilename imageURL Path in
      let imageDirPath := filepath_Join E (str "files") imagedir in
      if negb (os_MkdirAll E w imageDirPath) then (inl FailedToCreateDirectory, w)
      else
        let w := touch imageDirPath w in
        let filePath := filepath_Join E imageDirPath filename in
        let relativePath := filepath.ToSlash (imagedir ++ filename) in
        if statOK w filePath then (inr relativePath, w)
        else if negb (http_NewRequest E w imageURL) then (inl FailedToCreateRequest, w)
        else
          let resp := client_Do E w imageURL in
          let w := request imageURL w in
          match resp with
          | None => (inl FailedToExecuteRequest, w)
          | Some resp =>
              if negb (StatusCode resp =? 200) then
                (inl (FailedToDownload (StatusCode resp)), w)
              else if negb (os_Create E w filePath) then (inl FailedToCreateFile, w)
              else
                let w := touch filePath w in
                if negb (io_Copy E w filePath) then (inl FailedToSave, w)
                else
                  match
                    (if 0 <? ContentLength resp then out_Stat E w filePath else None)
                  with
                  | Some size =>
                      if negb (size =? ContentLength resp) then
                        (inl (FileSizeMismatch (ContentLength resp) size), w)
                      else (inr relativePath, w)
                  | None => (inr relativePath, w)
                  end
          end
  end.
End Download.

(** ** [writeCSV] and [processRecords]

    The status texts of [updateStatus] are left out.  The goroutines of
    the download phase are run one after the other, in the order
    [mapOrder] gives the reference set: each task is taken as atomic
    with respect to the others. *)

Inductive Result : Type :=
| Done                                   (* [return nil] *)
| NoDataInCSV
| MissingRequiredColumn (col : bytes)
| WriteError
| IndexPanic.                            (* a row shorter than a required column *)

Definition separatorOf (selectedSeparator : bytes) : Z :=
  if decide (selectedSeparator = str "Comma (,)") then 44
  else if decide (selectedSeparator = str "Semicolon (;)") then 59
  else if decide (selectedSeparator = str "Tab (\t)") then 9
  else 44.

Definition setWritten (f : option (bytes * Z * list (list bytes))) (w : World) : World :=
  {| present := present w; requests := requests w; emitted := emitted w; written := f |}.

Definition headerMapOf (headers : list bytes) : gmap bytes nat :=
  fold_left (fun m ih => <[ih.2 := ih.1]> m) (imap pair headers) ∅.

Definition addLinks (links : list bytes) (set : gset bytes) : gset bytes :=
  fold_left (fun s link => {[link]} ∪ s) links set.

(** The first loop of [processRecords]; [None] is the index panic. *)
Fixpoint collectLinks (iUk iRu : nat) (rows : list (list bytes)) (set : gset bytes)
  : option (gset bytes) :=
  match rows with
  | [] => Some set
  | row :: rest =>
      match row !! iUk, row !! iRu with
      | Some bodyUk, Some bodyRu =>
          let set := addLinks (extractImageLinks bodyUk) set in
          let set := addLinks (extractImageLinks bodyRu) set in
          collectLinks iUk iRu rest set
      | _, _ => None
      end
  end.

Section Orchestrator.
Context `{Unicode} (E : Env).

(** [writeCSV]. *)
Fixpoint writeRecords (name : bytes) (comma : Z) (records sofar : list (list bytes))
         (w : World) : Result * World :=
  match records with
  | [] => (Done, w)
  | record :: rest =>
      if writer_Write E w record then
        writeRecords name comma rest (sofar ++ [record])
                     (setWritten (Some (name, comma, sofar ++ [record])) w)
      else (WriteError, w)
  end.

Definition writeCSV (records : list (list bytes)) (outputFileName selectedSeparator : bytes)
           (w : World) : Result * World :=
  if negb (os_Create E w outputFileName) then (WriteError, w)
  else
    let comma := separatorOf selectedSeparator in
    let w := setWritten (Some (outputFileName, comma, [])) (touch outputFileName w) in
    writeRecords outputFileName comma records [] w.

(** The download phase: one task per reference. *)
Fixpoint downloadAll (hostname imagedir : bytes) (totalSteps : nat) (links : list bytes)
         (imagePathMap : gmap bytes bytes) (stepsCompleted : nat) (w : World)
  : gmap bytes bytes * nat * World :=
  match links with
  | [] => (imagePathMap, stepsCompleted, w)
  | link :: rest =>
      match downloadAndSaveImage E link hostname imagedir w with
      | (inl _, w) =>
          downloadAll hostname imagedir totalSteps rest imagePathMap stepsCompleted w
      | (inr newPath, w) =>
          let stepsCompleted := S stepsCompleted in
          downloadAll hostname imagedir totalSteps rest
                      (<[link := newPath]> imagePathMap) stepsCompleted
                      (emit (PRatio stepsCompleted totalSteps) w)
      end
  end.

(** The rewrite phase. *)
Fixpoint rewriteRows (iUk iRu : nat) (imagePathMap : gmap bytes bytes) (totalSteps : nat)
         (rows : list (list bytes)) (stepsCompleted : nat) (w : World)
  : option (list (list bytes) * nat * World) :=
  match rows with
  | [] => Some ([], stepsCompleted, w)
  | row :: rest =>
      match row !! iUk, row !! iRu with
      | Some bodyUk, Some bodyRu =>
          let newBodyUk := replaceImageLinks bodyUk imagePathMap in
          let newBodyRu := replaceImageLinks bodyRu imagePathMap in
          let row := <[iRu := newBodyRu]> (<[iUk := newBodyUk]> row) in
          let stepsCompleted := S stepsCompleted in
          let w := emit (PRatio stepsCompleted totalSteps) w in
          match rewriteRows iUk iRu imagePathMap totalSteps rest stepsCompleted w with
          | Some (rows', n, w') => Some (row :: rows', n, w')
          | None => None
          end
      | _, _ => None
      end
  end.

(** [processRecords]: the result, the world afterwards and the records
    as the in-place updates leave them. *)
Definition processRecords (records : list (list bytes))
           (hostname imagedir outputFileName selectedSeparator : bytes) (w : World)
  : Result * World * list (list bytes) :=
  if (length records <? 2)%nat then (NoDataInCSV, w, records)
  else
    let headers := default [] (head records) in
    let headerMap := headerMapOf headers in
    match headerMap !! str "body_uk", headerMap !! str "body_ru" with
    | None, _ => (MissingRequiredColumn (str "body_uk"), w, records)
    | Some _, None => (MissingRequiredColumn (str "body_ru"), w, records)
    | Some iUk, Some iRu =>
        let w := emit PZero w in
        match collectLinks iUk iRu (tail records) ∅ with
        | None => (IndexPanic, w, records)
        | Some imageLinkSet =>
            let allImageLinks := mapOrder E imageLinkSet in
            let totalImages := length allImageLinks in
            let totalSteps := totalImages in
            let '(imagePathMap, stepsCompleted, w) :=
              downloadAll hostname imagedir totalSteps allImageLinks ∅ 0%nat w in
            match rewriteRows iUk iRu imagePathMap totalSteps (tail records)
                              stepsCompleted w with
            | None => (IndexPanic, w, records)
            | Some (rows, _, w) =>
                let records := headers :: rows in
                let '(res, w) := writeCSV records outputFileName selectedSeparator w in
                (res, w, records)
            end
        end
    end.
End Orchestrator.

(** ** The statements of the specification *)

(** The three rules of URL resolution, in the specification's words:
    the first that applies gives the resolved URL. *)
Inductive ResolvedBy (r h : bytes) : bytes → Prop :=
| ProtocolRelative :
    str "//" `prefix_of` r →
    ResolvedBy r h (str "https:" ++ r)
| HostRelative (h0 r0 : bytes) (n k : nat) :
    ¬ str "//" `prefix_of` r →
    ¬ str "http" `prefix_of` r →
    h = h0 ++ replicate n SLASH → last h0 ≠ Some SLASH →
    r = replicate k SLASH ++ r0 → head r0 ≠ Some SLASH →
    ResolvedBy r h (h0 ++ [SLASH] ++ r0)
| Absolute :
    ¬ str "//" `prefix_of` r →
    str "http" `prefix_of` r →
    ResolvedBy r h r.

(** What a regular expression matches, and the capture it leaves: the
    declarative reading of [regexp.run]. *)
Inductive Sem : Regexp → bytes → option bytes → option bytes → Prop :=
| SemLit c cap : Sem (Lit c) [c] cap cap
| SemClass (p : ascii → bool) c cap : p c = true → Sem (Class p) [c] cap cap
| SemStar (p : ascii → bool) w cap : forallb p w = true → Sem (Star p) w cap cap
| SemPlus (p : ascii → bool) w cap : w ≠ [] → forallb p w = true → Sem (Plus p) w cap cap
| SemCat r1 r2 w1 w2 c0 c1 c2 :
    Sem r1 w1 c0 c1 → Sem r2 w2 c1 c2 → Sem (Cat r1 r2) (w1 ++ w2) c0 c2
| SemCapture r w c0 c1 : Sem r w c0 c1 → Sem (Capture r) w c0 (Some w).

(** An [<img ...>] tag as [imgRe] reads it, with its captured [src] value. *)
Inductive ImgTag : bytes → bytes → Prop :=
| IsImgTag (pre : bytes) (q1 : ascii) (link : bytes) (q2 : ascii) (post : bytes) :
    pre ≠ [] → forallb notGt pre = true →
    isQuote q1 = true →
    link ≠ [] → forallb notQuote link = true →
    isQuote q2 = true →
    forallb notGt post = true →
    ImgTag (str "<img" ++ pre ++ str "src=" ++ [q1] ++ link ++ [q2] ++ post ++ str ">")
           link.

(** A reference as the extractor can return it: non-empty and free of
    both quote characters. *)
Definition QuoteFree (link : bytes) : Prop :=
  link ≠ [] ∧ (DQUOTE ∉ link) ∧ (SQUOTE ∉ link).

(** The raw occurrences: every [src] literal of every row, [body_uk]
    before [body_ru], repeats included. *)
Definition harvested (iUk iRu : nat) (rows : list (list bytes)) : list bytes :=
  concat (map (λ row, (extractImageLinks (default [] (row !! iUk))
                        ++ extractImageLinks (default [] (row !! iRu)))) rows).

(** The [<img>] tags of a text, as [replaceImageLinks] finds them. *)
Definition tagsOf (htmlContent : bytes) : list bytes :=
  map fst (FindAllStringSubmatch imgRe htmlContent).

(** The link that the callback of [replaceImageLinks] looks up for a tag:
    group 1 of the leftmost match of [srcRe] in it. *)
Definition srcOf (imgTag : bytes) : option bytes :=
  match FindStringSubmatch srcRe imgTag with
  | Some (_, srcMatch1) => Some (default [] srcMatch1)
  | None => None
  end.

(** A text cut at its matches: the bytes outside any match one by one,
    each match whole. *)
Inductive Segment : Type :=
| Outside (c : ascii)
| Matched (t : bytes).

Definition segmentBytes (seg : Segment) : bytes :=
  match seg with
  | Outside c => [c]
  | Matched t => t
  end.

Definition rewriteSegment (repl : bytes → bytes) (seg : Segment) : bytes :=
  match seg with
  | Outside c => [c]
  | Matched t => repl t
  end.

Fixpoint segments (r : Regexp) (skip : nat) (s : bytes) {struct s} : list Segment :=
  match skip with
  | S k =>
      match s with
      | _ :: s' => segments r k s'
      | [] => []
      end
  | O =>
      match matchHere r s with
      | Some (O, _) =>
          Matched [] ::
            match s with
            | c :: s' => Outside c :: segments r 0 s'
            | [] => []
            end
      | Some (S n, _) =>
          Matched (take (S n) s) ::
            match s with
            | _ :: s' => segments r n s'
            | [] => []
            end
      | None =>
          match s with
          | c :: s' => Outside c :: segments r 0 s'
          | [] => []
          end
      end
  end.

(** The value set on the progress bar lies in [0,1].  The counts are
    small integers, which [float64] holds exactly, and the division is
    correctly rounded: the quotient is in [0,1] exactly when the
    denominator is positive and the numerator does not exceed it (a
    zero denominator gives an infinity or a NaN). *)
Definition InUnitInterval (p : Progress) : Prop :=
  match p with
  | PZero => True
  | PRatio stepsCompleted totalSteps =>
      (0 < totalSteps)%nat ∧ (stepsCompleted ≤ totalSteps)%nat
  end.

(** ** An environment for the examples

    Every directory and file can be created, every write succeeds, and
    the server answers each URL with the status [status] gives it and no
    declared length.  [examplePath] is the path of a plain URL of the
    form scheme://host/path?query#fragment without escapes. *)

Fixpoint afterScheme (u : bytes) : bytes :=
  if strings.HasPrefix u (str "://") then drop 3 u
  else match u with
       | _ :: u' => afterScheme u'
       | [] => []
       end.

Fixpoint fromFirst (c : ascii) (s : bytes) : bytes :=
  match s with
  | [] => []
  | x :: s' => if decide (x = c) then s else fromFirst c s'
  end.

Fixpoint upTo (stop : ascii → bool) (s : bytes) : bytes :=
  match s with
  | [] => []
  | x :: s' => if stop x then [] else x :: upTo stop s'
  end.

Definition examplePath (u : bytes) : bytes :=
  upTo (λ c, Ascii.eqb c (Zbyte 63) || Ascii.eqb c (Zbyte 35))
       (fromFirst SLASH (afterScheme u)).

Definition exampleEnv (status : bytes → Z) : Env := {|
  url_Parse u := Some (examplePath u);
  filepath_Join a b :=
    strings.TrimRight a [SLASH] ++ [SLASH] ++ strings.TrimRight (strings.TrimLeft b [SLASH]) [SLASH];
  os_MkdirAll _ _ := true;
  http_NewRequest _ _ := true;
  client_Do _ u := Some {| StatusCode := status u; ContentLength := -1 |};
  os_Create _ _ := true;
  io_Copy _ _ := true;
  out_Stat _ _ := None;
  writer_Write _ _ := true;
  mapOrder s := elements s;
  mapOrder_perm s := reflexivity (elements s);
|}.

Definition emptyWorld : World :=
  {| present := ∅; requests := []; emitted := []; written := None |}.

(** ** The safe-name pattern of the specification *)

Definition isLowerHex (c : ascii) : bool :=
  isDigitASCII (byteZ c) || ((97 <=? byteZ c) && (byteZ c <=? 102)).

Definition isLowerAlnum (c : ascii) : bool :=
  isLowerASCII (byteZ c) || isDigitASCII (byteZ c).

Definition isSafeByte (c : ascii) : bool := isLowerAlnum c || Ascii.eqb c DASH.

(** One or more of [a-z0-9-], a dot, one or more of [a-z0-9]. *)
Definition safeNameRe : Regexp :=
  Cat (Plus isSafeByte) (Cat (Lit DOT) (Plus isLowerAlnum)).

(** The whole string matches the pattern. *)
Definition MatchesSafeName (s : bytes) : Prop := ∃ cap, Sem safeNameRe s None cap.

(** ** [transliterate] byte by byte

    After step 2 only ASCII bytes are left, so that steps 3 and 4 act
    on single bytes: [keepStep3] is the test of step 3 and [lowerByte]
    the mapping of step 4 on them. *)

Definition isASCII (c : ascii) : bool := byteZ c <? 0x80.

Definition keepStep3 (c : ascii) : bool :=
  (byteZ c =? 45) || (isUpperASCII (byteZ c) || isLowerASCII (byteZ c))
  || isDigitASCII (byteZ c).

Definition lowerByte (c : ascii) : ascii :=
  if isUpperASCII (byteZ c) then Zbyte (byteZ c + 32) else c.

(** Step 1 and the first half of step 2. *)
Definition latinized (filename : bytes) : bytes :=
  strings.ReplaceAllByte
    (concat (map (λ char, match cyrillicToLatin !! char with
                           | Some latin => latin
                           | None => utf8.EncodeRune char
                           end)
                 (utf8.runes filename)))
    (Zbyte 32) (str "-").

(** The rest of step 2 and steps 3 and 4, on bytes. *)
Definition cleaned (s : bytes) : bytes :=
  map lowerByte (List.filter keepStep3 (List.filter (λ c, negb (notWordDash c)) s)).

(** ** The phases of [processRecords], seen from outside *)

Section Phases.
Context `{Unicode} (E : Env).

(** What each task of the download phase returned, in the order the
    tasks ran; the world is threaded as in [downloadAll]. *)
Fixpoint downloadTrace (hostname imagedir : bytes) (totalSteps : nat) (links : list bytes)
         (stepsCompleted : nat) (w : World) : list (bytes * (DownloadError + bytes)) :=
  match links with
  | [] => []
  | link :: rest =>
      match downloadAndSaveImage E link hostname imagedir w with
      | (inl err, w) =>
          (link, inl err) :: downloadTrace hostname imagedir totalSteps rest stepsCompleted w
      | (inr newPath, w) =>
          (link, inr newPath) ::
            downloadTrace hostname imagedir totalSteps rest (S stepsCompleted)
                          (emit (PRatio (S stepsCompleted) totalSteps) w)
      end
  end.

(** Every step of a fetch succeeds: directories and files can be made,
    the server answers 200, and a written file has the declared size. *)
Definition Cooperative : Prop :=
  (∀ w p, os_MkdirAll E w p = true) ∧
  (∀ w u, http_NewRequest E w u = true) ∧
  (∀ w u, ∃ resp, client_Do E w u = Some resp ∧ StatusCode resp = 200 ∧
                  ∀ w' p size, out_Stat E w' p = Some size → size = ContentLength resp) ∧
  (∀ w p, os_Create E w p = true) ∧
  (∀ w p, io_Copy E w p = true).

End Phases.

(** A row after the rewrite phase. *)
Definition rewriteRow (iUk iRu : nat) (imagePathMap : gmap bytes bytes) (row : list bytes)
  : list bytes :=
  <[iRu := replaceImageLinks (default [] (row !! iRu)) imagePathMap]>
    (<[iUk := replaceImageLinks (default [] (row !! iUk)) imagePathMap]> row).

(** The server of the second example has lost one image. *)
Definition statusWithout (missing : bytes) (u : bytes) : Z :=
  if decide (u = missing) then 404 else 200.

Definition threeReferences : list (list bytes) :=
  [[str "body_uk"; str "body_ru"];
   [str "<img src='/a.jpg'><img class='wide' src='/missing.jpg'>";
    str "<img src='http://x.com/b.png'>"]].

(** The table of the specification's example; the rows carry an empty
    [body_ru], which the header must name for the run to start. *)
Definition exampleTable : list (list bytes) :=
  [[str "body_uk"; str "body_ru"];
   [str "<img src='/a.jpg'>"; []];
   [str "<img src='http://x.com/b.png'>"; []]].

(** ** [getCSVURL]

    [url.Parse] is Go's; what the function reads of the parsed URL is
    its [Path], the value of [Query().Get("gid")] and its [Fragment]. *)

Module url.
Record URL : Type := { Path : bytes; QueryGid : bytes; Fragment : bytes }.
End url.

Inductive CSVURLError : Type :=
| URLParseError
| InvalidSpreadsheetURL.

(** The loop over the path segments: the segment after the first [d]
    that has a successor. *)
Fixpoint spreadsheetIDOf (parts : list bytes) : bytes :=
  match parts with
  | [] => []
  | part :: rest =>
      if decide (part = str "d") then
        match rest with
        | next :: _ => next
        | [] => []
        end
      else spreadsheetIDOf rest
  end.

(** The sheet id: from the query, else from a fragment [gid=...], else 0. *)
Definition gidOf (u : url.URL) : bytes :=
  match url.QueryGid u with
  | [] =>
      let gid :=
        match url.Fragment u with
        | [] => []
        | _ =>
            match strings.Split (url.Fragment u) (Zbyte 61) with
            | [k; v] => if decide (k = str "gid") then v else []
            | _ => []
            end
        end in
      match gid with
      | [] => str "0"
      | _ => gid
      end
  | gid => gid
  end.

Definition getCSVURL (url_Parse : bytes → option url.URL) (spreadsheetURL : bytes)
  : CSVURLError + bytes :=
  match url_Parse spreadsheetURL with
  | None => inl URLParseError
  | Some u =>
      let parts := strings.Split (url.Path u) SLASH in
      match spreadsheetIDOf parts with
      | [] => inl InvalidSpreadsheetURL
      | spreadsheetID =>
          inr (str "https://docs.google.com/spreadsheets/d/" ++ spreadsheetID
                 ++ str "/export?format=csv&gid=" ++ gidOf u)
      end
  end.

(** ** A server that declares more bytes than it sends

    As [exampleEnv] with status 200 throughout, but every response
    declares [declared] bytes and every written file has [got]. *)

Definition truncatingEnv (declared got : Z) : Env := {|
  url_Parse u := Some (examplePath u);
  filepath_Join a b :=
    strings.TrimRight a [SLASH] ++ [SLASH] ++ strings.TrimRight (strings.TrimLeft b [SLASH]) [SLASH];
  os_MkdirAll _ _ := true;
  http_NewRequest _ _ := true;
  client_Do _ u := Some {| StatusCode := 200; ContentLength := declared |};
  os_Create _ _ := true;
  io_Copy _ _ := true;
  out_Stat _ _ := Some got;
  writer_Write _ _ := true;
  mapOrder s := elements s;
  mapOrder_perm s := reflexivity (elements s);
|}.

(** A table whose last row stops before [body_ru]. *)
Definition shortRowTable : list (list bytes) :=
  [[str "id"; str "body_uk"; str "body_ru"];
   [str "1"; str "<img src='/a.jpg'>"; []];
   [str "2"; str "<img src='/b.jpg'>"]].

(** A table whose two body columns hold no image. *)
Definition plainTable : list (list bytes) :=
  [[str "body_ru"; str "title"; str "body_uk"];
   [str "<p>text</p>"; str "<img src='/t.jpg'>"; str "<b>5 > 3</b>"]].

(** ** Plainly written texts

    A text cut into pieces: stretches in which no [<img] opens, and
    image tags written the plain way, [<img], attributes, [src=], a
    quoted value, attributes, [>]. *)

Inductive Piece : Type :=
| PText (t : bytes)
| PImg (pre : bytes) (q1 : ascii) (link : bytes) (q2 : ascii) (post : bytes).

Definition renderPiece (p : Piece) : bytes :=
  match p with
  | PText t => t
  | PImg pre q1 link q2 post =>
      str "<img" ++ pre ++ str "src=" ++ q1 :: link ++ q2 :: post ++ str ">"
  end.

Definition renderPieces (ps : list Piece) : bytes := concat (map renderPiece ps).

(** [t] starts with [<img], or is a beginning of it that the next piece
    could complete. *)
Definition opensImg (t : bytes) : bool :=
  strings.HasPrefix t (str "<img") || strings.HasPrefix (str "<img") t.

Fixpoint noImgOpen (t : bytes) : bool :=
  match t with
  | [] => true
  | _ :: t' => negb (opensImg t) && noImgOpen t'
  end.

(** No [<img] opens in a stretch of text.  In a tag the attributes hold
    no [>]; the value is not empty, holds no quote and no [>] and does
    not end in [src=]; the attributes after it hold no quote. *)
Definition PlainPiece (p : Piece) : Prop :=
  match p with
  | PText t => noImgOpen t = true
  | PImg pre q1 link q2 post =>
      pre ≠ [] ∧ forallb notGt pre = true ∧
      isQuote q1 = true ∧ isQuote q2 = true ∧
      link ≠ [] ∧ forallb notQuote link = true ∧ forallb notGt link = true ∧
      strings.HasSuffix link (str "src=") = false ∧
      forallb notQuote post = true ∧ forallb notGt post = true
  end.

Definition matchesOfPieces (ps : list Piece) : list (bytes * option bytes) :=
  flat_map (λ p, match p with
                 | PText _ => []
                 | PImg _ _ link _ _ => [(renderPiece p, Some link)]
                 end) ps.

(** [old] occurs somewhere in [s]. *)
Fixpoint occursIn (old s : bytes) : bool :=
  strings.HasPrefix s old ||
  match s with
  | _ :: s' => occursIn old s'
  | [] => false
  end.

(** A tag in which the callback of [replaceImageLinks] meets the [src]
    value first: no quote before [src=], and the value does not occur
    in the tag before its own place. *)
Definition RewritablePiece (p : Piece) : Prop :=
  match p with
  | PText _ => True
  | PImg pre q1 link q2 post =>
      forallb notQuote pre = true ∧
      occursIn link (str "<img" ++ pre ++ str "src=") = false
  end.

(** The piece with its [src] value looked up in the map. *)
Definition rewritePiece (imagePathMap : gmap bytes bytes) (p : Piece) : Piece :=
  match p with
  | PText t => PText t
  | PImg pre q1 link q2 post => PImg pre q1 (default link (imagePathMap !! link)) q2 post
  end.

(** * Properties *)

(** ** Strings *)

Lemma HasPrefix_spec (s p : bytes) : strings.HasPrefix s p = true ↔ p `prefix_of` s.
Proof.
  revert s. induction p as [|c p IH]; intros s; simpl.
  - split; [intros _; apply prefix_nil | done].
  - destruct s as [|c' s]; simpl.
    + split; [done | intros [k Hk]; discriminate].
    + destruct (decide (c = c')) as [->|Hne].
      * rewrite IH. split; [apply prefix_cons | apply prefix_cons_inv_2].
      * split; [done | intros Hp; apply prefix_cons_inv_1 in Hp; congruence].
Qed.

Lemma HasPrefix_false (s p : bytes) : strings.HasPrefix s p = false ↔ ¬ p `prefix_of` s.
Proof. rewrite <- HasPrefix_spec. destruct (strings.HasPrefix s p); naive_solver. Qed.

Lemma TrimLeft_split (s : bytes) (c : ascii) :
  ∃ k, s = replicate k c ++ strings.TrimLeft s [c] ∧ head (strings.TrimLeft s [c]) ≠ Some c.
Proof.
  induction s as [|a s [k [Hs Hh]]]; simpl.
  - exists 0%nat. split; [done | discriminate].
  - destruct (decide (a ∈ [c])) as [Hin|Hnin].
    + apply list_elem_of_singleton in Hin as ->. exists (S k). simpl. by rewrite <- Hs.
    + exists 0%nat. split; [done|]. simpl. intros [= ->]. apply Hnin. by apply list_elem_of_singleton.
Qed.

Lemma TrimLeft_unique (s s0 : bytes) (c : ascii) (k : nat) :
  s = replicate k c ++ s0 → head s0 ≠ Some c → strings.TrimLeft s [c] = s0.
Proof.
  intros -> Hh. induction k as [|k IH]; simpl.
  - destruct s0 as [|a s0]; [done|]. simpl.
    destruct (decide (a ∈ [c])) as [Hin|]; [|done].
    apply list_elem_of_singleton in Hin as ->. by destruct Hh.
  - destruct (decide (c ∈ [c])) as [|Hn]; [done|]. destruct Hn. by apply list_elem_of_singleton.
Qed.

Lemma rev_reverse {A} (l : list A) : rev l = reverse l.
Proof. apply rev_alt. Qed.

Lemma head_rev {A} (l : list A) : head (rev l) = last l.
Proof. rewrite rev_reverse. rewrite <- (reverse_involutive l) at 2. by rewrite last_reverse. Qed.

Lemma TrimRight_split (s : bytes) (c : ascii) :
  ∃ n, s = strings.TrimRight s [c] ++ replicate n c ∧ last (strings.TrimRight s [c]) ≠ Some c.
Proof.
  unfold strings.TrimRight. destruct (TrimLeft_split (rev s) c) as [n [Hs Hh]].
  exists n. split.
  - rewrite <- (rev_involutive s) at 1. rewrite Hs at 1.
    rewrite rev_app_distr. f_equal. rewrite rev_reverse. apply reverse_replicate.
  - by rewrite <- head_rev, rev_involutive.
Qed.

Lemma TrimRight_unique (s s0 : bytes) (c : ascii) (n : nat) :
  s = s0 ++ replicate n c → last s0 ≠ Some c → strings.TrimRight s [c] = s0.
Proof.
  intros -> Hl. unfold strings.TrimRight.
  rewrite (TrimLeft_unique _ (rev s0) c n).
  - apply rev_involutive.
  - rewrite rev_app_distr. f_equal. rewrite rev_reverse. apply reverse_replicate.
  - by rewrite head_rev.
Qed.

(** ** C4: URL resolution *)

(** C4. URL resolution follows exactly the three rules, in order: a
    reference that starts with two slashes gets [https:] in front; else
    one that does not start with [http] is joined to the hostname, the
    hostname's trailing slashes and the reference's leading slashes
    stripped, with a single slash between; else it is left unchanged. *)
Theorem resolveURL_rules (r h u : bytes) :
  ResolvedBy r h u ↔ u = resolveURL r h.
Proof.
  unfold resolveURL. change (str "/") with [SLASH]. split.
  - intros [Hp | h0 r0 n k Hp1 Hp2 Hh Hl Hr Hd | Hp1 Hp2].
    + apply HasPrefix_spec in Hp. by rewrite Hp.
    + apply HasPrefix_false in Hp1, Hp2. rewrite Hp1, Hp2. simpl.
      by rewrite (TrimRight_unique h h0 SLASH n), (TrimLeft_unique r r0 SLASH k).
    + apply HasPrefix_false in Hp1. apply HasPrefix_spec in Hp2. by rewrite Hp1, Hp2.
  - intros ->.
    destruct (strings.HasPrefix r (str "//")) eqn:Hp1.
    { apply ProtocolRelative. by apply HasPrefix_spec. }
    apply HasPrefix_false in Hp1.
    destruct (strings.HasPrefix r (str "http")) eqn:Hp2; simpl.
    { apply Absolute; [done | by apply HasPrefix_spec]. }
    apply HasPrefix_false in Hp2.
    destruct (TrimRight_split h SLASH) as [n [Hh Hl]].
    destruct (TrimLeft_split r SLASH) as [k [Hr Hd]].
    by eapply (HostRelative r h _ _ n k).
Qed.

(** ** The regular-expression engine *)

Lemma loop_sound {A} (p : ascii → bool) (k : bytes → option A) (s : bytes) (a : A) :
  loop p k s = Some a →
  ∃ w s', s = w ++ s' ∧ forallb p w = true ∧ k s' = Some a.
Proof.
  induction s as [|c s IH]; simpl; intros Hr.
  - by exists [], [].
  - destruct (p c) eqn:Hp.
    + destruct (loop p k s) as [a'|] eqn:Hl.
      * destruct (IH Hr) as (w & s' & -> & Hw & Hk).
        exists (c :: w), s'. simpl. by rewrite Hp, Hw.
      * by exists [], (c :: s).
    + by exists [], (c :: s).
Qed.

Lemma take_length_app_diff {A} (w s' : list A) :
  take (length (w ++ s') - length s') (w ++ s') = w.
Proof.
  rewrite length_app.
  replace (length w + length s' - length s')%nat with (length w) by lia.
  by rewrite take_app_length.
Qed.

Lemma run_sound {A} (r : Regexp) :
  ∀ (s : bytes) (cap : option bytes) (k : bytes → option bytes → option A) (a : A),
    run r s cap k = Some a →
    ∃ w s' cap', s = w ++ s' ∧ Sem r w cap cap' ∧ k s' cap' = Some a.
Proof.
  induction r as [c|p|p|p|r1 IH1 r2 IH2|r1 IH1]; intros s cap k a; simpl.
  - destruct s as [|c' s]; [done|]. destruct (decide (c = c')) as [<-|]; [|done].
    intros Hk. exists [c], s, cap. split_and!; [done | constructor | done].
  - destruct s as [|c' s]; [done|]. destruct (p c') eqn:Hp; [|done].
    intros Hk. exists [c'], s, cap. split_and!; [done | by constructor | done].
  - intros Hl. apply loop_sound in Hl as (w & s' & -> & Hw & Hk).
    exists w, s', cap. split_and!; [done | by constructor | done].
  - destruct s as [|c' s]; [done|]. destruct (p c') eqn:Hp; [|done].
    intros Hl. apply loop_sound in Hl as (w & s' & -> & Hw & Hk).
    exists (c' :: w), s', cap. split_and!; [done | | done].
    constructor; [done|]. simpl. by rewrite Hp.
  - intros Hr. apply IH1 in Hr as (w1 & s1 & c1 & -> & Hs1 & Hr).
    apply IH2 in Hr as (w2 & s2 & c2 & -> & Hs2 & Hk).
    exists (w1 ++ w2), s2, c2. split_and!; [by rewrite app_assoc | by econstructor | done].
  - intros Hr. apply IH1 in Hr as (w & s' & c1 & -> & Hs & Hk).
    rewrite take_length_app_diff in Hk.
    exists w, s', (Some w). split_and!; [done | by econstructor | done].
Qed.

Lemma matchHere_sound (r : Regexp) (s : bytes) (n : nat) (cap : option bytes) :
  matchHere r s = Some (n, cap) →
  ∃ s', s = take n s ++ s' ∧ n = length (take n s) ∧ Sem r (take n s) None cap.
Proof.
  unfold matchHere. intros Hr.
  apply run_sound in Hr as (w & s' & cap' & -> & Hs & [= <- <-]).
  rewrite take_length_app_diff. exists s'. split_and!; [done | | done].
  rewrite length_app. lia.
Qed.

Lemma findAll_sound (r : Regexp) (s : bytes) :
  ∀ skip m, m ∈ findAll r skip s → Sem r m.1 None m.2.
Proof.
  induction s as [|c s IH]; intros skip m; simpl.
  - destruct skip; [|by intros ?%elem_of_nil].
    destruct (matchHere r []) as [[n cap]|] eqn:Hm; [|by intros ?%elem_of_nil].
    intros ->%list_elem_of_singleton.
    by apply matchHere_sound in Hm as (s' & _ & _ & Hs).
  - destruct skip; [|apply IH].
    destruct (matchHere r (c :: s)) as [[n cap]|] eqn:Hm; [|apply IH].
    intros [->|Hin]%elem_of_cons; [|by eapply IH].
    by apply matchHere_sound in Hm as (s' & _ & _ & Hs).
Qed.

Ltac inv_sem :=
  repeat match goal with
         | H : Sem (Lits _ _) _ _ _ |- _ => simpl in H
         | H : Sem (Cat _ _) _ _ _ |- _ => inversion H; subst; clear H
         | H : Sem (Lit _) _ _ _ |- _ => inversion H; subst; clear H
         | H : Sem (Class _) _ _ _ |- _ => inversion H; subst; clear H
         | H : Sem (Star _) _ _ _ |- _ => inversion H; subst; clear H
         | H : Sem (Plus _) _ _ _ |- _ => inversion H; subst; clear H
         | H : Sem (Capture _) _ _ _ |- _ => inversion H; subst; clear H
         end.

Lemma imgRe_sound (w : bytes) (cap : option bytes) :
  Sem imgRe w None cap → ∃ link, cap = Some link ∧ ImgTag w link.
Proof.
  unfold imgRe. intros H. inv_sem.
  eexists. split; [done|]. by econstructor.
Qed.

Lemma srcRe_sound (w : bytes) (cap : option bytes) :
  Sem srcRe w None cap →
  ∃ link, cap = Some link ∧ link ≠ [] ∧ forallb notQuote link = true.
Proof. unfold srcRe. intros H. inv_sem. eauto. Qed.

(** The outer pattern is greedy before [src=] and so captures the last
    quoted [src=] value of a tag; the inner pattern finds the first. *)
Example two_src_attributes :
  extractImageLinks (str "<img data-src='x.png' src='y.png'>") = [str "y.png"] ∧
  srcOf (str "<img data-src='x.png' src='y.png'>") = Some (str "x.png").
Proof. vm_compute. done. Qed.

Example no_src_value :
  extractImageLinks (str "<img src=''> <imgsrc='a.png'> <img alt='a'>") = [].
Proof. vm_compute. done. Qed.

(** ** C10: what the extractor returns *)

Lemma notQuote_quote_free (link : bytes) :
  forallb notQuote link = true → (DQUOTE ∉ link) ∧ (SQUOTE ∉ link).
Proof.
  intros Hall. rewrite forallb_forall in Hall.
  split; intros Hin%list_elem_of_In%Hall; discriminate Hin.
Qed.

Lemma extractImageLinks_tags (html link : bytes) :
  link ∈ extractImageLinks html → ∃ tag, ImgTag tag link.
Proof.
  unfold extractImageLinks, FindAllStringSubmatch.
  intros ([tag cap] & -> & Hin)%list_elem_of_fmap.
  apply findAll_sound in Hin. simpl in *.
  apply imgRe_sound in Hin as (l & -> & Htag). eauto.
Qed.

Lemma extractImageLinks_QuoteFree (html : bytes) :
  Forall QuoteFree (extractImageLinks html).
Proof.
  apply Forall_forall. intros link [tag Htag]%extractImageLinks_tags.
  destruct Htag. split; [done|]. by apply notQuote_quote_free.
Qed.

Lemma addLinks_spec (links : list bytes) (set : gset bytes) :
  addLinks links set = list_to_set links ∪ set.
Proof.
  unfold addLinks. revert set. induction links as [|l links IH]; intros set; simpl.
  - by rewrite (left_id_L ∅ (∪)).
  - by rewrite IH, (assoc_L (∪)), (comm_L (∪) (list_to_set links)).
Qed.

Lemma collectLinks_spec (iUk iRu : nat) (rows : list (list bytes)) :
  ∀ set set', collectLinks iUk iRu rows set = Some set' →
              set' = set ∪ list_to_set (harvested iUk iRu rows).
Proof.
  unfold harvested.
  induction rows as [|row rows IH]; intros set set'; simpl.
  - intros [= <-]. by rewrite (right_id_L ∅ (∪)).
  - destruct (row !! iUk) as [bodyUk|]; [|done].
    destruct (row !! iRu) as [bodyRu|]; [|done]. simpl.
    intros ->%IH. rewrite !addLinks_spec, !list_to_set_app_L.
    apply set_eq. intros x. rewrite !elem_of_union. tauto.
Qed.

Lemma collectLinks_total (iUk iRu : nat) (rows : list (list bytes)) :
  Forall (λ row : list bytes, (iUk < length row)%nat ∧ (iRu < length row)%nat) rows →
  ∀ set, is_Some (collectLinks iUk iRu rows set).
Proof.
  induction 1 as [|row rows [Huk Hru] _ IH]; intros set; simpl; [done|].
  apply lookup_lt_is_Some_2 in Huk as [bodyUk ->].
  apply lookup_lt_is_Some_2 in Hru as [bodyRu ->]. apply IH.
Qed.

Lemma harvested_QuoteFree (iUk iRu : nat) (rows : list (list bytes)) :
  Forall QuoteFree (harvested iUk iRu rows).
Proof.
  unfold harvested. apply Forall_concat, Forall_fmap, Forall_forall. intros row _. simpl.
  apply Forall_app. split; apply extractImageLinks_QuoteFree.
Qed.

Section DownloadFacts.
Context `{Unicode} (E : Env).

Lemma downloadAll_dom (hostname imagedir : bytes) (total : nat) (links : list bytes) :
  ∀ m0 n0 w link,
    link ∈ dom (downloadAll E hostname imagedir total links m0 n0 w).1.1 →
    link ∈ dom m0 ∨ link ∈ links.
Proof.
  induction links as [|l links IH]; intros m0 n0 w link; simpl; [by left|].
  destruct (downloadAndSaveImage E l hostname imagedir w) as [[err|newPath] w'].
  - intros [?|?]%IH; [by left | right; by right].
  - intros [Hd|?]%IH; [|right; by right].
    rewrite dom_insert_L in Hd. apply elem_of_union in Hd as [->%elem_of_singleton|?].
    + right. by left.
    + by left.
Qed.
End DownloadFacts.

(** C10. Every string [extractImageLinks] returns is non-empty and has
    neither quote character; so has every member of the reference set
    that [processRecords] collects and every key of the map its download
    phase builds. *)
Theorem extracted_references_quote_free `{Unicode} (E : Env) :
  (∀ html, Forall QuoteFree (extractImageLinks html)) ∧
  (∀ iUk iRu rows set, collectLinks iUk iRu rows ∅ = Some set →
     set_Forall QuoteFree set) ∧
  (∀ iUk iRu rows set hostname imagedir total w,
     collectLinks iUk iRu rows ∅ = Some set →
     set_Forall QuoteFree
       (dom (downloadAll E hostname imagedir total (mapOrder E set) ∅ 0%nat w).1.1)).
Proof.
  assert (Hset : ∀ iUk iRu rows set, collectLinks iUk iRu rows ∅ = Some set →
                                     set_Forall QuoteFree set).
  { intros iUk iRu rows set ->%collectLinks_spec link Hin.
    rewrite elem_of_union, elem_of_list_to_set in Hin.
    destruct Hin as [Hin|Hin]; [by apply not_elem_of_empty in Hin|].
    eapply Forall_forall in Hin; [done | apply harvested_QuoteFree]. }
  split_and!; [apply extractImageLinks_QuoteFree | done |].
  intros iUk iRu rows set hostname imagedir total w Hc link Hin.
  apply downloadAll_dom in Hin as [Hin|Hin]; [by rewrite dom_empty_L in Hin|].
  rewrite (mapOrder_perm E set), elem_of_elements in Hin. by eapply Hset.
Qed.

(** ** C9: the reference set *)

Lemma length_remove_dups_le {A} `{EqDecision A} (l : list A) :
  (length (remove_dups l) ≤ length l)%nat.
Proof.
  induction l as [|x l IH]; simpl; [done|].
  destruct (decide_rel elem_of x l); simpl; lia.
Qed.

Lemma collectLinks_None (iUk iRu : nat) (rows : list (list bytes)) :
  ∀ set, collectLinks iUk iRu rows set = None →
    Exists (λ row : list bytes, (length row ≤ iUk)%nat ∨ (length row ≤ iRu)%nat) rows.
Proof.
  induction rows as [|row rows IH]; intros set; simpl; [done|].
  destruct (row !! iUk) as [bodyUk|] eqn:Huk;
    [|intros _; apply Exists_cons_hd; left; by apply lookup_ge_None].
  destruct (row !! iRu) as [bodyRu|] eqn:Hru;
    [|intros _; apply Exists_cons_hd; right; by apply lookup_ge_None].
  intros Hc. apply Exists_cons_tl. by eapply IH.
Qed.

(** C9. For every table, either the collection stops at a row too
    short for one of the two columns (the index panic), or it yields a
    set, and the slice made from it holds each harvested literal exactly
    once: it has no repeats, its members are the harvested literals, its
    length is the number of distinct literals, which is at most the
    number of raw occurrences. *)
Theorem reference_set_distinct (E : Env) (iUk iRu : nat) (rows : list (list bytes)) :
  match collectLinks iUk iRu rows ∅ with
  | Some imageLinkSet =>
      let allImageLinks := mapOrder E imageLinkSet in
      let raw := harvested iUk iRu rows in
      NoDup allImageLinks ∧
      (∀ link, link ∈ allImageLinks ↔ link ∈ raw) ∧
      (∀ link, link ∈ imageLinkSet ↔ link ∈ raw) ∧
      size imageLinkSet = length (remove_dups raw) ∧
      length allImageLinks = size imageLinkSet ∧
      (size imageLinkSet ≤ length raw)%nat
  | None =>
      Exists (λ row : list bytes, (length row ≤ iUk)%nat ∨ (length row ≤ iRu)%nat) rows
  end.
Proof.
  destruct (collectLinks iUk iRu rows ∅) as [set|] eqn:Hc.
  - simpl. apply collectLinks_spec in Hc. rewrite (left_id_L ∅ (∪)) in Hc.
    assert (Hsize : size set = length (remove_dups (harvested iUk iRu rows))).
    { rewrite <- (size_list_to_set (C:=gset bytes)) by apply NoDup_remove_dups.
      subst set. f_equal. apply set_eq. intros x.
      by rewrite !elem_of_list_to_set, elem_of_remove_dups. }
    assert (Hmem : ∀ link, link ∈ set ↔ link ∈ harvested iUk iRu rows).
    { intros link. subst set. apply elem_of_list_to_set. }
    split_and!.
    + rewrite (mapOrder_perm E set). apply NoDup_elements.
    + intros link. by rewrite (mapOrder_perm E set), elem_of_elements.
    + done.
    + done.
    + by rewrite (mapOrder_perm E set).
    + rewrite Hsize. apply length_remove_dups_le.
  - by eapply collectLinks_None.
Qed.

(** Four occurrences, two distinct literals. *)
Example reference_set_of_four_occurrences :
  let rows := [[str "<img src='/a.jpg'><img alt='again' src='/a.jpg'>"; str "<img src='/b.png'>"];
               [str "<img src='/a.jpg'>"; []]] in
  harvested 0 1 rows = [str "/a.jpg"; str "/a.jpg"; str "/b.png"; str "/a.jpg"] ∧
  (size <$> collectLinks 0 1 rows ∅) = Some 2%nat.
Proof. vm_compute. done. Qed.

(** ** Rewriting: what [ReplaceAllStringFunc] touches *)

Lemma matchHere_le (r : Regexp) (s : bytes) (n : nat) (cap : option bytes) :
  matchHere r s = Some (n, cap) → (n ≤ length s)%nat.
Proof.
  unfold matchHere. intros Hr.
  apply run_sound in Hr as (w & s' & cap' & -> & _ & [= <- <-]).
  rewrite length_app. lia.
Qed.

(** The text is the concatenation of its segments, from any offset. *)
Lemma segments_concat (r : Regexp) (s : bytes) :
  ∀ skip, concat (map segmentBytes (segments r skip s)) = drop skip s.
Proof.
  induction s as [|c s IH]; intros skip; simpl.
  - destruct skip; [|done].
    destruct (matchHere r []) as [[[|n] cap]|] eqn:Hm; simpl; [done| |done].
    apply matchHere_le in Hm. simpl in Hm. lia.
  - destruct skip; [|apply IH].
    destruct (matchHere r (c :: s)) as [[[|n] cap]|] eqn:Hm; simpl.
    + by rewrite IH.
    + rewrite IH. by rewrite take_drop.
    + by rewrite IH.
Qed.

(** The rewritten text is the concatenation of the rewritten segments. *)
Lemma replaceAll_segments (r : Regexp) (repl : bytes → bytes) (s : bytes) :
  ∀ skip, replaceAll r repl skip s = concat (map (rewriteSegment repl) (segments r skip s)).
Proof.
  induction s as [|c s IH]; intros skip; simpl.
  - destruct skip; [|done].
    by destruct (matchHere r []) as [[[|n] cap]|]; simpl; rewrite ?app_nil_r.
  - destruct skip; [|apply IH].
    by destruct (matchHere r (c :: s)) as [[[|n] cap]|]; simpl; rewrite IH.
Qed.

(** The matched segments are the matches of [FindAllStringSubmatch]. *)
Lemma segments_matches (r : Regexp) (s : bytes) :
  ∀ skip t, Matched t ∈ segments r skip s ↔ t ∈ map fst (findAll r skip s).
Proof.
  induction s as [|c s IH]; intros skip t; simpl.
  - destruct skip; [|split; intros []%elem_of_nil].
    destruct (matchHere r []) as [[[|n] cap]|]; simpl;
      rewrite ?elem_of_cons, ?elem_of_nil; naive_solver.
  - destruct skip; [|apply IH].
    destruct (matchHere r (c :: s)) as [[[|n] cap]|]; simpl;
      rewrite ?elem_of_cons, ?Nat.sub_0_r, ?IH; naive_solver.
Qed.

(** A replacement that fixes every match fixes the text. *)
Lemma replaceAll_fixed (r : Regexp) (repl : bytes → bytes) (s : bytes) :
  Forall (λ t, repl t = t) (map fst (findAll r 0 s)) →
  replaceAll r repl 0 s = s.
Proof.
  intros Hfix. rewrite replaceAll_segments.
  rewrite <- (segments_concat r s 0) at 2. simpl. f_equal.
  apply map_ext_in. intros [c|t] Hin; simpl; [done|].
  apply list_elem_of_In, segments_matches in Hin.
  by eapply Forall_forall in Hfix.
Qed.

Lemma replaceTag_srcOf (m : gmap bytes bytes) (tag : bytes) :
  replaceTag m tag =
    match srcOf tag with
    | Some link =>
        match m !! link with
        | Some newPath => strings.Replace1 tag link newPath
        | None => tag
        end
    | None => tag
    end.
Proof. unfold replaceTag, srcOf. by destruct (FindStringSubmatch srcRe tag) as [[? ?]|]. Qed.

(** A tag whose link has no entry in the map is returned as it is. *)
Lemma replaceTag_miss (m : gmap bytes bytes) (tag link : bytes) :
  srcOf tag = Some link → m !! link = None → replaceTag m tag = tag.
Proof. intros Hs Hm. by rewrite replaceTag_srcOf, Hs, Hm. Qed.

Lemma replaceTag_no_src (m : gmap bytes bytes) (tag : bytes) :
  srcOf tag = None → replaceTag m tag = tag.
Proof. intros Hs. by rewrite replaceTag_srcOf, Hs. Qed.

(** A text with no [<img>] tag is returned unchanged. *)
Lemma replaceImageLinks_no_tags (html : bytes) (m : gmap bytes bytes) :
  tagsOf html = [] → replaceImageLinks html m = html.
Proof.
  unfold tagsOf, replaceImageLinks, ReplaceAllStringFunc, FindAllStringSubmatch.
  intros Hno. apply replaceAll_fixed. by rewrite Hno.
Qed.

(** The rewritten text, segment by segment: bytes outside the tags are
    copied, each tag goes through [replaceTag]. *)
Lemma replaceImageLinks_segments (html : bytes) (m : gmap bytes bytes) :
  html = concat (map segmentBytes (segments imgRe 0 html)) ∧
  replaceImageLinks html m =
    concat (map (rewriteSegment (replaceTag m)) (segments imgRe 0 html)).
Proof.
  split.
  - by rewrite segments_concat.
  - apply replaceAll_segments.
Qed.

(** ** C2: rewriting twice *)

(** C2, as stated, fails: when a mapped path is itself a key of the map,
    the second pass rewrites the tag again. *)
Lemma replaceImageLinks_twice_differs :
  let m : gmap bytes bytes :=
    {[ str "/x.jpg" := str "/y.jpg"; str "/y.jpg" := str "/z.jpg" ]} in
  let html := str "<img src='/x.jpg'>" in
  replaceImageLinks html m = str "<img src='/y.jpg'>" ∧
  replaceImageLinks (replaceImageLinks html m) m = str "<img src='/z.jpg'>" ∧
  replaceImageLinks (replaceImageLinks html m) m ≠ replaceImageLinks html m.
Proof. vm_compute. split_and!; [reflexivity | reflexivity | discriminate]. Qed.

(** C2, amended. A second pass with the same map changes nothing when no
    tag of the once-rewritten text has a link that is a key of the map. *)
Theorem replaceImageLinks_idempotent_settled (html : bytes) (m : gmap bytes bytes) :
  Forall (λ tag, ∀ link, srcOf tag = Some link → m !! link = None)
         (tagsOf (replaceImageLinks html m)) →
  replaceImageLinks (replaceImageLinks html m) m = replaceImageLinks html m.
Proof.
  intros Hsettled. unfold replaceImageLinks at 1. apply replaceAll_fixed.
  eapply Forall_impl; [exact Hsettled|]. intros tag Htag. simpl in Htag.
  destruct (srcOf tag) as [link|] eqn:Hsrc.
  - apply (replaceTag_miss m tag link); [done | by apply Htag].
  - by apply replaceTag_no_src.
Qed.

Lemma replaceImageLinks_idempotent_settled_witness :
  let m : gmap bytes bytes := {[ str "/a.jpg" := str "/u/cf3a--a.jpg" ]} in
  let html := str "<p><img alt='x' src='/a.jpg'> and <img src='/b.png'></p>" in
  replaceImageLinks html m = str "<p><img alt='x' src='/u/cf3a--a.jpg'> and <img src='/b.png'></p>" ∧
  replaceImageLinks (replaceImageLinks html m) m = replaceImageLinks html m.
Proof.
  split; [vm_compute; reflexivity|].
  apply replaceImageLinks_idempotent_settled.
  vm_compute. repeat constructor; intros link [= <-]; reflexivity.
Defined.

(** ** C3: what rewriting changes *)

(** C3 fails on the code: the callback replaces the first occurrence of
    the link text in the tag, which need not be the [src] value.  Here
    the [title] is rewritten and the [src] is left. *)
Theorem replaceImageLinks_hits_other_attribute :
  replaceImageLinks (str "<img title='photo.jpg' src='photo.jpg'>")
                    {[ str "photo.jpg" := str "/u/30ad--photo.jpg" ]}
  = str "<img title='/u/30ad--photo.jpg' src='photo.jpg'>".
Proof. vm_compute. reflexivity. Qed.

(** ** C7: schema validation *)

Lemma fold_insert_lookup_None (l : list (nat * bytes)) :
  ∀ (m0 : gmap bytes nat) (k : bytes),
    fold_left (λ m ih, <[ih.2 := ih.1]> m) l m0 !! k = None ↔
    m0 !! k = None ∧ k ∉ l.*2.
Proof.
  induction l as [|[i h] l IH]; intros m0 k; simpl.
  - rewrite elem_of_nil. naive_solver.
  - rewrite IH, not_elem_of_cons, lookup_insert_None. naive_solver.
Qed.

Lemma headerMapOf_None (headers : list bytes) (k : bytes) :
  headerMapOf headers !! k = None ↔ k ∉ headers.
Proof.
  assert (Hsnd : (imap pair headers).*2 = headers).
  { rewrite fmap_imap. etrans; [apply (imap_const id) | apply list_fmap_id]. }
  unfold headerMapOf. rewrite fold_insert_lookup_None, lookup_empty, Hsnd. naive_solver.
Qed.

(** C7. With fewer than two rows, or a header row without [body_uk] or
    without [body_ru], [processRecords] returns an error and nothing has
    happened: the world (files, requests, progress values, output file)
    and the rows are as they were. *)
Theorem schema_error_no_effects `{Unicode} (E : Env) (records : list (list bytes))
        (hostname imagedir outputFileName selectedSeparator : bytes) (w : World) :
  (length records < 2)%nat ∨
  str "body_uk" ∉ default [] (head records) ∨
  str "body_ru" ∉ default [] (head records) →
  ∃ err,
    processRecords E records hostname imagedir outputFileName selectedSeparator w
      = (err, w, records) ∧
    (err = NoDataInCSV ∨ ∃ col, err = MissingRequiredColumn col).
Proof.
  intros Hbad. unfold processRecords.
  destruct (length records <? 2)%nat eqn:Hlen; [by eauto|].
  apply Nat.ltb_ge in Hlen.
  destruct Hbad as [Hlt | [Huk | Hru]]; [lia | |].
  - apply headerMapOf_None in Huk. rewrite Huk. eauto.
  - apply headerMapOf_None in Hru. rewrite Hru.
    destruct (headerMapOf _ !! str "body_uk"); eauto.
Qed.

Lemma schema_error_no_effects_witness :
  let records := [[str "id"; str "body_uk"]; [str "1"; str "<img src='/a.jpg'>"]] in
  ∃ err,
    processRecords (exampleEnv (λ _, 200)) records (str "https://site.ua") (str "/u/")
                   (str "output.csv") (str "Comma (,)") emptyWorld
      = (err, emptyWorld, records) ∧
    (err = NoDataInCSV ∨ ∃ col, err = MissingRequiredColumn col).
Proof.
  apply (schema_error_no_effects (exampleEnv (λ _, 200))).
  right. right. vm_compute. intros Hin.
  repeat (apply elem_of_cons in Hin as [Heq|Hin]; [discriminate Heq|]).
  by apply elem_of_nil in Hin.
Defined.

(** ** C8: progress values *)

(** C8 fails on the code: [totalSteps] counts the images only, while
    the row rewrites go on incrementing [stepsCompleted].  One row with
    one image, fetched with success: the values set are 0, 1/1 and 2/1. *)
Theorem progress_exceeds_one :
  let records := [[str "body_uk"; str "body_ru"]; [str "<img src='/a.jpg'>"; []]] in
  let w := (processRecords (exampleEnv (λ _, 200)) records (str "https://site.ua")
                           (str "/u/") (str "output.csv") (str "Comma (,)")
                           emptyWorld).1.2 in
  emitted w = [PRatio 2 1; PRatio 1 1; PZero] ∧ ¬ InUnitInterval (PRatio 2 1).
Proof. split; [vm_compute; reflexivity | simpl; lia]. Qed.

(** ** Bytes and runes *)

Lemma byteZ_range (c : ascii) : 0 <= byteZ c < 256.
Proof. unfold byteZ. pose proof (N_ascii_bounded c). lia. Qed.

Lemma Zbyte_byteZ (c : ascii) : Zbyte (byteZ c) = c.
Proof. unfold Zbyte, byteZ. by rewrite N2Z.id, ascii_N_embedding. Qed.

Lemma byteZ_Zbyte (z : Z) : 0 <= z < 256 → byteZ (Zbyte z) = z.
Proof.
  intros Hz. unfold Zbyte, byteZ. rewrite N_ascii_embedding by lia. lia.
Qed.

Lemma EncodeRune_ascii (c : ascii) : isASCII c = true → utf8.EncodeRune (byteZ c) = [c].
Proof.
  unfold isASCII, utf8.EncodeRune. intros Hc%Z.ltb_lt.
  pose proof (byteZ_range c).
  destruct (Z.leb_spec 0 (byteZ c)); [|lia].
  destruct (Z.ltb_spec (byteZ c) 128); [|lia]. simpl. by rewrite Zbyte_byteZ.
Qed.

Lemma DecodeRune_ascii (c : ascii) (s : bytes) :
  isASCII c = true → utf8.DecodeRune (c :: s) = (byteZ c, 1%nat).
Proof.
  unfold isASCII, utf8.DecodeRune. intros Hc. cbn [map]. by rewrite Hc.
Qed.

Lemma runes_cons_ascii (c : ascii) (s : bytes) :
  isASCII c = true → utf8.runes (c :: s) = byteZ c :: utf8.runes s.
Proof.
  intros Hc. unfold utf8.runes. cbn [utf8.runesFrom]. by rewrite DecodeRune_ascii.
Qed.

Lemma runes_ascii (s : bytes) :
  forallb isASCII s = true → utf8.runes s = map byteZ s.
Proof.
  induction s as [|c s IH]; [done|]. cbn [forallb map].
  intros [Hc Hs]%andb_true_iff. by rewrite runes_cons_ascii, IH.
Qed.

(** ** The steps of [transliterate] *)

Lemma matchHere_Class (p : ascii → bool) (s : bytes) :
  matchHere (Class p) s =
    match s with
    | c :: _ => if p c then Some (1%nat, None) else None
    | [] => None
    end.
Proof.
  unfold matchHere. destruct s as [|c s]; [done|]. simpl. destruct (p c); [|done].
  do 2 f_equal. lia.
Qed.

Lemma ReplaceAllString_Class_empty (p : ascii → bool) (s : bytes) :
  ReplaceAllString (Class p) s [] = List.filter (λ c, negb (p c)) s.
Proof.
  unfold ReplaceAllString. induction s as [|c s IH]; cbn [replaceAll List.filter].
  - by rewrite matchHere_Class.
  - rewrite matchHere_Class. destruct (p c); simpl; by rewrite IH.
Qed.

Lemma keepStep3_ascii (c : ascii) : keepStep3 c = true → isASCII c = true.
Proof.
  unfold keepStep3, isASCII, isUpperASCII, isLowerASCII, isDigitASCII.
  intros Hk. apply Z.ltb_lt. lia.
Qed.

Lemma wordDash_ascii (c : ascii) : negb (notWordDash c) = true → isASCII c = true.
Proof.
  unfold notWordDash, isWord, isASCII, isUpperASCII, isLowerASCII, isDigitASCII.
  rewrite negb_involutive. intros Hk. apply Z.ltb_lt.
  apply orb_true_iff in Hk as [Hk | ->%Ascii.eqb_eq]; [lia | by vm_compute].
Qed.

Lemma forallb_filter_implied {A} (p q : A → bool) (l : list A) :
  (∀ x, p x = true → q x = true) → forallb q (List.filter p l) = true.
Proof.
  intros Hpq. apply forallb_forall. intros x [_ Hp]%filter_In. by apply Hpq.
Qed.

Section Steps.
Context `{Unicode}.

Lemma step3_mapping (c : ascii) :
  isASCII c = true →
  (let r := byteZ c in
   let r' := if (r =? 45) || IsLetter r || IsDigit r then r else -1 in
   if r' <? 0 then [] else utf8.EncodeRune r')
  = if keepStep3 c then [c] else [].
Proof.
  intros Hc. pose proof (byteZ_range c). cbv zeta.
  assert (0 <= byteZ c < 128) as Hr by (unfold isASCII in Hc; lia).
  rewrite (IsLetter_ascii _ Hr), (IsDigit_ascii _ Hr).
  unfold keepStep3. rewrite <- orb_assoc.
  destruct ((byteZ c =? 45) || ((isUpperASCII (byteZ c) || isLowerASCII (byteZ c))
                                || isDigitASCII (byteZ c))).
  - destruct (Z.ltb_spec (byteZ c) 0); [lia|]. by apply EncodeRune_ascii.
  - done.
Qed.

Lemma Map_step3_ascii (s : bytes) :
  forallb isASCII s = true →
  strings.Map (λ r, if (r =? 45) || IsLetter r || IsDigit r then r else -1) s
  = List.filter keepStep3 s.
Proof.
  intros Hs. unfold strings.Map. rewrite (runes_ascii _ Hs), map_map.
  induction s as [|c s IH]; [done|].
  cbn [forallb] in Hs. apply andb_true_iff in Hs as [Hc Hs].
  cbn [map concat List.filter]. rewrite (IH Hs).
  pose proof (step3_mapping c Hc) as Hm. cbv beta zeta in Hm |- *. rewrite Hm.
  by destruct (keepStep3 c).
Qed.

Lemma ToLower_ascii (s : bytes) :
  forallb isASCII s = true → strings.ToLower s = map lowerByte s.
Proof.
  intros Hs. unfold strings.ToLower. fold isASCII.
  replace (forallb (λ c, byteZ c <? 128) s) with (forallb isASCII s) by done.
  by rewrite Hs.
Qed.

(** [transliterate] is [cleaned] after [latinized]. *)
Lemma transliterate_cleaned (filename : bytes) :
  transliterate filename = cleaned (latinized filename).
Proof.
  unfold transliterate, cleaned, latinized. cbv zeta.
  rewrite ReplaceAllString_Class_empty.
  rewrite Map_step3_ascii by (apply forallb_filter_implied, wordDash_ascii).
  rewrite ToLower_ascii by (apply forallb_filter_implied, keepStep3_ascii).
  done.
Qed.

End Steps.

(** ** C1: the synthesized filename *)

Lemma cyrillicToLatin_not_ascii (z : Z) : z < 128 → cyrillicToLatin !! z = None.
Proof.
  intros Hz. unfold cyrillicToLatin. apply not_elem_of_list_to_map_1.
  intros ([k v] & -> & Hin)%list_elem_of_fmap. simpl in Hz.
  repeat (apply elem_of_cons in Hin as [[= -> _]|Hin]; [lia|]).
  by apply elem_of_nil in Hin.
Qed.

Lemma isSafeByte_cases (c : ascii) :
  isSafeByte c = true →
  isASCII c = true ∧ c ≠ Zbyte 32 ∧ negb (notWordDash c) = true ∧ keepStep3 c = true
  ∧ lowerByte c = c.
Proof.
  unfold isSafeByte, isLowerAlnum. intros Hc.
  assert (c ≠ Zbyte 32) as Hsp.
  { intros ->. by vm_compute in Hc. }
  apply orb_true_iff in Hc as [Hc | ->%Ascii.eqb_eq]; [|by vm_compute].
  unfold isASCII, notWordDash, isWord, keepStep3, lowerByte,
    isLowerASCII, isDigitASCII, isUpperASCII in *.
  rewrite negb_involutive.
  split_and!; [lia | done | | lia |].
  - apply orb_true_iff. left. lia.
  - destruct ((65 <=? byteZ c) && (byteZ c <=? 90)) eqn:Hu; [lia | done].
Qed.

Lemma isLowerHex_safe (c : ascii) : isLowerHex c = true → isSafeByte c = true.
Proof.
  unfold isLowerHex, isSafeByte, isLowerAlnum, isLowerASCII, isDigitASCII.
  intros Hc. apply orb_true_iff. left. lia.
Qed.

Lemma latinized_cons_safe (c : ascii) (s : bytes) :
  isSafeByte c = true → latinized (c :: s) = c :: latinized s.
Proof.
  intros (Hascii & Hsp & _)%isSafeByte_cases. unfold latinized, strings.ReplaceAllByte.
  rewrite (runes_cons_ascii _ _ Hascii). cbn [map concat].
  rewrite cyrillicToLatin_not_ascii by (unfold isASCII in Hascii; lia).
  rewrite (EncodeRune_ascii _ Hascii). cbn [app map concat].
  by destruct (decide (c = Zbyte 32)).
Qed.

Lemma cleaned_cons_safe (c : ascii) (s : bytes) :
  isSafeByte c = true → cleaned (c :: s) = c :: cleaned s.
Proof.
  intros (_ & _ & Hw & Hk & Hl)%isSafeByte_cases. unfold cleaned.
  cbn [List.filter]. rewrite Hw. cbn [List.filter]. rewrite Hk. cbn [map]. by rewrite Hl.
Qed.

Lemma lowerByte_safe (c : ascii) : keepStep3 c = true → isSafeByte (lowerByte c) = true.
Proof.
  unfold keepStep3, lowerByte, isSafeByte, isLowerAlnum, isUpperASCII, isLowerASCII,
    isDigitASCII.
  intros Hk. pose proof (byteZ_range c).
  destruct ((65 <=? byteZ c) && (byteZ c <=? 90)) eqn:Hu.
  - rewrite byteZ_Zbyte by lia. apply orb_true_iff. left. lia.
  - destruct (decide (byteZ c = 45)) as [H45|H45].
    + rewrite <- (Zbyte_byteZ c), H45. by vm_compute.
    + apply orb_true_iff. left. lia.
Qed.

Lemma cleaned_safe (s : bytes) : forallb isSafeByte (cleaned s) = true.
Proof.
  unfold cleaned. apply forallb_forall.
  intros x (c & <- & [_ Hk]%filter_In)%in_map_iff. by apply lowerByte_safe.
Qed.

Section Filename.
Context `{Unicode}.

(** Every byte of the result of [transliterate] is in [a-z0-9-]. *)
Lemma transliterate_safe (filename : bytes) :
  forallb isSafeByte (transliterate filename) = true.
Proof. rewrite transliterate_cleaned. apply cleaned_safe. Qed.

(** A leading byte in [a-z0-9-] is kept as it is. *)
Lemma transliterate_cons_safe (c : ascii) (s : bytes) :
  isSafeByte c = true → transliterate (c :: s) = c :: transliterate s.
Proof.
  intros Hc. rewrite !transliterate_cleaned.
  by rewrite latinized_cons_safe, cleaned_cons_safe.
Qed.

Lemma transliterate_app_safe (p s : bytes) :
  forallb isSafeByte p = true → transliterate (p ++ s) = p ++ transliterate s.
Proof.
  induction p as [|c p IH]; [done|]. cbn [forallb app].
  intros [Hc Hp]%andb_true_iff. by rewrite transliterate_cons_safe, IH.
Qed.

End Filename.

Lemma digit_lower_hex (v : Z) : isLowerHex (hex.digit v) = true.
Proof.
  unfold hex.digit. change 15 with (Z.ones 4). rewrite Z.land_ones by lia.
  pose proof (Z.mod_pos_bound v (2 ^ 4) ltac:(lia)) as Hb.
  assert (Z.to_nat (v mod 2 ^ 4) < 16)%nat as Hn by lia.
  destruct (Z.to_nat (v mod 2 ^ 4)) as [|n]; [by vm_compute|].
  do 15 (destruct n as [|n]; [by vm_compute|]). lia.
Qed.

(** The hash token: four lowercase hexadecimal digits. *)
Lemma hash_token (data : bytes) :
  ∃ a b c d, take 4 (hex.EncodeToString (sha1.Sum data)) = [a; b; c; d] ∧
             forallb isLowerHex [a; b; c; d] = true.
Proof.
  unfold sha1.Sum.
  destruct (sha1.blocks _ _ _) as [[[[h0 h1] h2] h3] h4].
  unfold hex.EncodeToString. cbn [sha1.beBytes app map concat take].
  do 4 eexists. split; [reflexivity|].
  cbn [forallb]. by rewrite !digit_lower_hex.
Qed.

Lemma scanExt_shape (revp suffix : bytes) :
  filepath.scanExt revp suffix = [] ∨ ∃ e, filepath.scanExt revp suffix = DOT :: e.
Proof.
  revert suffix. induction revp as [|c r IH]; intros suffix; simpl; [by left|].
  destruct (decide (c = SLASH)); [by left|].
  destruct (decide (c = DOT)) as [->|]; [right; eauto | apply IH].
Qed.

Lemma MatchesSafeName_bytes (s : bytes) :
  MatchesSafeName s → forallb (λ c, isSafeByte c || Ascii.eqb c DOT) s = true.
Proof.
  intros [cap Hs]. unfold safeNameRe in Hs. inv_sem.
  rewrite !forallb_app. cbn [forallb]. rewrite Ascii.eqb_refl, orb_true_r.
  repeat (apply andb_true_iff; split); try done.
  - apply forallb_forall. intros c Hc. rewrite forallb_forall in H4. by rewrite H4.
  - apply forallb_forall. intros c Hc. rewrite forallb_forall in H2.
    unfold isSafeByte. by rewrite H2.
Qed.

(** C1, as stated, fails: the extension is appended after
    [transliterate] as the URL has it, here in upper case. *)
Lemma synthFilename_upper_extension :
  synthFilename (str "http://x.com/a.JPG") (str "/a.JPG") = str "1f32--a.JPG" ∧
  ¬ MatchesSafeName (synthFilename (str "http://x.com/a.JPG") (str "/a.JPG")).
Proof.
  assert (synthFilename (str "http://x.com/a.JPG") (str "/a.JPG") = str "1f32--a.JPG")
    as Heq by (vm_compute; reflexivity).
  split; [done|]. rewrite Heq. intros Hm%MatchesSafeName_bytes.
  vm_compute in Hm. discriminate Hm.
Qed.

(** C1, amended. The synthesized filename is the four lowercase
    hexadecimal digits of the SHA-1 prefix, a hyphen, a run of bytes of
    [a-z0-9-], and the extension as the last path element has it from
    its last dot on ([.jpg] when it has none); it is never empty, and it
    matches the safe-name pattern whenever that extension is a dot
    followed by one or more of [a-z0-9]. *)
Theorem synthFilename_shape `{Unicode} (imageURL Path : bytes) :
  ∃ hash rest ext,
    synthFilename imageURL Path = hash ++ [DASH] ++ rest ++ [DOT] ++ ext ∧
    hash = take 4 (hex.EncodeToString (sha1.Sum imageURL)) ∧
    length hash = 4%nat ∧
    forallb isLowerHex hash = true ∧
    forallb isSafeByte rest = true ∧
    (let base := hd [] (strings.Split (filepath.Base Path) (Zbyte 63)) in
     DOT :: ext = filepath.Ext base ∨ (filepath.Ext base = [] ∧ ext = str "jpg")) ∧
    synthFilename imageURL Path ≠ [] ∧
    (ext ≠ [] → forallb isLowerAlnum ext = true →
     MatchesSafeName (synthFilename imageURL Path)).
Proof.
  unfold synthFilename. cbv zeta.
  destruct (hash_token imageURL) as (a & b & c & d & Hh & Hhex). rewrite Hh.
  set (base := hd [] (strings.Split (filepath.Base Path) (Zbyte 63))).
  set (uniquePart := if (3 <=? _)%nat then _ else _).
  set (name := strings.TrimSuffix base (filepath.Ext base)).
  change (str "-") with [DASH].
  replace ([a; b; c; d] ++ [DASH] ++ uniquePart ++ [DASH] ++ name)
    with ([a; b; c; d; DASH] ++ (uniquePart ++ [DASH] ++ name)) by done.
  assert (forallb isSafeByte [a; b; c; d; DASH] = true) as Hpre.
  { cbn [forallb] in Hhex |- *.
    repeat (apply andb_true_iff in Hhex as [?%isLowerHex_safe Hhex]).
    by repeat (apply andb_true_iff; split). }
  rewrite (transliterate_app_safe _ _ Hpre).
  set (rest := transliterate (uniquePart ++ [DASH] ++ name)).
  assert (∃ ext, (match filepath.Ext base with [] => str ".jpg" | _ => filepath.Ext base end)
                 = DOT :: ext ∧
                 (DOT :: ext = filepath.Ext base ∨ (filepath.Ext base = [] ∧ ext = str "jpg")))
    as (ext & -> & Hext).
  { destruct (scanExt_shape (rev base) []) as [He | [e He]];
      unfold filepath.Ext; rewrite He; [exists (str "jpg") | exists e]; split; auto. }
  exists [a; b; c; d], rest, ext.
  split_and!; [done | done | done | done | apply transliterate_safe | done | done |].
  intros Hne Halnum. exists None. unfold safeNameRe.
  replace ([a; b; c; d; DASH] ++ rest ++ DOT :: ext)
    with (([a; b; c; d; DASH] ++ rest) ++ ([DOT] ++ ext)) by by rewrite <- app_assoc.
  apply (SemCat _ _ ([a; b; c; d; DASH] ++ rest) ([DOT] ++ ext) None None None).
  - constructor; [done|]. rewrite forallb_app, Hpre. apply transliterate_safe.
  - apply (SemCat _ _ [DOT] ext None None None); by constructor.
Qed.

(** ** The phases of [processRecords] *)

Section PhaseFacts.
Context `{Unicode} (E : Env).

Lemma downloadTrace_links (hostname imagedir : bytes) (total : nat) (links : list bytes) :
  ∀ n w, (downloadTrace E hostname imagedir total links n w).*1 = links.
Proof.
  induction links as [|l links IH]; intros n w; simpl; [done|].
  destruct (downloadAndSaveImage E l hostname imagedir w) as [[err|newPath] w'];
    simpl; by rewrite IH.
Qed.

(** The map after the download phase, read off the trace. *)
Lemma downloadAll_trace (hostname imagedir : bytes) (total : nat) (links : list bytes) :
  NoDup links →
  ∀ m0 n w,
    let m := (downloadAll E hostname imagedir total links m0 n w).1.1 in
    let trace := downloadTrace E hostname imagedir total links n w in
    (∀ link newPath, (link, inr newPath) ∈ trace → m !! link = Some newPath) ∧
    (∀ link err, (link, inl err) ∈ trace → m !! link = m0 !! link) ∧
    (∀ link, link ∉ links → m !! link = m0 !! link).
Proof.
  induction 1 as [|l links Hl Hnd IH]; intros m0 n w; simpl.
  { split_and!; [by intros ? ? ?%elem_of_nil | by intros ? ? ?%elem_of_nil | done]. }
  destruct (downloadAndSaveImage E l hostname imagedir w) as [[err|newPath] w'].
  - destruct (IH m0 n w') as (Hok & Herr & Hout).
    split_and!.
    + intros link p [[=]|Hin]%elem_of_cons. by apply Hok.
    + intros link e [[= -> _]|Hin]%elem_of_cons; [by apply Hout | by eapply Herr].
    + intros link [? ?]%not_elem_of_cons. by apply Hout.
  - destruct (IH (<[l:=newPath]> m0) (S n) (emit (PRatio (S n) total) w'))
      as (Hok & Herr & Hout).
    assert (∀ link x, (link, x) ∈ downloadTrace E hostname imagedir total links (S n)
                                     (emit (PRatio (S n) total) w') → link ≠ l) as Hne.
    { intros link x Hin ->. apply Hl. rewrite <- (downloadTrace_links hostname imagedir
        total links (S n) (emit (PRatio (S n) total) w')).
      apply list_elem_of_fmap. by exists (l, x). }
    split_and!.
    + intros link p [[= -> ->]|Hin]%elem_of_cons.
      * rewrite (Hout _ Hl). apply lookup_insert_eq.
      * by apply Hok.
    + intros link e [[=]|Hin]%elem_of_cons.
      rewrite (Herr _ _ Hin). apply lookup_insert_ne. intros <-. by eapply Hne.
    + intros link [? ?]%not_elem_of_cons. rewrite (Hout _ H1). by apply lookup_insert_ne.
Qed.

Lemma rewriteRows_total (iUk iRu : nat) (m : gmap bytes bytes) (total : nat)
      (rows : list (list bytes)) :
  Forall (λ row : list bytes, (iUk < length row)%nat ∧ (iRu < length row)%nat) rows →
  ∀ n w, ∃ w',
    rewriteRows iUk iRu m total rows n w
      = Some (map (rewriteRow iUk iRu m) rows, (n + length rows)%nat, w') ∧
    present w' = present w ∧ requests w' = requests w ∧ written w' = written w.
Proof.
  induction 1 as [|row rows [Huk Hru] _ IH]; intros n w; simpl.
  { exists w. by rewrite Nat.add_0_r. }
  apply lookup_lt_is_Some_2 in Huk as [bodyUk Huk].
  apply lookup_lt_is_Some_2 in Hru as [bodyRu Hru].
  rewrite Huk, Hru.
  destruct (IH (S n) (emit (PRatio (S n) total) w)) as (w' & -> & Hp & Hr & Hw).
  exists w'. split; [|done].
  unfold rewriteRow. rewrite Huk, Hru. simpl. do 3 f_equal. lia.
Qed.

Lemma writeRecords_frame (name : bytes) (comma : Z) (records : list (list bytes)) :
  ∀ sofar w, requests (writeRecords E name comma records sofar w).2 = requests w.
Proof.
  induction records as [|r records IH]; intros sofar w; simpl; [done|].
  destruct (writer_Write E w r); [|done]. by rewrite IH.
Qed.

Lemma writeCSV_frame (records : list (list bytes)) (name sep : bytes) (w : World) :
  requests (writeCSV E records name sep w).2 = requests w.
Proof.
  unfold writeCSV. destruct (os_Create E w name); simpl; [|done].
  by rewrite writeRecords_frame.
Qed.

(** With a valid header and rows that reach both columns, the run
    collects, downloads, rewrites every row with the map and goes on
    to [writeCSV]. *)
Lemma processRecords_run (records : list (list bytes))
      (hostname imagedir outputFileName selectedSeparator : bytes) (w : World)
      (iUk iRu : nat) :
  (2 ≤ length records)%nat →
  headerMapOf (default [] (head records)) !! str "body_uk" = Some iUk →
  headerMapOf (default [] (head records)) !! str "body_ru" = Some iRu →
  Forall (λ row : list bytes, (iUk < length row)%nat ∧ (iRu < length row)%nat)
         (tail records) →
  ∃ imageLinkSet w1,
    let allImageLinks := mapOrder E imageLinkSet in
    let d := downloadAll E hostname imagedir (length allImageLinks) allImageLinks ∅ 0%nat
                         (emit PZero w) in
    let output := default [] (head records)
                    :: map (rewriteRow iUk iRu d.1.1) (tail records) in
    collectLinks iUk iRu (tail records) ∅ = Some imageLinkSet ∧
    present w1 = present d.2 ∧ requests w1 = requests d.2 ∧ written w1 = written d.2 ∧
    processRecords E records hostname imagedir outputFileName selectedSeparator w
      = ((writeCSV E output outputFileName selectedSeparator w1).1,
         (writeCSV E output outputFileName selectedSeparator w1).2,
         output).
Proof.
  intros Hlen Huk Hru Hrows.
  destruct (collectLinks_total _ _ _ Hrows ∅) as [set Hc].
  unfold processRecords.
  destruct (Nat.ltb_spec (length records) 2); [lia|].
  rewrite Huk, Hru, Hc.
  destruct (downloadAll E hostname imagedir (length (mapOrder E set)) (mapOrder E set) ∅
                        0%nat (emit PZero w)) as [[m steps] w0] eqn:Hd.
  destruct (rewriteRows_total iUk iRu m (length (mapOrder E set)) _ Hrows steps w0)
    as (w1 & Hrw & Hp & Hr & Hw).
  exists set, w1. cbv zeta. rewrite Hd, Hrw. simpl.
  split_and!; [done | done | done | done |].
  by destruct (writeCSV E _ outputFileName selectedSeparator w1).
Qed.

End PhaseFacts.

(** ** The leftmost [src] match of a tag *)

Lemma loop_stop {A} (p : ascii → bool) (k : bytes → option A) (w : bytes) (c : ascii)
      (rest : bytes) (a : A) :
  forallb p w = true → p c = false → k (c :: rest) = Some a →
  loop p k (w ++ c :: rest) = Some a.
Proof.
  intros Hw Hc Hk. induction w as [|x w IH]; simpl.
  - by rewrite Hc.
  - simpl in Hw. apply andb_true_iff in Hw as [-> Hw]. by rewrite (IH Hw).
Qed.

Lemma isQuote_notQuote (c : ascii) : isQuote c = true → notQuote c = false.
Proof. unfold notQuote. by intros ->. Qed.

(** [srcRe] matches wherever a quoted, non-empty, quote-free value
    follows [src=]. *)
Lemma matchHere_srcRe_complete (q q2 : ascii) (link rest : bytes) :
  isQuote q = true → link ≠ [] → forallb notQuote link = true → isQuote q2 = true →
  matchHere srcRe (str "src=" ++ q :: link ++ q2 :: rest)
  = Some ((6 + length link)%nat, Some link).
Proof.
  intros Hq Hne Hl Hq2. unfold matchHere, srcRe.
  destruct link as [|x link]; [done|].
  cbn [forallb] in Hl. apply andb_true_iff in Hl as [Hx Hl].
  cbn -[loop]. rewrite Hq. cbn -[loop]. rewrite Hx.
  repeat (case_decide; [|done]).
  erewrite loop_stop; [| done | by apply isQuote_notQuote | cbn; rewrite Hq2; reflexivity].
  rewrite !length_app. cbn [length].
  replace (length link + S (length rest) - length rest)%nat with (S (length link)) by lia.
  change (take (S (length link)) (x :: link ++ q2 :: rest))
    with (x :: take (length link) (link ++ q2 :: rest)).
  rewrite take_app_length. do 2 f_equal. lia.
Qed.

(** What a match of [srcRe] looks like. *)
Lemma matchHere_srcRe_sound (s : bytes) (n : nat) (cap : option bytes) :
  matchHere srcRe s = Some (n, cap) →
  ∃ q link q2 rest,
    s = str "src=" ++ q :: link ++ q2 :: rest ∧ cap = Some link ∧
    n = (6 + length link)%nat ∧
    isQuote q = true ∧ link ≠ [] ∧ forallb notQuote link = true ∧ isQuote q2 = true.
Proof.
  intros Hm. apply matchHere_sound in Hm as (rest & Hs & Hn & Hsem).
  unfold srcRe in Hsem. simpl in Hsem.
  remember (take n s) as w eqn:Hw. clear Hw.
  inv_sem.
  match goal with
  | Hq : isQuote ?q = true, Hq2 : isQuote ?q2 = true |- context [[?q] ++ ?link ++ [?q2]] =>
      exists q, link, q2, rest
  end.
  split_and!; try done.
  - simpl. by rewrite <- app_assoc.
  - simpl. rewrite length_app. simpl. lia.
Qed.

(** [FindStringSubmatch] returns a match that starts at or before any
    position where the pattern matches. *)
Lemma FindStringSubmatch_leftmost (r : Regexp) (pre s : bytes) (n : nat)
      (cap : option bytes) :
  matchHere r s = Some (n, cap) →
  ∃ pre1 s1 n1 cap1,
    pre ++ s = pre1 ++ s1 ∧ (length pre1 ≤ length pre)%nat ∧
    matchHere r s1 = Some (n1, cap1) ∧
    FindStringSubmatch r (pre ++ s) = Some (take n1 s1, cap1).
Proof.
  intros Hm. induction pre as [|c pre IH].
  - exists [], s, n, cap. simpl. split_and!; [done | done | done |].
    destruct s; simpl; by rewrite Hm.
  - destruct (matchHere r ((c :: pre) ++ s)) as [[n0 cap0]|] eqn:H0.
    + exists [], ((c :: pre) ++ s), n0, cap0. split_and!; [done | simpl; lia | done |].
      simpl in *. by rewrite H0.
    + destruct IH as (pre1 & s1 & n1 & cap1 & Heq & Hlen & Hm1 & Hf).
      exists (c :: pre1), s1, n1, cap1. split_and!; [by rewrite <- !app_comm_cons, Heq
                                                    | simpl; lia | done |].
      simpl in *. by rewrite H0.
Qed.

Lemma quoted_value_unique (l1 l2 r1 r2 : bytes) (q1 q2 : ascii) :
  forallb notQuote l1 = true → forallb notQuote l2 = true →
  isQuote q1 = true → isQuote q2 = true →
  l1 ++ q1 :: r1 = l2 ++ q2 :: r2 → l1 = l2.
Proof.
  intros H1 H2 Hq1 Hq2. revert l2 H2.
  induction l1 as [|c l1 IH]; intros [|d l2] H2 Heq; simpl in *.
  - done.
  - injection Heq as <- _. apply andb_true_iff in H2 as [H2 _].
    by rewrite (isQuote_notQuote _ Hq1) in H2.
  - injection Heq as -> _. apply andb_true_iff in H1 as [H1 _].
    by rewrite (isQuote_notQuote _ Hq2) in H1.
  - injection Heq as -> Heq.
    apply andb_true_iff in H1 as [_ H1]. apply andb_true_iff in H2 as [_ H2].
    f_equal. by apply IH.
Qed.

(** [strings.Replace] with count 1 leaves everything after an
    occurrence of [old] as it was. *)
Lemma Replace1_unfold (s old new : bytes) :
  strings.Replace1 s old new =
    if strings.HasPrefix s old then new ++ drop (length old) s
    else match s with
         | c :: s' => c :: strings.Replace1 s' old new
         | [] => []
         end.
Proof. by destruct s. Qed.

Lemma Replace1_keeps_rest (u old z new : bytes) :
  ∃ x, strings.Replace1 (u ++ old ++ z) old new = x ++ z.
Proof.
  induction u as [|c u [x IH]].
  - exists new. rewrite Replace1_unfold. cbn [app].
    assert (strings.HasPrefix (old ++ z) old = true) as ->
        by (apply HasPrefix_spec; by exists z).
    by rewrite drop_app_length.
  - rewrite Replace1_unfold.
    destruct (strings.HasPrefix ((c :: u) ++ old ++ z) old) eqn:Hp.
    + exists (new ++ drop (length old) ((c :: u) ++ old)).
      rewrite <- app_assoc. f_equal.
      rewrite (app_assoc (c :: u)), drop_app_le; [done|].
      rewrite length_app. lia.
    + exists (c :: x). cbn [app]. by rewrite IH.
Qed.

(** A quoted [src] value that has no entry in the map, and all that
    follows it in the tag, are left as they were, whichever link the
    callback looks up. *)
Lemma replaceTag_keeps_missing (m : gmap bytes bytes) (pre : bytes) (q1 : ascii)
      (link : bytes) (q2 : ascii) (post : bytes) :
  isQuote q1 = true → link ≠ [] → forallb notQuote link = true → isQuote q2 = true →
  m !! link = None →
  ∃ pre', replaceTag m (pre ++ str "src=" ++ q1 :: link ++ q2 :: post)
          = pre' ++ link ++ q2 :: post.
Proof.
  intros Hq1 Hne Hl Hq2 Hmiss.
  pose proof (matchHere_srcRe_complete q1 q2 link post Hq1 Hne Hl Hq2) as Hhere.
  destruct (FindStringSubmatch_leftmost srcRe pre _ _ _ Hhere)
    as (pre1 & s1 & n1 & cap1 & Heq & Hlen & Hm1 & Hfind).
  apply matchHere_srcRe_sound in Hm1
      as (q & old & q' & rest1 & -> & -> & -> & Hq & Hone & Hold & Hq').
  unfold replaceTag. rewrite Hfind. cbv zeta.
  change (default [] (Some old)) with old.
  destruct (m !! old) as [new|] eqn:Hm.
  2:{ exists (pre ++ str "src=" ++ [q1]). by rewrite <- !app_assoc. }
  assert (old ≠ link) as Hdiff by congruence.
  assert (pre1 = pre → False) as Hsame.
  { intros ->. apply app_inv_head in Heq.
    apply (app_inv_head (str "src=")) in Heq. injection Heq as _ Heq.
    apply Hdiff. symmetry. by apply (quoted_value_unique link old post rest1 q2 q'). }
  assert (∃ k, pre ++ str "src=" = (pre1 ++ str "src=" ++ [q]) ++ old ++ k) as [k Hk].
  { assert ((pre1 ++ str "src=" ++ [q] ++ old) ++ q' :: rest1
            = (pre ++ str "src=") ++ q1 :: link ++ q2 :: post) as Heq'.
    { rewrite <- !app_assoc. cbn [app]. done. }
    apply app_eq_app in Heq' as [k [[Hk1 Hk2] | [Hk1 Hk2]]].
    2:{ exists k. rewrite Hk1. by rewrite <- !app_assoc. }
    destruct k as [|c k].
    { exists []. rewrite app_nil_r in Hk1. rewrite <- Hk1, app_nil_r.
      by rewrite <- !app_assoc. }
    exfalso. cbn [app] in Hk2. injection Hk2 as <- Hk2.
    assert ((pre1 ++ str "src=" ++ [q]) ++ old = (pre ++ str "src=" ++ [q1]) ++ k) as Hk1'.
    { rewrite <- !app_assoc. cbn [app]. rewrite <- !app_assoc in Hk1. exact Hk1. }
    assert (pre1 ++ str "src=" ++ [q] = pre ++ str "src=" ++ [q1] → False) as Hsame'.
    { intros Hu. apply app_inj_2 in Hu as [Hu _]; [by apply Hsame | done]. }
    apply app_eq_app in Hk1' as [j [[Hj1 Hj2] | [Hj1 Hj2]]].
    - destruct j as [|d j]; [rewrite app_nil_r in Hj1; by apply Hsame'|].
      apply (f_equal length) in Hj1. rewrite !length_app in Hj1. simpl in Hj1. lia.
    - destruct j as [|d j _] using rev_ind; [rewrite app_nil_r in Hj1; by apply Hsame'|].
      rewrite !app_assoc in Hj1. apply app_inj_tail in Hj1 as [_ <-].
      rewrite Hj2, <- app_assoc, forallb_app in Hold. cbn [app forallb] in Hold.
      rewrite (isQuote_notQuote _ Hq1) in Hold.
      by rewrite andb_false_r in Hold. }
  replace (pre ++ str "src=" ++ q1 :: link ++ q2 :: post)
    with ((pre1 ++ str "src=" ++ [q]) ++ old ++ (k ++ q1 :: link ++ q2 :: post)).
  2:{ rewrite (app_assoc old), (app_assoc _ (old ++ k)), <- Hk. by rewrite <- !app_assoc. }
  destruct (Replace1_keeps_rest (pre1 ++ str "src=" ++ [q]) old
              (k ++ q1 :: link ++ q2 :: post) new) as [x ->].
  exists (x ++ k ++ [q1]). by rewrite <- !app_assoc.
Qed.

(** ** C6: a failed fetch *)

Section WriteFacts.
Context `{Unicode} (E : Env).

Lemma writeRecords_ok (name : bytes) (comma : Z) (records : list (list bytes)) :
  (∀ w r, writer_Write E w r = true) →
  ∀ sofar w,
    written w = Some (name, comma, sofar) →
    ∃ w', writeRecords E name comma records sofar w = (Done, w') ∧
          written w' = Some (name, comma, sofar ++ records).
Proof.
  intros Hok. induction records as [|r records IH]; intros sofar w Hw; simpl.
  - exists w. by rewrite app_nil_r.
  - rewrite Hok.
    destruct (IH (sofar ++ [r]) (setWritten (Some (name, comma, sofar ++ [r])) w))
      as (w' & -> & Hw'); [done|].
    exists w'. by rewrite <- app_assoc in Hw'.
Qed.

Lemma writeCSV_ok (records : list (list bytes)) (name sep : bytes) (w : World) :
  os_Create E w name = true →
  (∀ w r, writer_Write E w r = true) →
  ∃ w', writeCSV E records name sep w = (Done, w') ∧
        written w' = Some (name, separatorOf sep, records).
Proof.
  intros Hc Hok. unfold writeCSV. rewrite Hc. simpl.
  by apply (writeRecords_ok name (separatorOf sep) records Hok []).
Qed.

End WriteFacts.

(** C6. With a valid header and rows that reach both columns, the batch
    is never aborted by a fetch: every reference of the set has its
    task, the map holds exactly the references whose task returned a
    path, a reference whose task failed has no entry, the rows are
    rewritten with that map and handed to [writeCSV], which produces
    the output file when the file can be created and written.  In the
    rewritten text the bytes outside the tags are copied and each tag
    goes through [replaceTag], which copies a tag whose link has no
    entry as it is and, whatever link it looks up, leaves a quoted [src]
    value without an entry, and all that follows it in the tag, as they
    were. *)
Theorem asset_failure_never_aborts `{Unicode} (E : Env) (records : list (list bytes))
        (hostname imagedir outputFileName selectedSeparator : bytes) (w : World)
        (iUk iRu : nat) :
  (2 ≤ length records)%nat →
  headerMapOf (default [] (head records)) !! str "body_uk" = Some iUk →
  headerMapOf (default [] (head records)) !! str "body_ru" = Some iRu →
  Forall (λ row : list bytes, (iUk < length row)%nat ∧ (iRu < length row)%nat)
         (tail records) →
  ∃ imageLinkSet imagePathMap w1,
    let allImageLinks := mapOrder E imageLinkSet in
    let trace := downloadTrace E hostname imagedir (length allImageLinks) allImageLinks
                               0%nat (emit PZero w) in
    let output := default [] (head records)
                    :: map (rewriteRow iUk iRu imagePathMap) (tail records) in
    collectLinks iUk iRu (tail records) ∅ = Some imageLinkSet ∧
    trace.*1 = allImageLinks ∧
    (∀ link newPath, imagePathMap !! link = Some newPath ↔ (link, inr newPath) ∈ trace) ∧
    (∀ link err, (link, inl err) ∈ trace → imagePathMap !! link = None) ∧
    processRecords E records hostname imagedir outputFileName selectedSeparator w
      = ((writeCSV E output outputFileName selectedSeparator w1).1,
         (writeCSV E output outputFileName selectedSeparator w1).2,
         output) ∧
    (os_Create E w1 outputFileName = true → (∀ w' r, writer_Write E w' r = true) →
     ∃ w2, processRecords E records hostname imagedir outputFileName selectedSeparator w
             = (Done, w2, output) ∧
           written w2 = Some (outputFileName, separatorOf selectedSeparator, output)) ∧
    (∀ html, replaceImageLinks html imagePathMap
             = concat (map (rewriteSegment (replaceTag imagePathMap))
                           (segments imgRe 0 html))) ∧
    (∀ link tag, imagePathMap !! link = None → srcOf tag = Some link →
                 replaceTag imagePathMap tag = tag) ∧
    (∀ link pre q1 q2 post,
       imagePathMap !! link = None →
       isQuote q1 = true → link ≠ [] → forallb notQuote link = true → isQuote q2 = true →
       ∃ pre', replaceTag imagePathMap (pre ++ str "src=" ++ q1 :: link ++ q2 :: post)
               = pre' ++ link ++ q2 :: post).
Proof.
  intros Hlen Huk Hru Hrows.
  destruct (processRecords_run E records hostname imagedir outputFileName
              selectedSeparator w iUk iRu Hlen Huk Hru Hrows)
    as (set & w1 & Hc & _ & _ & _ & Hrun).
  cbv zeta in Hrun.
  set (links := mapOrder E set) in *.
  set (d := downloadAll E hostname imagedir (length links) links ∅ 0%nat (emit PZero w)) in *.
  assert (NoDup links) as Hnd.
  { unfold links. rewrite (mapOrder_perm E set). apply NoDup_elements. }
  destruct (downloadAll_trace E hostname imagedir (length links) links Hnd ∅ 0%nat
              (emit PZero w)) as (Hok & Herr & Hout).
  fold d in Hok, Herr, Hout.
  exists set, d.1.1, w1. cbv zeta. fold links.
  pose proof (downloadTrace_links E hostname imagedir (length links) links 0%nat
                (emit PZero w)) as Hfst.
  split_and!; [done | done | | | done | | | |].
  - intros link newPath. split; [|apply Hok]. intros Hm.
    destruct (decide (link ∈ links)) as [Hin|Hnin].
    + rewrite <- Hfst in Hin. apply list_elem_of_fmap in Hin as ([l x] & Heq & Hin).
      simpl in Heq. subst link. destruct x as [e|p].
      * rewrite (Herr _ _ Hin), lookup_empty in Hm. discriminate.
      * rewrite (Hok _ _ Hin) in Hm. by injection Hm as <-.
    + rewrite (Hout _ Hnin), lookup_empty in Hm. discriminate.
  - intros link err Hin. by rewrite (Herr _ _ Hin), lookup_empty.
  - intros Hcreate Hwrite.
    destruct (writeCSV_ok E (default [] (head records)
                               :: map (rewriteRow iUk iRu d.1.1) (tail records))
                outputFileName selectedSeparator w1 Hcreate Hwrite) as (w2 & Hw & Hwritten).
    exists w2. by rewrite Hrun, Hw.
  - intros html. apply replaceAll_segments.
  - intros link tag Hm Hs. by eapply replaceTag_miss.
  - intros link pre q1 q2 post Hm Hq1 Hne Hl Hq2. by apply replaceTag_keeps_missing.
Qed.

Lemma asset_failure_never_aborts_witness :
  let E := exampleEnv (statusWithout (str "https://site.ua/missing.jpg")) in
  let records := threeReferences in
  let hostname := str "https://site.ua" in
  let imagedir := str "/u/" in
  let outputFileName := str "output.csv" in
  let selectedSeparator := str "Comma (,)" in
  let w := emptyWorld in
  ∃ imageLinkSet imagePathMap w1,
    let allImageLinks := mapOrder E imageLinkSet in
    let trace := downloadTrace E hostname imagedir (length allImageLinks) allImageLinks
                               0%nat (emit PZero w) in
    let output := default [] (head records)
                    :: map (rewriteRow 0 1 imagePathMap) (tail records) in
    collectLinks 0 1 (tail records) ∅ = Some imageLinkSet ∧
    trace.*1 = allImageLinks ∧
    (∀ link newPath, imagePathMap !! link = Some newPath ↔ (link, inr newPath) ∈ trace) ∧
    (∀ link err, (link, inl err) ∈ trace → imagePathMap !! link = None) ∧
    processRecords E records hostname imagedir outputFileName selectedSeparator w
      = ((writeCSV E output outputFileName selectedSeparator w1).1,
         (writeCSV E output outputFileName selectedSeparator w1).2,
         output) ∧
    (os_Create E w1 outputFileName = true → (∀ w' r, writer_Write E w' r = true) →
     ∃ w2, processRecords E records hostname imagedir outputFileName selectedSeparator w
             = (Done, w2, output) ∧
           written w2 = Some (outputFileName, separatorOf selectedSeparator, output)) ∧
    (∀ html, replaceImageLinks html imagePathMap
             = concat (map (rewriteSegment (replaceTag imagePathMap))
                           (segments imgRe 0 html))) ∧
    (∀ link tag, imagePathMap !! link = None → srcOf tag = Some link →
                 replaceTag imagePathMap tag = tag) ∧
    (∀ link pre q1 q2 post,
       imagePathMap !! link = None →
       isQuote q1 = true → link ≠ [] → forallb notQuote link = true → isQuote q2 = true →
       ∃ pre', replaceTag imagePathMap (pre ++ str "src=" ++ q1 :: link ++ q2 :: post)
               = pre' ++ link ++ q2 :: post).
Proof.
  apply (asset_failure_never_aborts
           (exampleEnv (statusWithout (str "https://site.ua/missing.jpg")))
           threeReferences (str "https://site.ua") (str "/u/") (str "output.csv")
           (str "Comma (,)") emptyWorld 0 1).
  - simpl. lia.
  - vm_compute. reflexivity.
  - vm_compute. reflexivity.
  - repeat constructor; simpl; lia.
Defined.

(** That run, evaluated: the two images that were fetched are
    rewritten, the one that got a 404 keeps its literal, and the output
    file is written. *)
Example three_references_one_missing :
  let res := processRecords (exampleEnv (statusWithout (str "https://site.ua/missing.jpg")))
                            threeReferences (str "https://site.ua") (str "/u/")
                            (str "output.csv") (str "Comma (,)") emptyWorld in
  res.1.1 = Done ∧
  res.2 = [[str "body_uk"; str "body_ru"];
           [str "<img src='/u/cf3a--a.jpg'><img class='wide' src='/missing.jpg'>";
            str "<img src='/u/1aad--b.png'>"]] ∧
  written res.1.2 = Some (str "output.csv", 44, res.2).
Proof. vm_compute. done. Qed.

(** ** C5: the example run *)

(** The filename does not depend on the tables beyond ASCII. *)
Lemma synthFilename_tables (U1 U2 : Unicode) (imageURL Path : bytes) :
  @synthFilename U1 imageURL Path = @synthFilename U2 imageURL Path.
Proof.
  unfold synthFilename. cbv zeta.
  by rewrite (@transliterate_cleaned U1), (@transliterate_cleaned U2).
Qed.

Section CooperativeFacts.
Context `{Unicode} (E : Env).

(** In a cooperative world a fetch returns the relative path, and asks
    the server at most once, for its own URL. *)
Lemma download_cooperative (link hostname imagedir Path : bytes) (w : World) :
  Cooperative E →
  url_Parse E (resolveURL link hostname) = Some Path →
  ∃ w',
    downloadAndSaveImage E link hostname imagedir w
      = (inr (imagedir ++ synthFilename (resolveURL link hostname) Path), w') ∧
    (requests w' = requests w ∨ requests w' = resolveURL link hostname :: requests w).
Proof.
  intros (Hmk & Hnew & Hdo & Hcr & Hcp) Hparse.
  unfold downloadAndSaveImage. cbv zeta. rewrite Hparse, Hmk. cbn [negb].
  destruct (statOK _ _); [eexists; split; [reflexivity | by left]|].
  rewrite Hnew. cbn [negb].
  destruct (Hdo (touch (filepath_Join E (str "files") imagedir) w)
                (resolveURL link hostname)) as (resp & -> & Hst & Hsize).
  rewrite Hst, Hcr, Hcp. cbn [negb Z.eqb Pos.eqb].
  destruct (0 <? ContentLength resp); [|eexists; split; [reflexivity | by right]].
  destruct (out_Stat E _ _) as [size|] eqn:Hstat;
    [|eexists; split; [reflexivity | by right]].
  apply Hsize in Hstat as ->. rewrite Z.eqb_refl. cbn [negb].
  eexists; split; [reflexivity | by right].
Qed.

End CooperativeFacts.

(** C5, as stated, fails: the directory token of a one-segment path is
    empty and both of its hyphens are kept, so the rewritten [src] has
    two hyphens after the hash. *)
Lemma example_run_two_hyphens :
  let res := processRecords (exampleEnv (λ _, 200)) exampleTable (str "https://site.ua")
                            (str "/u/") (str "output.csv") (str "Comma (,)") emptyWorld in
  ∃ row1,
    res.2 !! 1%nat = Some row1 ∧
    extractImageLinks (default [] (row1 !! 0%nat)) = [str "/u/cf3a--a.jpg"] ∧
    ¬ ∃ hash, length hash = 4%nat ∧
              str "/u/cf3a--a.jpg" = str "/u/" ++ hash ++ str "-a.jpg".
Proof.
  eexists. split; [vm_compute; reflexivity|]. split; [vm_compute; reflexivity|].
  intros (hash & Hlen & Heq). apply (f_equal length) in Heq.
  rewrite !length_app, Hlen in Heq. simpl in Heq. lia.
Qed.

Ltac solve_fetched :=
  match goal with
  | |- NoDup _ =>
      repeat (constructor; [rewrite ?not_elem_of_cons; split_and?;
                            first [apply not_elem_of_nil | congruence]|]);
      apply NoDup_nil_2
  | |- ∀ u, u ∈ _ → _ =>
      let u := fresh "u" in
      let Hu := fresh "Hu" in
      intros u Hu;
      repeat (apply elem_of_cons in Hu as [->|Hu]; [tauto|]);
      by apply elem_of_nil in Hu
  end.

(** C5, amended. When every step of the fetches succeeds, the example
    run resolves [/a.jpg] to [https://site.ua/a.jpg], asks the server
    for each of the two URLs at most once, and leaves the rows with
    [/u/cf3a--a.jpg] and [/u/1aad--b.png]: the hash, two hyphens, the
    base name and the extension. *)
Theorem example_run `{Unicode} (E : Env) (outputFileName selectedSeparator : bytes)
        (w : World) :
  Cooperative E →
  url_Parse E (str "https://site.ua/a.jpg") = Some (str "/a.jpg") →
  url_Parse E (str "http://x.com/b.png") = Some (str "/b.png") →
  let res := processRecords E exampleTable (str "https://site.ua") (str "/u/")
                            outputFileName selectedSeparator w in
  resolveURL (str "/a.jpg") (str "https://site.ua") = str "https://site.ua/a.jpg" ∧
  res.2 = [[str "body_uk"; str "body_ru"];
           [str "<img src='/u/cf3a--a.jpg'>"; []];
           [str "<img src='/u/1aad--b.png'>"; []]] ∧
  ∃ fetched,
    requests res.1.2 = fetched ++ requests w ∧
    NoDup fetched ∧
    ∀ u, u ∈ fetched → u = str "https://site.ua/a.jpg" ∨ u = str "http://x.com/b.png".
Proof.
  intros Hcoop Hpa Hpb res. subst res.
  split; [vm_compute; reflexivity|].
  set (a := str "/a.jpg"). set (b := str "http://x.com/b.png").
  set (host := str "https://site.ua"). set (dir := str "/u/").
  set (ua := str "https://site.ua/a.jpg") in *.
  assert (resolveURL a host = ua) as Hra by (vm_compute; reflexivity).
  assert (resolveURL b host = b) as Hrb by (vm_compute; reflexivity).
  assert (dir ++ synthFilename ua (str "/a.jpg") = str "/u/cf3a--a.jpg") as Hfa.
  { rewrite (synthFilename_tables _ asciiTables). vm_compute. reflexivity. }
  assert (dir ++ synthFilename b (str "/b.png") = str "/u/1aad--b.png") as Hfb.
  { rewrite (synthFilename_tables _ asciiTables). vm_compute. reflexivity. }
  assert (ua ≠ b) as Hab by (vm_compute; discriminate).
  (* the phases *)
  destruct (processRecords_run E exampleTable host dir outputFileName selectedSeparator
              w 0 1) as (set & w1 & Hc & _ & Hreq & _ & Hrun).
  { simpl. lia. }
  { vm_compute. reflexivity. }
  { vm_compute. reflexivity. }
  { repeat constructor; simpl; lia. }
  cbv zeta in Hreq, Hrun. rewrite Hrun. cbn [fst snd].
  rewrite writeCSV_frame, Hreq. clear Hrun Hreq w1.
  (* the reference set and its two orders *)
  apply collectLinks_spec in Hc. rewrite (left_id_L ∅ (∪)) in Hc.
  assert (harvested 0 1 (tail exampleTable) = [a; b]) as Hh by (vm_compute; reflexivity).
  rewrite Hh in Hc.
  assert (mapOrder E set = [a; b] ∨ mapOrder E set = [b; a]) as Hord.
  { apply Permutation_length_2_inv. rewrite (mapOrder_perm E set), Hc.
    symmetry. apply elements_list_to_set. repeat constructor.
    - rewrite list_elem_of_singleton. vm_compute. discriminate.
    - apply not_elem_of_nil. }
  (* the two fetches, in either order *)
  destruct Hord as [-> | ->]; cbn [downloadAll length].
  - destruct (download_cooperative E a host dir (str "/a.jpg") (emit PZero w) Hcoop)
      as (wa & -> & Hqa); [by rewrite Hra|].
    destruct (download_cooperative E b host dir (str "/b.png")
                (emit (PRatio 1 2) wa) Hcoop) as (wb & -> & Hqb); [by rewrite Hrb|].
    rewrite Hra, Hrb, Hfa, Hfb in *. cbn [fst snd emit requests] in *.
    split; [vm_compute; reflexivity|]. clearbody a b ua host dir.
    destruct Hqa as [Hqa|Hqa], Hqb as [Hqb|Hqb]; rewrite Hqb, Hqa;
      [exists [] | exists [b] | exists [ua] | exists [b; ua]];
      (split; [done|]); split; solve_fetched.
  - destruct (download_cooperative E b host dir (str "/b.png") (emit PZero w) Hcoop)
      as (wb & -> & Hqb); [by rewrite Hrb|].
    destruct (download_cooperative E a host dir (str "/a.jpg")
                (emit (PRatio 1 2) wb) Hcoop) as (wa & -> & Hqa); [by rewrite Hra|].
    rewrite Hra, Hrb, Hfa, Hfb in *. cbn [fst snd emit requests] in *.
    split; [vm_compute; reflexivity|]. clearbody a b ua host dir.
    destruct Hqa as [Hqa|Hqa], Hqb as [Hqb|Hqb]; rewrite Hqa, Hqb;
      [exists [] | exists [b] | exists [ua] | exists [ua; b]];
      (split; [done|]); split; solve_fetched.
Qed.

Lemma exampleEnv_cooperative : Cooperative (exampleEnv (λ _, 200)).
Proof.
  repeat split.
  intros w u. eexists. split; [reflexivity|]. split; [reflexivity|].
  intros w' p size Hs. discriminate Hs.
Defined.

Lemma example_run_witness :
  let res := processRecords (exampleEnv (λ _, 200)) exampleTable (str "https://site.ua")
                            (str "/u/") (str "output.csv") (str "Semicolon (;)")
                            emptyWorld in
  resolveURL (str "/a.jpg") (str "https://site.ua") = str "https://site.ua/a.jpg" ∧
  res.2 = [[str "body_uk"; str "body_ru"];
           [str "<img src='/u/cf3a--a.jpg'>"; []];
           [str "<img src='/u/1aad--b.png'>"; []]] ∧
  ∃ fetched,
    requests res.1.2 = fetched ++ requests emptyWorld ∧
    NoDup fetched ∧
    ∀ u, u ∈ fetched → u = str "https://site.ua/a.jpg" ∨ u = str "http://x.com/b.png".
Proof.
  apply (example_run (exampleEnv (λ _, 200)) (str "output.csv") (str "Semicolon (;)")
                     emptyWorld).
  - exact exampleEnv_cooperative.
  - vm_compute. reflexivity.
  - vm_compute. reflexivity.
Defined.

(** * Further properties of the code *)

(** ** [strings.Split] *)

Lemma Split_app_sep (a b : bytes) (c : ascii) :
  c ∉ a → strings.Split (a ++ c :: b) c = a :: strings.Split b c.
Proof.
  induction a as [|x a IH]; intros Hc; simpl.
  - by destruct (decide (c = c)).
  - apply not_elem_of_cons in Hc as [Hx Ha].
    destruct (decide (x = c)) as [->|_]; [done|]. by rewrite (IH Ha).
Qed.

Lemma Split_no_sep (s : bytes) (c : ascii) : c ∉ s → strings.Split s c = [s].
Proof.
  induction s as [|x s IH]; intros Hc; simpl; [done|].
  apply not_elem_of_cons in Hc as [Hx Hs].
  destruct (decide (x = c)) as [->|_]; [done|]. by rewrite (IH Hs).
Qed.

Lemma Split_no_sep_inside (s : bytes) (c : ascii) :
  Forall (λ w, c ∉ w) (strings.Split s c).
Proof.
  induction s as [|x s IH]; simpl.
  - repeat constructor. apply not_elem_of_nil.
  - destruct (decide (x = c)) as [->|Hx].
    + constructor; [apply not_elem_of_nil | done].
    + destruct (strings.Split s c) as [|w ws]; [repeat constructor|].
      * by apply not_elem_of_cons; split; [congruence | apply not_elem_of_nil].
      * apply Forall_cons in IH as [Hw Hws]. constructor; [|done].
        apply not_elem_of_cons. split; [congruence | done].
Qed.

Lemma Split_length (s : bytes) (c : ascii) :
  length (strings.Split s c) = S (count_occ ascii_dec s c).
Proof.
  induction s as [|x s IH]; simpl; [done|].
  destruct (decide (x = c)) as [->|Hx].
  - destruct (ascii_dec c c); [|done]. simpl. by rewrite IH.
  - destruct (ascii_dec x c); [done|].
    destruct (strings.Split s c); simpl in *; lia.
Qed.

(** ** [getCSVURL] *)

Lemma spreadsheetIDOf_spec (parts : list bytes) (id : bytes) :
  id ≠ [] →
  spreadsheetIDOf parts = id ↔
  ∃ before after, parts = before ++ str "d" :: id :: after ∧ (str "d" ∉ before).
Proof.
  intros Hid. split.
  - induction parts as [|part rest IH]; cbn [spreadsheetIDOf]; [by intros <-|].
    destruct (decide (part = str "d")) as [Hd|Hd].
    + destruct rest as [|next rest]; [by intros <-|]. intros ->. subst part.
      exists [], rest. split; [done | apply not_elem_of_nil].
    + intros (before & after & -> & Hb)%IH.
      exists (part :: before), after. split; [done|].
      apply not_elem_of_cons. split; [congruence | done].
  - intros (before & after & -> & Hb).
    induction before as [|b before IH]; cbn [spreadsheetIDOf app].
    + by destruct (decide (str "d" = str "d")).
    + apply not_elem_of_cons in Hb as [Hne Hb].
      destruct (decide (b = str "d")) as [Heq|_]; [by destruct Hne | by apply IH].
Qed.

(** [getCSVURL] succeeds exactly when the URL parses and its path has a
    segment [d] followed by another segment, the first such [d] being
    followed by a non-empty one; that segment, which holds no slash, is
    the id of the export URL. *)
Theorem getCSVURL_success (url_Parse : bytes → option url.URL)
        (spreadsheetURL csvURL : bytes) :
  getCSVURL url_Parse spreadsheetURL = inr csvURL ↔
  ∃ u before id after,
    url_Parse spreadsheetURL = Some u ∧
    strings.Split (url.Path u) SLASH = before ++ str "d" :: id :: after ∧
    (str "d" ∉ before) ∧ id ≠ [] ∧ (SLASH ∉ id) ∧
    csvURL = str "https://docs.google.com/spreadsheets/d/" ++ id
               ++ str "/export?format=csv&gid=" ++ gidOf u.
Proof.
  unfold getCSVURL. split.
  - destruct (url_Parse spreadsheetURL) as [u|]; [|done]. cbv zeta.
    destruct (spreadsheetIDOf _) as [|c id] eqn:Hid; [done|].
    intros [= <-].
    apply spreadsheetIDOf_spec in Hid as (before & after & Hsplit & Hb); [|done].
    exists u, before, (c :: id), after. split_and!; try done.
    pose proof (Split_no_sep_inside (url.Path u) SLASH) as Hall.
    rewrite Hsplit in Hall. apply Forall_app in Hall as [_ Hall].
    apply Forall_cons in Hall as [_ Hall]. by apply Forall_cons in Hall as [Hall _].
  - intros (u & before & id & after & -> & Hsplit & Hb & Hid & _ & ->). cbv zeta.
    assert (spreadsheetIDOf (strings.Split (url.Path u) SLASH) = id) as ->.
    { apply spreadsheetIDOf_spec; [done|]. by exists before, after. }
    by destruct id.
Qed.

(** The sheet id of the export URL is never empty: the query's [gid]
    when it has one; else the value of a fragment of the form [gid=g];
    else, with no fragment or one that holds a second [=], the default 0. *)
Theorem gidOf_choice (u : url.URL) :
  gidOf u ≠ [] ∧
  (url.QueryGid u ≠ [] → gidOf u = url.QueryGid u) ∧
  (∀ g, url.QueryGid u = [] → url.Fragment u = str "gid=" ++ g → g ≠ [] →
        Zbyte 61 ∉ g → gidOf u = g) ∧
  (url.QueryGid u = [] → url.Fragment u = [] → gidOf u = str "0") ∧
  (∀ a b c, url.QueryGid u = [] → url.Fragment u = a ++ Zbyte 61 :: b ++ Zbyte 61 :: c →
            gidOf u = str "0").
Proof.
  unfold gidOf. split_and!.
  - destruct (url.QueryGid u); [|done].
    destruct (url.Fragment u) as [|f fr]; [done|].
    destruct (strings.Split _ _) as [|k [|v [|? ?]]]; try done.
    destruct (decide (k = str "gid")); [|done]. by destruct v.
  - by destruct (url.QueryGid u).
  - intros g -> -> Hg Hno.
    change (str "gid=" ++ g) with (str "gid" ++ Zbyte 61 :: g).
    rewrite Split_app_sep by (vm_compute; set_solver).
    rewrite (Split_no_sep _ _ Hno). cbn [app str list_ascii_of_string].
    destruct (decide (_ = _)) as [_|Hne]; [|by destruct Hne].
    by destruct g.
  - by intros -> ->.
  - intros a b c -> ->.
    pose proof (Split_length (a ++ Zbyte 61 :: b ++ Zbyte 61 :: c) (Zbyte 61)) as Hlen.
    rewrite !count_occ_app in Hlen. cbn [count_occ] in Hlen.
    destruct (ascii_dec (Zbyte 61) (Zbyte 61)); [|done].
    rewrite count_occ_app in Hlen. cbn [count_occ] in Hlen.
    destruct (ascii_dec (Zbyte 61) (Zbyte 61)); [|done].
    destruct (a ++ Zbyte 61 :: b ++ Zbyte 61 :: c) as [|f fr]; [done|].
    destruct (strings.Split _ _) as [|k [|v [|? ?]]]; try done.
    simpl in Hlen. lia.
Qed.

Example getCSVURL_edit_link :
  let parse (_ : bytes) := Some {| url.Path := str "/spreadsheets/d/1AbC_x/edit";
                                   url.QueryGid := [];
                                   url.Fragment := str "gid=42" |} in
  getCSVURL parse (str "https://docs.google.com/spreadsheets/d/1AbC_x/edit#gid=42")
  = inr (str "https://docs.google.com/spreadsheets/d/1AbC_x/export?format=csv&gid=42").
Proof. vm_compute. reflexivity. Qed.

(** ** [transliterate] *)

Lemma keepStep3_wordDash (c : ascii) : keepStep3 c = true → negb (notWordDash c) = true.
Proof.
  unfold keepStep3, notWordDash, isWord, isUpperASCII, isLowerASCII, isDigitASCII.
  rewrite negb_involutive. intros Hk.
  destruct (decide (byteZ c = 45)) as [H45|H45].
  - rewrite <- (Zbyte_byteZ c), H45. by vm_compute.
  - apply orb_true_iff. left. lia.
Qed.

Lemma filter_filter_implied {A} (p q : A → bool) (l : list A) :
  (∀ x, p x = true → q x = true) → List.filter p (List.filter q l) = List.filter p l.
Proof.
  intros Hpq. induction l as [|x l IH]; simpl; [done|].
  destruct (q x) eqn:Hq; simpl.
  - destruct (p x); by rewrite IH.
  - destruct (p x) eqn:Hp; [|done]. apply Hpq in Hp. congruence.
Qed.

Lemma latinized_ascii (s : bytes) :
  forallb isASCII s = true → latinized s = strings.ReplaceAllByte s (Zbyte 32) (str "-").
Proof.
  intros Hs. unfold latinized. f_equal.
  rewrite (runes_ascii _ Hs), map_map.
  induction s as [|c s IH]; [done|].
  cbn [forallb] in Hs. apply andb_true_iff in Hs as [Hc Hs].
  cbn [map concat]. rewrite (IH Hs).
  rewrite cyrillicToLatin_not_ascii by (unfold isASCII in Hc; lia).
  by rewrite (EncodeRune_ascii _ Hc).
Qed.

Section TransliterateFacts.
Context `{Unicode}.

(** [transliterate] is idempotent: a second pass changes nothing. *)
Theorem transliterate_idempotent (filename : bytes) :
  transliterate (transliterate filename) = transliterate filename.
Proof.
  pose proof (transliterate_app_safe (transliterate filename) []
                (transliterate_safe filename)) as Happ.
  rewrite app_nil_r in Happ. rewrite Happ.
  assert (transliterate [] = []) as -> by by rewrite transliterate_cleaned.
  by rewrite app_nil_r.
Qed.

(** On ASCII input [transliterate] turns each space into a hyphen, drops
    every byte that is not a letter, a digit or a hyphen (the underscore
    too), and lower-cases the letters. *)
Theorem transliterate_ascii (filename : bytes) :
  forallb isASCII filename = true →
  transliterate filename
  = map lowerByte
        (List.filter keepStep3 (strings.ReplaceAllByte filename (Zbyte 32) (str "-"))).
Proof.
  intros Hs. rewrite transliterate_cleaned, (latinized_ascii _ Hs). unfold cleaned.
  by rewrite (filter_filter_implied _ _ _ keepStep3_wordDash).
Qed.

(** Every letter of [cyrillicToLatin], in its UTF-8 encoding, comes out
    as its Latin image in lower case (nothing for the soft sign). *)
Theorem transliterate_table (char : Z) (latin : bytes) :
  cyrillicToLatin !! char = Some latin →
  transliterate (utf8.EncodeRune char) = map lowerByte latin.
Proof.
  intros Hin. rewrite transliterate_cleaned.
  unfold cyrillicToLatin in Hin. apply elem_of_list_to_map_2 in Hin.
  repeat (apply elem_of_cons in Hin as [[= -> ->]|Hin]; [by vm_compute|]).
  by apply elem_of_nil in Hin.
Qed.

End TransliterateFacts.

Lemma transliterate_ascii_witness :
  transliterate (str "My Photo_01 (final).JPG") = str "my-photo01-finaljpg".
Proof.
  rewrite (transliterate_ascii (str "My Photo_01 (final).JPG")) by (vm_compute; reflexivity).
  vm_compute. reflexivity.
Defined.

Lemma transliterate_table_witness :
  transliterate (utf8.EncodeRune 0x0429) = map lowerByte (str "Shch").
Proof. apply transliterate_table. vm_compute. reflexivity. Defined.

(** ** The synthesized filename as a path element *)

Lemma scanExt_free (revp suffix : bytes) :
  Forall (λ c, c ≠ SLASH ∧ c ≠ DOT) suffix →
  filepath.scanExt revp suffix = [] ∨
  ∃ e, filepath.scanExt revp suffix = DOT :: e ∧ Forall (λ c, c ≠ SLASH ∧ c ≠ DOT) e.
Proof.
  revert suffix. induction revp as [|c r IH]; intros suffix Hs; simpl; [by left|].
  destruct (decide (c = SLASH)); [by left|].
  destruct (decide (c = DOT)) as [->|]; [right; eauto|].
  apply IH. by constructor.
Qed.

Lemma isSafeByte_not_separator (c : ascii) : isSafeByte c = true → c ≠ SLASH ∧ c ≠ DOT.
Proof. intros Hc. split; intros ->; by vm_compute in Hc. Qed.

Section FilenameFacts.
Context `{Unicode}.

Lemma synthFilename_parts (imageURL Path : bytes) :
  ∃ body e,
    synthFilename imageURL Path = body ++ DOT :: e ∧
    Forall (λ c, c ≠ SLASH ∧ c ≠ DOT) body ∧
    Forall (λ c, c ≠ SLASH ∧ c ≠ DOT) e.
Proof.
  unfold synthFilename. cbv zeta.
  set (base := hd [] (strings.Split (filepath.Base Path) (Zbyte 63))).
  set (body := transliterate _).
  assert (Forall (λ c, c ≠ SLASH ∧ c ≠ DOT) body) as Hbody.
  { apply Forall_forall. intros c Hc%list_elem_of_In. apply isSafeByte_not_separator.
    pose proof (transliterate_safe (take 4 (hex.EncodeToString (sha1.Sum imageURL)) ++
      str "-" ++ (if (3 <=? length (strings.Split Path SLASH))%nat
                  then strings.Join (take 2 (drop (length (strings.Split Path SLASH) - 3)
                                                  (strings.Split Path SLASH))) (str "_")
                  else if (2 <=? length (strings.Split Path SLASH))%nat
                       then nth (length (strings.Split Path SLASH) - 2)
                                (strings.Split Path SLASH) []
                       else []) ++ str "-" ++
      strings.TrimSuffix base (filepath.Ext base))) as Hsafe.
    rewrite forallb_forall in Hsafe. by apply Hsafe. }
  destruct (scanExt_free (rev base) [] (Forall_nil_2 _)) as [He | (e & He & Hfree)];
    unfold filepath.Ext; rewrite He.
  - exists body, (str "jpg"). split_and!; [done | done |].
    repeat constructor; by vm_compute.
  - by exists body, e.
Qed.

(** The synthesized filename holds no path separator and exactly one
    dot, the one that starts its extension: the file is created in the
    image directory itself, under a name with a single extension. *)
Theorem synthFilename_single_element (imageURL Path : bytes) :
  (SLASH ∉ synthFilename imageURL Path) ∧
  count_occ ascii_dec (synthFilename imageURL Path) DOT = 1%nat.
Proof.
  destruct (synthFilename_parts imageURL Path) as (body & e & -> & Hbody & He).
  assert (∀ l, Forall (λ c : ascii, c ≠ SLASH ∧ c ≠ DOT) l →
               (SLASH ∉ l) ∧ count_occ ascii_dec l DOT = 0%nat) as Hfree.
  { intros l Hl. split.
    - intros Hin. eapply Forall_forall in Hl; [|exact Hin]. by destruct Hl.
    - apply count_occ_not_In. intros Hin%list_elem_of_In.
      eapply Forall_forall in Hl; [|exact Hin]. by destruct Hl. }
  destruct (Hfree _ Hbody) as [Hb1 Hb2]. destruct (Hfree _ He) as [He1 He2].
  split.
  - rewrite elem_of_app, elem_of_cons. intros [?|[Hd|?]]; [done | | done].
    by vm_compute in Hd.
  - rewrite count_occ_app, Hb2. cbn [count_occ].
    destruct (ascii_dec DOT DOT); [|done]. by rewrite He2.
Qed.

End FilenameFacts.

(** ** Resolving twice *)

Lemma HasPrefix_http_TrimRight (hostname : bytes) :
  strings.HasPrefix hostname (str "http") = true →
  strings.HasPrefix (strings.TrimRight hostname [SLASH]) (str "http") = true.
Proof.
  intros Hp. destruct (TrimRight_split hostname SLASH) as [n [Hh _]].
  set (h0 := strings.TrimRight hostname [SLASH]) in *. clearbody h0.
  rewrite Hh in Hp. clear Hh.
  destruct h0 as [|a [|b [|c [|d h0]]]]; cbn [app] in Hp |- *; [| | | |exact Hp].
  all: destruct n as [|[|[|[|n]]]]; cbn [replicate app] in Hp;
    vm_compute in Hp; repeat case_decide; simplify_eq; done.
Qed.

(** With a hostname that starts with [http], a resolved URL resolves to
    itself: resolving is idempotent. *)
Theorem resolveURL_idempotent (imageURL hostname : bytes) :
  strings.HasPrefix hostname (str "http") = true →
  resolveURL (resolveURL imageURL hostname) hostname = resolveURL imageURL hostname.
Proof.
  intros Hh.
  assert (∀ u, strings.HasPrefix u (str "http") = true → resolveURL u hostname = u) as Hfix.
  { intros u Hu. unfold resolveURL. rewrite Hu. cbn [negb].
    apply HasPrefix_spec in Hu as [k ->].
    replace (strings.HasPrefix (str "http" ++ k) (str "//")) with false; [done|].
    cbn [str list_ascii_of_string app strings.HasPrefix]. by case_decide. }
  apply Hfix. unfold resolveURL. change (str "/") with [SLASH].
  destruct (strings.HasPrefix imageURL (str "//")) eqn:H1.
  { vm_compute. by repeat case_decide. }
  destruct (strings.HasPrefix imageURL (str "http")) eqn:H2; [done|]. cbn [negb].
  apply HasPrefix_http_TrimRight in Hh. apply HasPrefix_spec in Hh as [k Hk].
  apply HasPrefix_spec. rewrite Hk, <- app_assoc. by eexists.
Qed.

Lemma resolveURL_idempotent_witness :
  resolveURL (resolveURL (str "/a.jpg") (str "https://site.ua/")) (str "https://site.ua/")
  = resolveURL (str "/a.jpg") (str "https://site.ua/").
Proof. apply resolveURL_idempotent. vm_compute. reflexivity. Defined.

(** ** Texts that need no rewriting *)

Lemma matchHere_imgRe_head (c : ascii) (s : bytes) :
  c ≠ Zbyte 60 → matchHere imgRe (c :: s) = None.
Proof.
  intros Hc. unfold matchHere, imgRe. cbn [str list_ascii_of_string Lits run].
  destruct (decide (_ = c)) as [Heq|]; [|done]. destruct Hc. by rewrite <- Heq.
Qed.

Lemma matchHere_imgRe_nil : matchHere imgRe [] = None.
Proof. reflexivity. Qed.

Lemma findAll_imgRe_no_lt (s : bytes) :
  Zbyte 60 ∉ s → ∀ skip, findAll imgRe skip s = [].
Proof.
  induction s as [|c s IH]; intros Hs skip; simpl.
  - by destruct skip.
  - apply not_elem_of_cons in Hs as [Hc Hs].
    destruct skip; [|by apply IH].
    rewrite matchHere_imgRe_head by done. by apply IH.
Qed.

(** A text without any [<] has no reference and is returned byte for
    byte, whatever the map. *)
Theorem no_angle_no_change (html : bytes) (m : gmap bytes bytes) :
  Zbyte 60 ∉ html →
  extractImageLinks html = [] ∧ replaceImageLinks html m = html.
Proof.
  intros Hs. pose proof (findAll_imgRe_no_lt html Hs 0) as Hnone. split.
  - unfold extractImageLinks, FindAllStringSubmatch. by rewrite Hnone.
  - apply replaceImageLinks_no_tags. unfold tagsOf, FindAllStringSubmatch. by rewrite Hnone.
Qed.

Lemma no_angle_no_change_witness :
  extractImageLinks (str "price: 5 > 3, src='/a.jpg'") = [] ∧
  replaceImageLinks (str "price: 5 > 3, src='/a.jpg'") {[ str "/a.jpg" := str "/u/x.jpg" ]}
  = str "price: 5 > 3, src='/a.jpg'".
Proof.
  apply no_angle_no_change. vm_compute. intros Hin.
  repeat (apply elem_of_cons in Hin as [Heq|Hin]; [discriminate Heq|]).
  by apply elem_of_nil in Hin.
Defined.

(** With an empty map nothing is rewritten. *)
Theorem replaceImageLinks_empty_map (html : bytes) : replaceImageLinks html ∅ = html.
Proof.
  unfold replaceImageLinks, ReplaceAllStringFunc. apply replaceAll_fixed.
  apply Forall_forall. intros tag _. rewrite replaceTag_srcOf.
  destruct (srcOf tag); [|done]. by rewrite lookup_empty.
Qed.

(** ** Where the references come from *)

Lemma findAll_substring (r : Regexp) (s : bytes) :
  ∀ skip m, m ∈ findAll r skip s → ∃ a b, s = a ++ m.1 ++ b.
Proof.
  induction s as [|c s IH]; intros skip m; simpl.
  - destruct skip; [|by intros ?%elem_of_nil].
    destruct (matchHere r []) as [[n cap]|]; [|by intros ?%elem_of_nil].
    intros ->%list_elem_of_singleton. exists [], []. by destruct n.
  - assert (∀ k, m ∈ findAll r k s → ∃ a b, c :: s = a ++ m.1 ++ b) as Hrest.
    { intros k (a & b & ->)%IH. by exists (c :: a), b. }
    destruct skip; [|apply Hrest].
    destruct (matchHere r (c :: s)) as [[n cap]|] eqn:Hm; [|apply Hrest].
    intros [->|Hin]%elem_of_cons; [|by eapply Hrest].
    exists [], (drop n (c :: s)). simpl. by rewrite take_drop.
Qed.

(** Every reference [extractImageLinks] returns stands in the text as a
    quoted value right after [src=], inside a stretch that starts with
    [<img] and ends with [>]. *)
Theorem extracted_link_in_text (html link : bytes) :
  link ∈ extractImageLinks html →
  ∃ before pre q1 q2 post after,
    html = before ++ (str "<img" ++ pre ++ str "src=" ++ [q1] ++ link ++ [q2]
                        ++ post ++ str ">") ++ after ∧
    isQuote q1 = true ∧ isQuote q2 = true ∧ pre ≠ [] ∧
    forallb notGt pre = true ∧ forallb notGt post = true.
Proof.
  unfold extractImageLinks, FindAllStringSubmatch.
  intros ([tag cap] & -> & Hin)%list_elem_of_fmap.
  pose proof (findAll_substring _ _ _ _ Hin) as (before & after & Hs).
  apply findAll_sound in Hin. simpl in *.
  apply imgRe_sound in Hin as (l & -> & Htag). destruct Htag.
  by exists before, pre, q1, q2, post, after.
Qed.

Lemma extracted_link_in_text_witness :
  ∃ before pre q1 q2 post after,
    str "<p><img alt='x' src='/a.jpg' width=1></p>"
    = before ++ (str "<img" ++ pre ++ str "src=" ++ [q1] ++ str "/a.jpg" ++ [q2]
                   ++ post ++ str ">") ++ after ∧
    isQuote q1 = true ∧ isQuote q2 = true ∧ pre ≠ [] ∧
    forallb notGt pre = true ∧ forallb notGt post = true.
Proof.
  apply extracted_link_in_text. vm_compute. left.
Defined.

(** ** One fetch *)

Section DownloadProperties.
Context `{Unicode} (E : Env).

(** One call of [downloadAndSaveImage] sends at most one request, to the
    resolved URL; it removes no file, sets no progress value and leaves
    the output file alone. *)
Theorem downloadAndSaveImage_effects (imageURL hostname imagedir : bytes) (w : World) :
  let w' := (downloadAndSaveImage E imageURL hostname imagedir w).2 in
  (requests w' = requests w ∨ requests w' = resolveURL imageURL hostname :: requests w) ∧
  present w ⊆ present w' ∧ emitted w' = emitted w ∧ written w' = written w.
Proof.
  unfold downloadAndSaveImage. cbv zeta.
  assert (∀ p q, present w ⊆ {[p]} ∪ ({[q]} ∪ present w)) as Hsub2.
  { intros p q. etrans; [|apply union_subseteq_r]. apply union_subseteq_r. }
  destruct (url_Parse E _) as [Path|]; [|by split_and!; [left| | |]].
  destruct (os_MkdirAll E w _); cbn [negb]; [|by split_and!; [left| | |]].
  destruct (statOK _ _); [split_and!; [by left | apply union_subseteq_r | done | done]|].
  destruct (http_NewRequest E _ _); cbn [negb];
    [|split_and!; [by left | apply union_subseteq_r | done | done]].
  destruct (client_Do E _ _) as [resp|];
    [|split_and!; [by right | apply union_subseteq_r | done | done]].
  destruct (StatusCode resp =? 200); cbn [negb];
    [|split_and!; [by right | apply union_subseteq_r | done | done]].
  destruct (os_Create E _ _); cbn [negb];
    [|split_and!; [by right | apply union_subseteq_r | done | done]].
  destruct (io_Copy E _ _); cbn [negb];
    [|split_and!; [by right | apply Hsub2 | done | done]].
  destruct (if 0 <? ContentLength resp then _ else _) as [size|];
    [destruct (size =? ContentLength resp); cbn [negb]|];
    (split_and!; [by right | apply Hsub2 | done | done]).
Qed.

(** When the target file is already there, the call answers with the
    relative path at once: no request is made and nothing is written. *)
Theorem downloadAndSaveImage_existing (imageURL hostname imagedir Path : bytes) (w : World) :
  let url := resolveURL imageURL hostname in
  let dir := filepath_Join E (str "files") imagedir in
  url_Parse E url = Some Path →
  os_MkdirAll E w dir = true →
  filepath_Join E dir (synthFilename url Path) ∈ present w →
  downloadAndSaveImage E imageURL hostname imagedir w
  = (inr (imagedir ++ synthFilename url Path), touch dir w).
Proof.
  intros url dir Hparse Hmk Hin. unfold downloadAndSaveImage. cbv zeta.
  fold url. rewrite Hparse. fold dir. rewrite Hmk. cbn [negb].
  unfold statOK. rewrite bool_decide_eq_true_2; [done|].
  cbn [touch present]. apply elem_of_union. by right.
Qed.

(** A successful call returns the image directory followed by the
    synthesized filename, and the file of that name then exists under
    [files/<imagedir>]. *)
Theorem downloadAndSaveImage_success (imageURL hostname imagedir newPath : bytes)
        (w w' : World) :
  downloadAndSaveImage E imageURL hostname imagedir w = (inr newPath, w') →
  ∃ Path,
    let url := resolveURL imageURL hostname in
    url_Parse E url = Some Path ∧
    newPath = imagedir ++ synthFilename url Path ∧
    filepath_Join E (filepath_Join E (str "files") imagedir) (synthFilename url Path)
      ∈ present w'.
Proof.
  unfold downloadAndSaveImage. cbv zeta.
  destruct (url_Parse E _) as [Path|]; [|done].
  destruct (os_MkdirAll E w _); cbn [negb]; [|done].
  destruct (statOK _ _) eqn:Hstat.
  { intros [= <- <-]. exists Path. split_and!; [done | done |].
    unfold statOK in Hstat. by apply bool_decide_eq_true in Hstat. }
  destruct (http_NewRequest E _ _); cbn [negb]; [|done].
  destruct (client_Do E _ _) as [resp|]; [|done].
  destruct (StatusCode resp =? 200); cbn [negb]; [|done].
  destruct (os_Create E _ _); cbn [negb]; [|done].
  destruct (io_Copy E _ _); cbn [negb]; [|done].
  destruct (if 0 <? ContentLength resp then _ else _) as [size|];
    [destruct (size =? ContentLength resp); cbn [negb]; [|done]|];
    (intros [= <- <-]; exists Path; split_and!; [done | done |];
     cbn [touch request present]; apply elem_of_union; left; by apply elem_of_singleton).
Qed.

(** An answer other than 200 ends the call after its one request and
    before any file is created: only the directory has been made. *)
Theorem downloadAndSaveImage_bad_status (imageURL hostname imagedir : bytes) (status : Z)
        (w w' : World) :
  downloadAndSaveImage E imageURL hostname imagedir w = (inl (FailedToDownload status), w') →
  status ≠ 200 ∧
  w' = request (resolveURL imageURL hostname)
               (touch (filepath_Join E (str "files") imagedir) w).
Proof.
  unfold downloadAndSaveImage. cbv zeta.
  destruct (url_Parse E _) as [Path|]; [|done].
  destruct (os_MkdirAll E w _); cbn [negb]; [|done].
  destruct (statOK _ _); [done|].
  destruct (http_NewRequest E _ _); cbn [negb]; [|done].
  destruct (client_Do E _ _) as [resp|]; [|done].
  destruct (Z.eqb_spec (StatusCode resp) 200); cbn [negb];
    [|by intros [= <- <-]].
  destruct (os_Create E _ _); cbn [negb]; [|done].
  destruct (io_Copy E _ _); cbn [negb]; [|done].
  destruct (if 0 <? ContentLength resp then _ else _) as [size|];
    [destruct (size =? ContentLength resp); cbn [negb]|]; done.
Qed.

(** A call that fails while saving, or on the size check, leaves the
    file behind; the next call for the same reference finds it and
    answers with its path without asking the server again. *)
Theorem downloadAndSaveImage_retry (imageURL hostname imagedir : bytes) (err : DownloadError)
        (w w1 : World) :
  downloadAndSaveImage E imageURL hostname imagedir w = (inl err, w1) →
  err = FailedToSave ∨ (∃ expected got, err = FileSizeMismatch expected got) →
  os_MkdirAll E w1 (filepath_Join E (str "files") imagedir) = true →
  ∃ Path,
    url_Parse E (resolveURL imageURL hostname) = Some Path ∧
    downloadAndSaveImage E imageURL hostname imagedir w1
    = (inr (imagedir ++ synthFilename (resolveURL imageURL hostname) Path),
       touch (filepath_Join E (str "files") imagedir) w1).
Proof.
  intros Hfirst Herr Hmk.
  assert (∃ Path, url_Parse E (resolveURL imageURL hostname) = Some Path ∧
            filepath_Join E (filepath_Join E (str "files") imagedir)
              (synthFilename (resolveURL imageURL hostname) Path) ∈ present w1)
    as (Path & Hparse & Hin).
  { revert Hfirst. unfold downloadAndSaveImage. cbv zeta.
    destruct (url_Parse E _) as [Path|]; [|intros [= <- <-]; naive_solver].
    destruct (os_MkdirAll E w _); cbn [negb]; [|intros [= <- <-]; naive_solver].
    destruct (statOK _ _); [done|].
    destruct (http_NewRequest E _ _); cbn [negb]; [|intros [= <- <-]; naive_solver].
    destruct (client_Do E _ _) as [resp|]; [|intros [= <- <-]; naive_solver].
    destruct (StatusCode resp =? 200); cbn [negb]; [|intros [= <- <-]; naive_solver].
    destruct (os_Create E _ _); cbn [negb]; [|intros [= <- <-]; naive_solver].
    assert (∀ dir file u, file ∈ present (touch file (request u (touch dir w)))) as Hthere.
    { intros dir file u. cbn [touch request present]. apply elem_of_union. left.
      by apply elem_of_singleton. }
    destruct (io_Copy E _ _); cbn [negb];
      [|intros [= <- <-]; exists Path; split; [done | apply Hthere]].
    destruct (if 0 <? ContentLength resp then _ else _) as [size|];
      [destruct (size =? ContentLength resp); cbn [negb]|]; try done.
    intros [= <- <-]. exists Path. split; [done | apply Hthere]. }
  exists Path. split; [done|]. unfold downloadAndSaveImage. cbv zeta.
  rewrite Hparse, Hmk. cbn [negb]. unfold statOK. rewrite bool_decide_eq_true_2; [done|].
  cbn [touch present]. apply elem_of_union. by right.
Qed.

End DownloadProperties.

Lemma downloadAndSaveImage_existing_witness :
  let w := touch (str "files/u/cf3a--a.jpg") emptyWorld in
  downloadAndSaveImage (exampleEnv (λ _, 404)) (str "/a.jpg") (str "https://site.ua")
                       (str "/u/") w
  = (inr (str "/u/" ++ synthFilename (str "https://site.ua/a.jpg") (str "/a.jpg")),
     touch (str "files/u") w).
Proof.
  apply (downloadAndSaveImage_existing (exampleEnv (λ _, 404)) (str "/a.jpg")
           (str "https://site.ua") (str "/u/") (str "/a.jpg")).
  - vm_compute. reflexivity.
  - reflexivity.
  - cbn [touch present emptyWorld]. apply elem_of_union. left. apply elem_of_singleton.
    vm_compute. reflexivity.
Defined.

Lemma downloadAndSaveImage_success_witness :
  ∃ Path,
    let url := resolveURL (str "/a.jpg") (str "https://site.ua") in
    url_Parse (exampleEnv (λ _, 200)) url = Some Path ∧
    str "/u/cf3a--a.jpg" = str "/u/" ++ synthFilename url Path ∧
    filepath_Join (exampleEnv (λ _, 200))
      (filepath_Join (exampleEnv (λ _, 200)) (str "files") (str "/u/"))
      (synthFilename url Path)
      ∈ present (touch (str "files/u/cf3a--a.jpg")
                   (request (str "https://site.ua/a.jpg") (touch (str "files/u") emptyWorld))).
Proof.
  apply (downloadAndSaveImage_success (exampleEnv (λ _, 200)) (str "/a.jpg")
           (str "https://site.ua") (str "/u/") (str "/u/cf3a--a.jpg") emptyWorld).
  vm_compute. reflexivity.
Defined.

Lemma downloadAndSaveImage_bad_status_witness :
  404 ≠ 200 ∧
  request (str "https://site.ua/a.jpg") (touch (str "files/u") emptyWorld)
  = request (resolveURL (str "/a.jpg") (str "https://site.ua"))
            (touch (filepath_Join (exampleEnv (λ _, 404)) (str "files") (str "/u/"))
                   emptyWorld).
Proof.
  apply (downloadAndSaveImage_bad_status (exampleEnv (λ _, 404)) (str "/a.jpg")
           (str "https://site.ua") (str "/u/") 404 emptyWorld).
  vm_compute. reflexivity.
Defined.

Lemma downloadAndSaveImage_retry_witness :
  let E := truncatingEnv 100 40 in
  let w1 := touch (str "files/u/cf3a--a.jpg")
              (request (str "https://site.ua/a.jpg") (touch (str "files/u") emptyWorld)) in
  ∃ Path,
    url_Parse E (resolveURL (str "/a.jpg") (str "https://site.ua")) = Some Path ∧
    downloadAndSaveImage E (str "/a.jpg") (str "https://site.ua") (str "/u/") w1
    = (inr (str "/u/" ++ synthFilename (resolveURL (str "/a.jpg") (str "https://site.ua")) Path),
       touch (filepath_Join E (str "files") (str "/u/")) w1).
Proof.
  apply (downloadAndSaveImage_retry (truncatingEnv 100 40) (str "/a.jpg")
           (str "https://site.ua") (str "/u/") (FileSizeMismatch 100 40) emptyWorld).
  - vm_compute. reflexivity.
  - right. by exists 100, 40.
  - reflexivity.
Defined.

(** ** The header map *)

Lemma fold_insert_lookup_Some (l : list bytes) :
  ∀ (o : nat) (m0 : gmap bytes nat) (k : bytes) (i : nat),
    fold_left (λ m ih, <[ih.2 := ih.1]> m) (imap (λ j, pair (o + j)%nat) l) m0 !! k = Some i ↔
    (∃ j, i = (o + j)%nat ∧ l !! j = Some k ∧ ∀ j', (j < j')%nat → l !! j' ≠ Some k) ∨
    ((k ∉ l) ∧ m0 !! k = Some i).
Proof.
  induction l as [|x l IH]; intros o m0 k i.
  { simpl. split; [intros Hm; right; split; [apply not_elem_of_nil | done]|].
    intros [(j & _ & Hj & _)|[_ Hm]]; [by rewrite lookup_nil in Hj | done]. }
  cbn [imap fold_left fst snd].
  rewrite (imap_ext _ (λ j, pair (S o + j)%nat) l)
    by (intros j y _; simpl; f_equal; lia).
  rewrite IH. clear IH. split.
  - intros [(j & -> & Hj & Hlast)|[Hk Hm]].
    + left. exists (S j). split_and!; [lia | done |].
      intros [|j'] Hlt; [lia|]. simpl. apply Hlast. lia.
    + destruct (decide (x = k)) as [->|Hne].
      * rewrite lookup_insert_eq in Hm. injection Hm as <-.
        left. exists 0%nat. split_and!; [done | done |].
        intros [|j'] Hlt; [lia|]. simpl. intros Hj. apply Hk. by eapply list_elem_of_lookup_2.
      * rewrite lookup_insert_ne in Hm by done. right. split; [|done].
        apply not_elem_of_cons. split; [done | done].
  - intros [(j & -> & Hj & Hlast)|[Hk Hm]].
    + destruct j as [|j].
      * simpl in Hj. injection Hj as ->. right. split.
        -- intros [j Hj]%list_elem_of_lookup_1. apply (Hlast (S j)); [lia | done].
        -- by rewrite lookup_insert_eq.
      * left. exists j. split_and!; [lia | done |].
        intros j' Hlt. apply (Hlast (S j')). lia.
    + apply not_elem_of_cons in Hk as [Hne Hk]. right. split; [done|].
      by rewrite lookup_insert_ne.
Qed.

(** The header map gives a name the index of its last occurrence in the
    header row: of two columns with one name the later one is used. *)
Theorem headerMapOf_last (headers : list bytes) (k : bytes) (i : nat) :
  headerMapOf headers !! k = Some i ↔
  headers !! i = Some k ∧ ∀ j, (i < j)%nat → headers !! j ≠ Some k.
Proof.
  unfold headerMapOf.
  change (imap pair headers) with (imap (λ j, pair (0 + j)%nat) headers).
  rewrite fold_insert_lookup_Some, lookup_empty. split.
  - intros [(j & -> & Hj & Hlast)|[_ ?]]; [done | done].
  - intros [Hi Hlast]. left. by exists i.
Qed.

(** ** The phases of a run *)

Lemma collectLinks_Some_Forall (iUk iRu : nat) (rows : list (list bytes)) :
  ∀ set set', collectLinks iUk iRu rows set = Some set' →
    Forall (λ row : list bytes, (iUk < length row)%nat ∧ (iRu < length row)%nat) rows.
Proof.
  induction rows as [|row rows IH]; intros set set'; simpl; [done|].
  destruct (row !! iUk) as [bodyUk|] eqn:Huk; [|done].
  destruct (row !! iRu) as [bodyRu|] eqn:Hru; [|done].
  intros Hc. constructor; [|by eapply IH].
  split; by eapply lookup_lt_Some.
Qed.

Lemma rewriteRows_inv (iUk iRu : nat) (m : gmap bytes bytes) (total : nat)
      (rows : list (list bytes)) :
  ∀ n w rows' n' w',
    rewriteRows iUk iRu m total rows n w = Some (rows', n', w') →
    rows' = map (rewriteRow iUk iRu m) rows ∧
    present w' = present w ∧ requests w' = requests w ∧ written w' = written w.
Proof.
  induction rows as [|row rows IH]; intros n w rows' n' w'; simpl.
  { by intros [= <- <- <-]. }
  destruct (row !! iUk) as [bodyUk|] eqn:Huk; [|done].
  destruct (row !! iRu) as [bodyRu|] eqn:Hru; [|done].
  destruct (rewriteRows iUk iRu m total rows (S n) _) as [[[rs k] w0]|] eqn:Hr; [|done].
  intros [= <- <- <-]. apply IH in Hr as (-> & Hp & Hq & Hw).
  split_and!; [|done..]. unfold rewriteRow. by rewrite Huk, Hru.
Qed.

Lemma rewriteRow_empty (iUk iRu : nat) (row : list bytes) :
  rewriteRow iUk iRu ∅ row = row.
Proof.
  unfold rewriteRow.
  assert (∀ i (r : list bytes), <[i := replaceImageLinks (default [] (r !! i)) ∅]> r = r)
    as Hid.
  { intros i r. destruct (r !! i) as [body|] eqn:Hi.
    - apply list_insert_id. rewrite Hi. f_equal. symmetry.
      change (default [] (Some body)) with body.
      unfold replaceImageLinks, ReplaceAllStringFunc.
      apply replaceAll_fixed, Forall_forall. intros tag _. rewrite replaceTag_srcOf.
      destruct (srcOf tag); [|done]. by rewrite lookup_empty.
    - apply list_insert_ge. by apply lookup_ge_None. }
  by rewrite !Hid.
Qed.

Section RunProperties.
Context `{Unicode} (E : Env).

Lemma download_frame (link hostname imagedir : bytes) (w : World) :
  let w' := (downloadAndSaveImage E link hostname imagedir w).2 in
  (requests w' = requests w ∨ requests w' = resolveURL link hostname :: requests w) ∧
  emitted w' = emitted w ∧ written w' = written w.
Proof.
  unfold downloadAndSaveImage. cbv zeta.
  repeat case_match; simpl; split_and!; auto.
Qed.

Lemma download_path (link hostname imagedir newPath : bytes) (w : World) :
  (downloadAndSaveImage E link hostname imagedir w).1 = inr newPath →
  ∃ Path, url_Parse E (resolveURL link hostname) = Some Path ∧
          newPath = imagedir ++ synthFilename (resolveURL link hostname) Path.
Proof.
  unfold downloadAndSaveImage. cbv zeta.
  destruct (url_Parse E _) as [Path|]; [|done].
  repeat case_match; simpl; try done; intros [= <-]; by exists Path.
Qed.

Lemma downloadAll_effects (hostname imagedir : bytes) (total : nat) (links : list bytes) :
  ∀ m0 n0 w, ∃ reqs ems,
    let r := downloadAll E hostname imagedir total links m0 n0 w in
    requests r.2 = reqs ++ requests w ∧
    (∀ u, u ∈ reqs → ∃ link, link ∈ links ∧ u = resolveURL link hostname) ∧
    (length reqs ≤ length links)%nat ∧
    emitted r.2 = ems ++ emitted w ∧
    r.1.2 = (n0 + length ems)%nat ∧
    (length ems ≤ length links)%nat ∧
    Forall (λ p, ∃ k, p = PRatio k total ∧ (n0 < k ≤ n0 + length links)%nat) ems ∧
    written r.2 = written w.
Proof.
  induction links as [|l links IH]; intros m0 n0 w.
  { exists [], []. simpl. split_and!; first [done | lia | by intros u ?%elem_of_nil]. }
  cbn [downloadAll].
  pose proof (download_frame l hostname imagedir w) as (Hreq & Hem & Hwr).
  destruct (downloadAndSaveImage E l hostname imagedir w) as [[err|newPath] w1];
    cbn [snd] in Hreq, Hem, Hwr.
  - destruct (IH m0 n0 w1) as (reqs & ems & Hr & Hfrom & Hlen & He & Hn & Hlen' & Hall & Hw).
    cbv zeta in *.
    exists (reqs ++ if decide (requests w1 = requests w) then []
                    else [resolveURL l hostname]), ems.
    split_and!.
    + rewrite Hr. case_decide as Hd; [by rewrite Hd, app_nil_r|].
      destruct Hreq as [? | ->]; [done|]. by rewrite <- app_assoc.
    + intros u [Hu|Hu]%elem_of_app.
      * destruct (Hfrom u Hu) as (link & ? & ?). exists link. split; [by right | done].
      * case_decide; [by apply elem_of_nil in Hu|].
        apply list_elem_of_singleton in Hu as ->. exists l. split; [by left | done].
    + rewrite length_app. case_decide; simpl; lia.
    + by rewrite He, Hem.
    + done.
    + simpl. lia.
    + eapply Forall_impl; [exact Hall|]. intros p (k & -> & ?). exists k. split; [done|].
      simpl. lia.
    + by rewrite Hw.
  - destruct (IH (<[l := newPath]> m0) (S n0) (emit (PRatio (S n0) total) w1))
      as (reqs & ems & Hr & Hfrom & Hlen & He & Hn & Hlen' & Hall & Hw).
    cbv zeta in *. cbn [emit requests emitted written] in *.
    exists (reqs ++ if decide (requests w1 = requests w) then []
                    else [resolveURL l hostname]), (ems ++ [PRatio (S n0) total]).
    split_and!.
    + rewrite Hr. case_decide as Hd; [by rewrite Hd, app_nil_r|].
      destruct Hreq as [? | ->]; [done|]. by rewrite <- app_assoc.
    + intros u [Hu|Hu]%elem_of_app.
      * destruct (Hfrom u Hu) as (link & ? & ?). exists link. split; [by right | done].
      * case_decide; [by apply elem_of_nil in Hu|].
        apply list_elem_of_singleton in Hu as ->. exists l. split; [by left | done].
    + rewrite length_app. case_decide; simpl; lia.
    + by rewrite He, Hem, <- app_assoc.
    + rewrite Hn, length_app. simpl. lia.
    + rewrite length_app. simpl. lia.
    + apply Forall_app. split.
      * eapply Forall_impl; [exact Hall|]. intros p (k & -> & ?). exists k. split; [done|].
        simpl. lia.
      * repeat constructor. exists (S n0). split; [done|]. simpl. lia.
    + by rewrite Hw.
Qed.

Lemma downloadAll_paths (hostname imagedir : bytes) (total : nat) (links : list bytes) :
  ∀ m0 n0 w link newPath,
    (downloadAll E hostname imagedir total links m0 n0 w).1.1 !! link = Some newPath →
    m0 !! link = Some newPath ∨
    ∃ Path, url_Parse E (resolveURL link hostname) = Some Path ∧
            newPath = imagedir ++ synthFilename (resolveURL link hostname) Path.
Proof.
  induction links as [|l links IH]; intros m0 n0 w link newPath; cbn [downloadAll].
  { by left. }
  pose proof (download_path l hostname imagedir) as Hpath. specialize (Hpath) with (w := w).
  destruct (downloadAndSaveImage E l hostname imagedir w) as [[err|p] w1]; cbn [fst] in Hpath.
  - apply IH.
  - intros [Hm|?]%IH; [|by right].
    destruct (decide (l = link)) as [->|Hne].
    + rewrite lookup_insert_eq in Hm. injection Hm as ->. right. by apply Hpath.
    + rewrite lookup_insert_ne in Hm by done. by left.
Qed.

Lemma writeRecords_prefix (name : bytes) (comma : Z) (records : list (list bytes)) :
  ∀ sofar w,
    written w = Some (name, comma, sofar) →
    ∃ p,
      let r := writeRecords E name comma records sofar w in
      written r.2 = Some (name, comma, sofar ++ p) ∧ p `prefix_of` records ∧
      (r.1 = Done ∧ p = records ∨ r.1 = WriteError ∧ p ≠ records).
Proof.
  induction records as [|rec records IH]; intros sofar w Hw; cbn [writeRecords].
  { exists []. simpl. rewrite app_nil_r. split_and!; [done | done | by left]. }
  destruct (writer_Write E w rec).
  - destruct (IH (sofar ++ [rec]) (setWritten (Some (name, comma, sofar ++ [rec])) w))
      as (p & Hw' & Hp & Hres); [done|].
    exists (rec :: p). cbv zeta in *. split_and!.
    + by rewrite Hw', <- app_assoc.
    + by apply prefix_cons.
    + destruct Hres as [[? ->]|[? Hne]]; [by left|]. right. split; [done|]. congruence.
  - exists []. simpl. rewrite app_nil_r. split_and!; [done | apply prefix_nil | by right].
Qed.

(** [writeCSV] writes the records in order and stops at the first one
    the writer refuses: the output file holds a prefix of the records
    under the chosen delimiter, all of them exactly when the call
    returns no error.  When the file cannot be created nothing happens. *)
Theorem writeCSV_writes_prefix (records : list (list bytes))
        (outputFileName selectedSeparator : bytes) (w : World) :
  let r := writeCSV E records outputFileName selectedSeparator w in
  if os_Create E w outputFileName then
    ∃ p, written r.2 = Some (outputFileName, separatorOf selectedSeparator, p) ∧
         p `prefix_of` records ∧
         (r.1 = Done ∧ p = records ∨ r.1 = WriteError ∧ p ≠ records)
  else r.1 = WriteError ∧ r.2 = w.
Proof.
  unfold writeCSV. destruct (os_Create E w outputFileName); cbn [negb]; [|done].
  cbv zeta.
  destruct (writeRecords_prefix outputFileName (separatorOf selectedSeparator) records []
              (setWritten (Some (outputFileName, separatorOf selectedSeparator, []))
                          (touch outputFileName w)) eq_refl) as (p & Hp).
  by exists p.
Qed.


(** Every value of the map built by the download phase is the image
    directory followed by the synthesized filename of its reference. *)
Theorem download_phase_paths (hostname imagedir : bytes) (total : nat) (links : list bytes)
        (w : World) (link newPath : bytes) :
  (downloadAll E hostname imagedir total links ∅ 0%nat w).1.1 !! link = Some newPath →
  link ∈ links ∧
  ∃ Path, url_Parse E (resolveURL link hostname) = Some Path ∧
          newPath = imagedir ++ synthFilename (resolveURL link hostname) Path.
Proof.
  intros Hm. split.
  - destruct (downloadAll_dom E hostname imagedir total links ∅ 0%nat w link) as [Hd|?];
      [by apply elem_of_dom | | done].
    rewrite dom_empty_L in Hd. by apply elem_of_empty in Hd.
  - apply downloadAll_paths in Hm as [Hm|?]; [|done]. by rewrite lookup_empty in Hm.
Qed.

(** Every request of a run goes to the resolved form of a reference
    that stands in some cell of a data row; nothing else is fetched. *)
Theorem processRecords_requests (records : list (list bytes))
        (hostname imagedir outputFileName selectedSeparator : bytes) (w : World) :
  let w' := (processRecords E records hostname imagedir outputFileName
                            selectedSeparator w).1.2 in
  ∃ reqs,
    requests w' = reqs ++ requests w ∧
    ∀ u, u ∈ reqs →
      ∃ row body link, row ∈ tail records ∧ body ∈ row ∧
                       link ∈ extractImageLinks body ∧ u = resolveURL link hostname.
Proof.
  unfold processRecords.
  destruct (length records <? 2)%nat; [by exists []; split; [|intros u ?%elem_of_nil]|].
  destruct (headerMapOf _ !! str "body_uk") as [iUk|];
    [|by exists []; split; [|intros u ?%elem_of_nil]].
  destruct (headerMapOf _ !! str "body_ru") as [iRu|];
    [|by exists []; split; [|intros u ?%elem_of_nil]].
  cbv zeta.
  destruct (collectLinks iUk iRu (tail records) ∅) as [set|] eqn:Hc;
    [|by exists []; split; [|intros u ?%elem_of_nil]].
  pose proof (collectLinks_Some_Forall _ _ _ _ _ Hc) as Hrows.
  apply collectLinks_spec in Hc. rewrite (left_id_L ∅ (∪)) in Hc.
  destruct (downloadAll_effects hostname imagedir (length (mapOrder E set)) (mapOrder E set)
              ∅ 0%nat (emit PZero w)) as (reqs & ems & Hr & Hfrom & _).
  cbv zeta in Hr. cbn [emit requests] in Hr.
  destruct (downloadAll E hostname imagedir _ _ ∅ 0%nat (emit PZero w)) as [[m steps] w0].
  cbn [fst snd] in Hr.
  exists reqs. split.
  - destruct (rewriteRows iUk iRu m _ (tail records) steps w0) as [[[rows n] w1]|] eqn:Hrw;
      [|done].
    apply rewriteRows_inv in Hrw as (_ & _ & Hq & _).
    pose proof (writeCSV_frame E (default [] (head records) :: rows) outputFileName
                  selectedSeparator w1) as Hf.
    destruct (writeCSV E _ outputFileName selectedSeparator w1) as [res w2].
    cbn [fst snd] in *. by rewrite Hf, Hq.
  - intros u (link & Hlink & ->)%Hfrom.
    rewrite (mapOrder_perm E set), elem_of_elements, Hc, elem_of_list_to_set in Hlink.
    unfold harvested in Hlink.
    apply list_elem_of_In, in_concat in Hlink as (ls & (row & <- & Hrow)%in_map_iff & Hin).
    apply list_elem_of_In in Hrow, Hin.
    eapply Forall_forall in Hrows as [Huk Hru]; [|exact Hrow].
    apply lookup_lt_is_Some_2 in Huk as [bodyUk Huk].
    apply lookup_lt_is_Some_2 in Hru as [bodyRu Hru].
    rewrite Huk, Hru in Hin. cbn [default] in Hin.
    apply elem_of_app in Hin as [Hin|Hin].
    + exists row, bodyUk, link. split_and!; [done | by eapply list_elem_of_lookup_2 | done..].
    + exists row, bodyRu, link. split_and!; [done | by eapply list_elem_of_lookup_2 | done..].
Qed.

(** A run keeps the shape of the table: the number of rows, the header
    row and the length of every row; and every cell in a column whose
    header is neither [body_uk] nor [body_ru] is as it was. *)
Theorem processRecords_table_shape (records : list (list bytes))
        (hostname imagedir outputFileName selectedSeparator : bytes) (w : World) :
  let output := (processRecords E records hostname imagedir outputFileName
                                selectedSeparator w).2 in
  length output = length records ∧ head output = head records ∧
  ∀ i row row', records !! i = Some row → output !! i = Some row' →
    length row' = length row ∧
    ∀ j h, default [] (head records) !! j = Some h →
           h ≠ str "body_uk" → h ≠ str "body_ru" → row' !! j = row !! j.
Proof.
  assert (∀ rs : list (list bytes),
            length rs = length rs ∧ head rs = head rs ∧
            ∀ i row row', rs !! i = Some row → rs !! i = Some row' →
              length row' = length row ∧
              ∀ j h, default [] (head records) !! j = Some h →
                     h ≠ str "body_uk" → h ≠ str "body_ru" → row' !! j = row !! j) as Hsame.
  { intros rs. split_and!; [done | done |]. intros i row row' -> [= ->]. done. }
  unfold processRecords.
  destruct (Nat.ltb_spec (length records) 2) as [|Hlen]; [apply Hsame|].
  destruct (headerMapOf _ !! str "body_uk") as [iUk|] eqn:Huk; [|apply Hsame].
  destruct (headerMapOf _ !! str "body_ru") as [iRu|] eqn:Hru; [|apply Hsame].
  cbv zeta.
  destruct (collectLinks iUk iRu (tail records) ∅) as [set|]; [|apply Hsame].
  destruct (downloadAll E hostname imagedir _ _ ∅ 0%nat (emit PZero w)) as [[m steps] w0].
  destruct (rewriteRows iUk iRu m _ (tail records) steps w0) as [[[rows n] w1]|] eqn:Hrw;
    [|apply Hsame].
  apply rewriteRows_inv in Hrw as (-> & _).
  destruct (writeCSV E _ outputFileName selectedSeparator w1) as [res w2]. cbn [snd].
  apply headerMapOf_last in Huk as [Huk _]. apply headerMapOf_last in Hru as [Hru _].
  destruct records as [|headers rows]; [simpl in Hlen; lia|].
  cbn [head tail default] in *. split_and!.
  - simpl. by rewrite length_map.
  - done.
  - intros [|i] row row'; [by intros [= ->] [= ->]|]. simpl.
    rewrite list_lookup_fmap. intros ->. cbn [fmap option_fmap option_map]. intros [= <-].
    unfold rewriteRow. rewrite !length_insert. split; [done|].
    intros j h Hj Hh1 Hh2.
    rewrite !list_lookup_insert_ne; [done | |]; intros ->; unfold id in *.
    + rewrite Hj in Huk. injection Huk as ->. by apply Hh1.
    + rewrite Hj in Hru. injection Hru as ->. by apply Hh2.
Qed.

(** With a valid header, a run ends in the index panic exactly when some
    data row is too short for one of the two columns; it then stops in
    the first loop: nothing is requested, nothing is written and the
    rows are untouched. *)
Theorem processRecords_index_panic (records : list (list bytes))
        (hostname imagedir outputFileName selectedSeparator : bytes) (w : World)
        (iUk iRu : nat) :
  (2 ≤ length records)%nat →
  headerMapOf (default [] (head records)) !! str "body_uk" = Some iUk →
  headerMapOf (default [] (head records)) !! str "body_ru" = Some iRu →
  let r := processRecords E records hostname imagedir outputFileName selectedSeparator w in
  (r.1.1 = IndexPanic ↔
   Exists (λ row : list bytes, (length row ≤ iUk)%nat ∨ (length row ≤ iRu)%nat)
          (tail records)) ∧
  (r.1.1 = IndexPanic → r.1.2 = emit PZero w ∧ r.2 = records).
Proof.
  intros Hlen Huk Hru. unfold processRecords.
  destruct (Nat.ltb_spec (length records) 2); [lia|].
  rewrite Huk, Hru. cbv zeta.
  destruct (collectLinks iUk iRu (tail records) ∅) as [set|] eqn:Hc.
  - pose proof (collectLinks_Some_Forall _ _ _ _ _ Hc) as Hrows.
    destruct (downloadAll E hostname imagedir _ _ ∅ 0%nat (emit PZero w)) as [[m steps] w0].
    destruct (rewriteRows_total iUk iRu m (length (mapOrder E set)) _ Hrows steps w0)
      as (w1 & -> & _).
    pose proof (writeCSV_writes_prefix
                  (default [] (head records) :: map (rewriteRow iUk iRu m) (tail records))
                  outputFileName selectedSeparator w1) as Hres.
    cbv zeta in Hres.
    destruct (writeCSV E _ outputFileName selectedSeparator w1) as [res w2].
    cbn [fst snd] in *.
    assert (res ≠ IndexPanic) as Hne.
    { destruct (os_Create E w1 outputFileName).
      - destruct Hres as (p & _ & _ & [[-> _]|[-> _]]); done.
      - by destruct Hres as [-> _]. }
    split; [|done]. split; [done|].
    intros Hex. apply Exists_exists in Hex as (row & Hrow & Hshort).
    eapply Forall_forall in Hrows; [|exact Hrow]. lia.
  - split; [|done]. split; [|done]. intros _. by eapply collectLinks_None.
Qed.

(** A table with a valid header whose rows reach both columns and hold
    no image reference is handed to [writeCSV] as it is, and no request
    is made. *)
Theorem processRecords_no_images (records : list (list bytes))
        (hostname imagedir outputFileName selectedSeparator : bytes) (w : World)
        (iUk iRu : nat) :
  (2 ≤ length records)%nat →
  headerMapOf (default [] (head records)) !! str "body_uk" = Some iUk →
  headerMapOf (default [] (head records)) !! str "body_ru" = Some iRu →
  Forall (λ row : list bytes, (iUk < length row)%nat ∧ (iRu < length row)%nat)
         (tail records) →
  harvested iUk iRu (tail records) = [] →
  ∃ w1,
    present w1 = present w ∧ requests w1 = requests w ∧ written w1 = written w ∧
    processRecords E records hostname imagedir outputFileName selectedSeparator w
    = ((writeCSV E records outputFileName selectedSeparator w1).1,
       (writeCSV E records outputFileName selectedSeparator w1).2,
       records).
Proof.
  intros Hlen Huk Hru Hrows Hnone.
  destruct (processRecords_run E records hostname imagedir outputFileName selectedSeparator
              w iUk iRu Hlen Huk Hru Hrows) as (set & w1 & Hc & Hp & Hq & Hw & Hrun).
  cbv zeta in *.
  apply collectLinks_spec in Hc. rewrite Hnone, (left_id_L ∅ (∪)) in Hc. simpl in Hc.
  assert (mapOrder E set = []) as Hlinks.
  { apply Permutation_nil_r. rewrite (mapOrder_perm E set), Hc. by rewrite elements_empty. }
  rewrite Hlinks in *. cbn [downloadAll length fst snd emit present requests written] in *.
  assert (default [] (head records) :: map (rewriteRow iUk iRu ∅) (tail records) = records)
    as Hsame.
  { destruct records as [|headers rows]; [simpl in Hlen; lia|]. cbn [head tail default].
    f_equal. rewrite <- (list_fmap_id rows) at 2. apply list_fmap_ext.
    intros i row _. apply rewriteRow_empty. }
  rewrite Hsame in Hrun. by exists w1.
Qed.

End RunProperties.

Lemma download_phase_paths_witness :
  str "/a.jpg" ∈ [str "/a.jpg"; str "/b.jpg"] ∧
  ∃ Path,
    url_Parse (exampleEnv (statusWithout (str "https://site.ua/b.jpg")))
              (resolveURL (str "/a.jpg") (str "https://site.ua")) = Some Path ∧
    str "/u/cf3a--a.jpg"
    = str "/u/" ++ synthFilename (resolveURL (str "/a.jpg") (str "https://site.ua")) Path.
Proof.
  apply (download_phase_paths (exampleEnv (statusWithout (str "https://site.ua/b.jpg")))
           (str "https://site.ua") (str "/u/") 2 [str "/a.jpg"; str "/b.jpg"] emptyWorld).
  vm_compute. reflexivity.
Defined.

Lemma processRecords_index_panic_witness :
  let r := processRecords (exampleEnv (λ _, 200)) shortRowTable (str "https://site.ua")
                          (str "/u/") (str "output.csv") (str "Comma (,)") emptyWorld in
  (r.1.1 = IndexPanic ↔
   Exists (λ row : list bytes, (length row ≤ 1)%nat ∨ (length row ≤ 2)%nat)
          (tail shortRowTable)) ∧
  (r.1.1 = IndexPanic → r.1.2 = emit PZero emptyWorld ∧ r.2 = shortRowTable).
Proof.
  apply (processRecords_index_panic (exampleEnv (λ _, 200)) shortRowTable).
  - simpl. lia.
  - vm_compute. reflexivity.
  - vm_compute. reflexivity.
Defined.

Lemma processRecords_no_images_witness :
  ∃ w1,
    present w1 = present emptyWorld ∧ requests w1 = requests emptyWorld ∧
    written w1 = written emptyWorld ∧
    processRecords (exampleEnv (λ _, 200)) plainTable (str "https://site.ua") (str "/u/")
                   (str "output.csv") (str "Comma (,)") emptyWorld
    = ((writeCSV (exampleEnv (λ _, 200)) plainTable (str "output.csv") (str "Comma (,)") w1).1,
       (writeCSV (exampleEnv (λ _, 200)) plainTable (str "output.csv") (str "Comma (,)") w1).2,
       plainTable).
Proof.
  apply (processRecords_no_images (exampleEnv (λ _, 200)) plainTable (str "https://site.ua")
           (str "/u/") (str "output.csv") (str "Comma (,)") emptyWorld 2 0).
  - simpl. lia.
  - vm_compute. reflexivity.
  - vm_compute. reflexivity.
  - repeat constructor; simpl; lia.
  - vm_compute. reflexivity.
Defined.

(** ** Extraction from plainly written texts *)

Lemma loop_all_fail {A} (p : ascii → bool) (k : bytes → option A) (t : bytes) (c : ascii)
      (rest : bytes) :
  p c = false →
  (∀ k1 t', t = k1 ++ t' → k (t' ++ c :: rest) = None) →
  loop p k (t ++ c :: rest) = None.
Proof.
  intros Hc. induction t as [|x t IH]; intros Hk.
  - simpl. rewrite Hc. apply (Hk [] []). done.
  - cbn [app loop]. rewrite IH.
    + destruct (p x); apply (Hk [] (x :: t)); done.
    + intros k1 t' ->. apply (Hk (x :: k1) t'). done.
Qed.

(** Greedy repetition with backtracking: the continuation's first
    success, counted from the longest run, is the result. *)
Lemma loop_first_success {A} (p : ascii → bool) (k : bytes → option A) (pre suf : bytes)
      (c : ascii) (rest : bytes) (a : A) :
  forallb p pre = true → forallb p suf = true → p c = false →
  (∀ k1 t, suf = k1 ++ t → k1 ≠ [] → k (t ++ c :: rest) = None) →
  k (suf ++ c :: rest) = Some a →
  loop p k (pre ++ suf ++ c :: rest) = Some a.
Proof.
  intros Hpre Hsuf Hc Hfail Hk. induction pre as [|x pre IH].
  - cbn [app]. destruct suf as [|y suf].
    + simpl. by rewrite Hc.
    + cbn [app loop]. cbn [forallb] in Hsuf. apply andb_true_iff in Hsuf as [-> _].
      rewrite loop_all_fail; [done | done |].
      intros k1 t' ->. by apply (Hfail (y :: k1) t').
  - cbn [forallb] in Hpre. apply andb_true_iff in Hpre as [Hx Hpre].
    cbn [app loop]. by rewrite Hx, (IH Hpre).
Qed.

Lemma isQuote_notGt (q : ascii) : isQuote q = true → notGt q = true.
Proof.
  unfold isQuote, notGt. intros [Hq|Hq]%orb_true_iff; apply Ascii.eqb_eq in Hq as ->; done.
Qed.

(** The rest of [imgRe] after [<img] and the first attributes can only
    match where [src=] and a quote stand. *)
Lemma run_src_head {A} (r : Regexp) (u : bytes) (cap : option bytes)
      (k : bytes → option bytes → option A) (a : A) :
  run (Lits (str "src=") (Cat (Class isQuote) r)) u cap k = Some a →
  ∃ c u', u = str "src=" ++ c :: u' ∧ isQuote c = true.
Proof.
  cbn [str list_ascii_of_string Lits run].
  destruct u as [|c0 [|c1 [|c2 [|c3 [|c4 u]]]]]; repeat (case_decide; [|done]); try done.
  destruct (isQuote c4) eqn:Hq; [|done]. intros _. subst. by exists c4, u.
Qed.

Lemma src_head_in_value (front t link post rest u' : bytes) (q2 c : ascii) :
  front ++ t = link ++ q2 :: post →
  forallb notQuote link = true → strings.HasSuffix link (str "src=") = false →
  isQuote q2 = true → forallb notQuote post = true →
  t ++ Zbyte 62 :: rest = str "src=" ++ c :: u' → isQuote c = true → False.
Proof.
  intros Hsplit Hlink Hsuffix Hq2 Hpost Hhead Hc.
  assert (∀ q, isQuote q = true → q ∈ str "src=" → False) as Hnot.
  { intros q Hq Hin. repeat (apply elem_of_cons in Hin as [->|Hin]; [by vm_compute in Hq|]).
    by apply elem_of_nil in Hin. }
  assert (∀ m tl, forallb notQuote m = true →
            m ++ tl = str "src=" ++ c :: u' →
            (length m < 5)%nat ∧ ∀ x tl', tl = x :: tl' →
               (length m < 4)%nat ∧ x ∈ str "src=" ∨ m = str "src=") as Hcases.
  { intros m tl Hm Heq.
    destruct m as [|m0 [|m1 [|m2 [|m3 [|m4 m]]]]]; cbn in Heq.
    - split; [simpl; lia|]. intros x tl' ->. left. split; [simpl; lia|].
      injection Heq as -> _. by left.
    - split; [simpl; lia|]. intros x tl' ->. left. split; [simpl; lia|].
      injection Heq as _ -> _. right. by left.
    - split; [simpl; lia|]. intros x tl' ->. left. split; [simpl; lia|].
      injection Heq as _ _ -> _. do 2 right. by left.
    - split; [simpl; lia|]. intros x tl' ->. left. split; [simpl; lia|].
      injection Heq as _ _ _ -> _. do 3 right. by left.
    - split; [simpl; lia|]. intros x tl' ->. right.
      by injection Heq as -> -> -> -> _.
    - exfalso. injection Heq as _ _ _ _ -> _.
      cbn [forallb] in Hm. rewrite !andb_true_iff in Hm.
      destruct Hm as (_ & _ & _ & _ & Hm & _). unfold notQuote in Hm. by rewrite Hc in Hm. }
  apply app_eq_inv in Hsplit as [(m & -> & Hm)|(m & -> & ->)].
  - (* [t] lies in the attributes after the value *)
    destruct m as [|x m]; cbn [app] in Hm.
    + subst t. cbn in Hhead. injection Hhead as -> _. by vm_compute in Hq2.
    + injection Hm as <- ->. rewrite forallb_app in Hpost.
      apply andb_true_iff in Hpost as [_ Ht].
      destruct (Hcases t (Zbyte 62 :: rest) Ht Hhead) as [_ Hgt].
      destruct (Hgt _ _ eq_refl) as [[_ Hin] | ->].
      * repeat (apply elem_of_cons in Hin as [Hin|Hin]; [by vm_compute in Hin|]).
        by apply elem_of_nil in Hin.
      * cbn in Hhead. injection Hhead as <-. by vm_compute in Hc.
  - (* [t] starts inside the value *)
    rewrite forallb_app in Hlink. apply andb_true_iff in Hlink as [_ Hm].
    rewrite <- app_assoc in Hhead. cbn [app] in Hhead.
    destruct (Hcases m _ Hm Hhead) as [_ Hq].
    destruct (Hq _ _ eq_refl) as [[_ Hin] | ->]; [exact (Hnot q2 Hq2 Hin)|].
    unfold strings.HasSuffix in Hsuffix. rewrite rev_app_distr in Hsuffix.
    cbn in Hsuffix. by repeat case_decide.
Qed.

(** At the head of a plainly written tag [imgRe] matches the whole tag
    and captures the quoted value. *)
Lemma matchHere_imgRe_plain (pre : bytes) (q1 : ascii) (link : bytes) (q2 : ascii)
      (post rest : bytes) :
  PlainPiece (PImg pre q1 link q2 post) →
  matchHere imgRe (renderPiece (PImg pre q1 link q2 post) ++ rest)
  = Some (length (renderPiece (PImg pre q1 link q2 post)), Some link).
Proof.
  intros (Hpre & Hpregt & Hq1 & Hq2 & Hlink & Hlq & Hlgt & Hsuffix & Hpq & Hpgt).
  destruct pre as [|a pre]; [done|]. destruct link as [|l link]; [done|].
  cbn [forallb] in Hpregt, Hlq. apply andb_true_iff in Hpregt as [Ha Hpregt].
  apply andb_true_iff in Hlq as [Hl Hlq].
  unfold matchHere, imgRe, renderPiece.
  set (whole := (str "<img" ++ _) ++ rest).
  set (k0 := λ (s' : bytes) (cap : option bytes), Some ((length whole - length s')%nat, cap)).
  set (tail := Cat (Class isQuote) _).
  assert (whole = str "<img" ++ a :: pre ++ (str "src=" ++ q1 :: (l :: link) ++ q2 :: post)
                    ++ Zbyte 62 :: rest) as Hwhole.
  { unfold whole. cbn [str list_ascii_of_string app]. rewrite <- !app_assoc.
    cbn [app]. do 5 f_equal. rewrite <- !app_assoc. cbn [app]. do 6 f_equal.
    by rewrite <- !app_assoc. }
  rewrite Hwhole at 1.
  change (run (Lits (str "<img") (Cat (Plus notGt) (Lits (str "src=") tail)))
              (str "<img" ++ a :: pre ++ (str "src=" ++ q1 :: (l :: link) ++ q2 :: post)
                 ++ Zbyte 62 :: rest) None k0)
    with (if notGt a
          then loop notGt (λ s'', run (Lits (str "src=") tail) s'' None k0)
                    (pre ++ (str "src=" ++ q1 :: (l :: link) ++ q2 :: post)
                       ++ Zbyte 62 :: rest)
          else None).
  rewrite Ha.
  apply loop_first_success; [done | | done | |].
  - cbn [forallb] in Hlgt. apply andb_true_iff in Hlgt as [Hlg Hlgt].
    cbn [str list_ascii_of_string app forallb].
    rewrite (isQuote_notGt q1 Hq1), Hlg, forallb_app. cbn [forallb].
    rewrite Hlgt, (isQuote_notGt q2 Hq2), Hpgt. reflexivity.
  - intros k1 t Hsplit Hk1.
    destruct (run (Lits (str "src=") tail) (t ++ Zbyte 62 :: rest) None k0) eqn:Hrun; [|done].
    exfalso. apply run_src_head in Hrun as (c & u' & Hhead & Hc).
    assert (∀ q, isQuote q = true → q ∈ str "src=" → False) as Hnot.
    { intros q Hq Hin.
      repeat (apply elem_of_cons in Hin as [->|Hin]; [by vm_compute in Hq|]).
      by apply elem_of_nil in Hin. }
    clear Hwhole. clearbody k0 whole.
    cbn [str list_ascii_of_string app] in Hsplit, Hhead.
    destruct k1 as [|x0 [|x1 [|x2 [|x3 [|x4 k1]]]]]; [done|..];
      cbn [app] in Hsplit; injection Hsplit; clear Hsplit; intros; subst;
      cbn [app] in Hhead; try discriminate Hhead.
    + injection Hhead as -> _. apply (Hnot _ Hq1). by left.
    + match goal with
      | Hs : _ = k1 ++ t |- _ =>
          apply (src_head_in_value k1 t (l :: link) post rest u' q2 c (eq_sym Hs));
            [cbn [forallb]; by rewrite Hl, Hlq | done..]
      end.
  - cbn [str list_ascii_of_string app Lits run]. repeat (case_decide; [|done]).
    unfold tail. cbn [run]. rewrite Hq1, Hl.
    rewrite <- app_assoc. cbn [app].
    erewrite loop_stop; [| exact Hlq | by apply isQuote_notQuote | cbn beta iota; rewrite Hq2;
      erewrite loop_stop; [reflexivity | exact Hpgt | reflexivity |];
      cbn beta iota; case_decide; [|done]; reflexivity ].
    unfold k0. f_equal. f_equal.
    + rewrite Hwhole.
      repeat (progress (rewrite ?length_app; cbn [length app str list_ascii_of_string])).
      lia.
    + f_equal. change (l :: link ++ q2 :: post ++ Zbyte 62 :: rest)
        with ((l :: link) ++ q2 :: post ++ Zbyte 62 :: rest).
      rewrite length_app.
      replace (length (l :: link) + length (q2 :: post ++ Zbyte 62 :: rest)
               - length (q2 :: post ++ Zbyte 62 :: rest))%nat
        with (length (l :: link)) by lia.
      by rewrite take_app_length.
Qed.

Lemma findAll_skip (r : Regexp) (s1 s2 : bytes) :
  findAll r (length s1) (s1 ++ s2) = findAll r 0 s2.
Proof. induction s1 as [|c s1 IH]; [done | exact IH]. Qed.

Lemma matchHere_imgRe_needs_open (s : bytes) :
  strings.HasPrefix s (str "<img") = false → matchHere imgRe s = None.
Proof.
  unfold matchHere, imgRe. cbn [str list_ascii_of_string Lits run strings.HasPrefix].
  destruct s as [|c0 [|c1 [|c2 [|c3 s]]]]; repeat (case_decide; [|done]); done.
Qed.

Lemma HasPrefix_diverged (t p rest : bytes) :
  strings.HasPrefix t p = false → strings.HasPrefix p t = false →
  strings.HasPrefix (t ++ rest) p = false.
Proof.
  revert t. induction p as [|a p IH]; intros [|x t]; cbn [strings.HasPrefix app]; try done.
  destruct (decide (a = x)) as [->|Hne]; [|done].
  destruct (decide (x = x)); [|done]. apply IH.
Qed.

Lemma opensImg_false (c : ascii) (t rest : bytes) :
  opensImg (c :: t) = false → matchHere imgRe ((c :: t) ++ rest) = None.
Proof.
  intros [H1 H2]%orb_false_iff.
  by apply matchHere_imgRe_needs_open, HasPrefix_diverged.
Qed.

Lemma findAll_imgRe_text (t rest : bytes) :
  noImgOpen t = true → findAll imgRe 0 (t ++ rest) = findAll imgRe 0 rest.
Proof.
  induction t as [|c t IH]; intros Ht; [done|].
  cbn [noImgOpen] in Ht. apply andb_true_iff in Ht as [Hc Ht].
  apply negb_true_iff in Hc.
  change (findAll imgRe 0 ((c :: t) ++ rest))
    with (match matchHere imgRe ((c :: t) ++ rest) with
          | Some (n, cap) =>
              (take n ((c :: t) ++ rest), cap) :: findAll imgRe (n - 1) (t ++ rest)
          | None => findAll imgRe 0 (t ++ rest)
          end).
  rewrite (opensImg_false c t rest Hc). by apply IH.
Qed.

Lemma findAll_imgRe_pieces (ps : list Piece) :
  Forall PlainPiece ps →
  findAll imgRe 0 (renderPieces ps) = matchesOfPieces ps.
Proof.
  unfold renderPieces. induction 1 as [|p ps Hp _ IH]; [done|].
  cbn [map concat matchesOfPieces flat_map]. fold (matchesOfPieces ps).
  destruct p as [t|pre q1 link q2 post].
  - cbn [renderPiece app]. by rewrite findAll_imgRe_text.
  - pose proof (matchHere_imgRe_plain pre q1 link q2 post (concat (map renderPiece ps)) Hp)
      as Hm.
    set (tag := renderPiece (PImg pre q1 link q2 post)) in *.
    assert (∃ tag', tag = Zbyte 60 :: tag') as [tag' Htag] by (by eexists).
    rewrite Htag in Hm |- *. cbn [app findAll]. cbn [app] in Hm. rewrite Hm.
    replace (length (Zbyte 60 :: tag') - 1)%nat with (length tag') by (simpl; lia).
    change (Zbyte 60 :: tag' ++ concat (map renderPiece ps))
      with ((Zbyte 60 :: tag') ++ concat (map renderPiece ps)).
    rewrite take_app_length, findAll_skip, IH. done.
Qed.

(** In a plainly written text [extractImageLinks] returns the [src]
    values of the image tags, all of them and in the order of the text;
    the tags [replaceImageLinks] visits are those image tags. *)
Theorem extractImageLinks_plain (ps : list Piece) :
  Forall PlainPiece ps →
  extractImageLinks (renderPieces ps)
  = flat_map (λ p, match p with PText _ => [] | PImg _ _ link _ _ => [link] end) ps ∧
  tagsOf (renderPieces ps)
  = flat_map (λ p, match p with PText _ => [] | PImg _ _ _ _ _ => [renderPiece p] end) ps.
Proof.
  intros Hps. unfold extractImageLinks, tagsOf, FindAllStringSubmatch.
  rewrite (findAll_imgRe_pieces ps Hps). clear Hps.
  unfold matchesOfPieces.
  split; induction ps as [|[t|pre q1 link q2 post] ps IH]; cbn in *; by rewrite ?IH.
Qed.

Lemma extractImageLinks_plain_witness :
  let ps := [PText (str "<p>a > b ");
             PImg (str " alt=x ") SQUOTE (str "/a.jpg") SQUOTE (str " width=1");
             PText (str "</p><i>src='/t.jpg'</i>");
             PImg (str " ") DQUOTE (str "http://x.com/b.png?src=1") DQUOTE []] in
  extractImageLinks (renderPieces ps)
  = flat_map (λ p, match p with PText _ => [] | PImg _ _ link _ _ => [link] end) ps ∧
  tagsOf (renderPieces ps)
  = flat_map (λ p, match p with PText _ => [] | PImg _ _ _ _ _ => [renderPiece p] end) ps.
Proof.
  apply extractImageLinks_plain.
  repeat constructor; try (vm_compute; reflexivity); discriminate.
Defined.

(** ** Rewriting plainly written texts *)

Lemma prefix_before (old a b : bytes) (q : ascii) :
  q ∉ old → old `prefix_of` a ++ q :: b → old `prefix_of` a.
Proof.
  revert a. induction old as [|o old IH]; intros a Hq Hp; [apply prefix_nil|].
  apply not_elem_of_cons in Hq as [Hne Hq].
  destruct a as [|x a]; cbn [app] in Hp.
  - destruct Hp as [k Hk]. injection Hk as -> _. done.
  - destruct Hp as [k Hk]. injection Hk as -> Hk.
    apply prefix_cons, IH; [done|]. by exists k.
Qed.

(** [strings.Replace] with count 1 rewrites the first occurrence. *)
Lemma Replace1_first (u old z new : bytes) (q : ascii) :
  old ≠ [] → q ∉ old → occursIn old u = false →
  strings.Replace1 ((u ++ [q]) ++ old ++ z) old new = (u ++ [q]) ++ new ++ z.
Proof.
  intros Hne Hq. induction u as [|c u IH]; intros Hocc.
  - cbn [app]. rewrite Replace1_unfold.
    assert (strings.HasPrefix (q :: old ++ z) old = false) as ->.
    { destruct old as [|o old]; [done|]. cbn [strings.HasPrefix].
      apply not_elem_of_cons in Hq as [Hq _]. by case_decide. }
    f_equal. rewrite Replace1_unfold.
    assert (strings.HasPrefix (old ++ z) old = true) as ->
        by (apply HasPrefix_spec; by exists z).
    by rewrite drop_app_length.
  - cbn [occursIn] in Hocc. apply orb_false_iff in Hocc as [Hhere Hocc].
    rewrite Replace1_unfold.
    assert (strings.HasPrefix (((c :: u) ++ [q]) ++ old ++ z) old = false) as ->.
    { apply HasPrefix_false. intros Hp. apply HasPrefix_false in Hhere. apply Hhere.
      rewrite <- app_assoc in Hp. cbn [app] in Hp.
      change (c :: u ++ q :: old ++ z) with ((c :: u) ++ q :: old ++ z) in Hp.
      by eapply prefix_before. }
    cbn [app]. f_equal. by apply IH.
Qed.

Lemma forallb_notQuote_not_elem (q : ascii) (l : bytes) :
  isQuote q = true → forallb notQuote l = true → q ∉ l.
Proof.
  intros Hq Hl Hin. rewrite forallb_forall in Hl.
  apply list_elem_of_In, Hl in Hin. by rewrite (isQuote_notQuote _ Hq) in Hin.
Qed.

(** In a plain tag without a quote before [src=], the link the callback
    looks up is the [src] value. *)
Lemma srcOf_plain (pre : bytes) (q1 : ascii) (link : bytes) (q2 : ascii) (post : bytes) :
  PlainPiece (PImg pre q1 link q2 post) → forallb notQuote pre = true →
  srcOf (renderPiece (PImg pre q1 link q2 post)) = Some link.
Proof.
  intros (_ & _ & Hq1 & Hq2 & Hlink & Hlq & _) Hpre.
  pose proof (matchHere_srcRe_complete q1 q2 link (post ++ str ">") Hq1 Hlink Hlq Hq2)
    as Hhere.
  destruct (FindStringSubmatch_leftmost srcRe (str "<img" ++ pre) _ _ _ Hhere)
    as (pre1 & s1 & n1 & cap1 & Heq & Hlen & Hm1 & Hfind).
  apply matchHere_srcRe_sound in Hm1
      as (q & old & q' & rest1 & -> & -> & -> & Hq & Hone & Hold & Hq').
  unfold srcOf, renderPiece. rewrite (app_assoc (str "<img") pre), Hfind.
  change (default [] (Some old)) with old. f_equal.
  assert (forallb notQuote (str "<img" ++ pre) = true) as HP.
  { rewrite forallb_app, Hpre. reflexivity. }
  assert (pre1 = take (length pre1) (str "<img" ++ pre)) as Hpre1.
  { apply (f_equal (take (length pre1))) in Heq.
    by rewrite take_app_le, take_app_length in Heq by done. }
  assert (forallb notQuote pre1 = true) as HP1.
  { pose proof HP as HP'.
    rewrite <- (take_drop (length pre1) (str "<img" ++ pre)), <- Hpre1, forallb_app in HP'.
    by apply andb_true_iff in HP' as [? _]. }
  assert ((str "<img" ++ pre) ++ str "src=" = pre1 ++ str "src=") as Hsame.
  { eapply (quoted_value_unique _ _ _ _ q1 q); [| | exact Hq1 | exact Hq |].
    - by rewrite forallb_app, HP.
    - by rewrite forallb_app, HP1.
    - rewrite <- !app_assoc. exact Heq. }
  apply app_inv_tail in Hsame. rewrite <- Hsame in Heq. apply app_inv_head in Heq.
  cbn [str list_ascii_of_string app] in Heq. injection Heq as _ Heq.
  symmetry. by eapply (quoted_value_unique _ _ _ _ q2 q').
Qed.

(** The callback rewrites a plain tag by replacing its [src] value. *)
Lemma replaceTag_plain (m : gmap bytes bytes) (p : Piece) :
  PlainPiece p → RewritablePiece p →
  match p with
  | PText _ => True
  | PImg _ _ _ _ _ => replaceTag m (renderPiece p) = renderPiece (rewritePiece m p)
  end.
Proof.
  destruct p as [t|pre q1 link q2 post]; [done|]. intros Hplain [Hpre Hocc].
  rewrite replaceTag_srcOf, (srcOf_plain _ _ _ _ _ Hplain Hpre). cbn [rewritePiece].
  destruct (m !! link) as [newPath|]; [|done]. cbn [default].
  destruct Hplain as (_ & _ & Hq1 & _ & Hlink & Hlq & _).
  pose proof (Replace1_first (str "<img" ++ pre ++ str "src=") link
                (q2 :: post ++ str ">") newPath q1 Hlink
                (forallb_notQuote_not_elem _ _ Hq1 Hlq) Hocc) as Hrep.
  unfold renderPiece. rewrite <- !app_assoc in Hrep. cbn [app] in Hrep. exact Hrep.
Qed.

Lemma replaceAll_skip (r : Regexp) (repl : bytes → bytes) (s1 s2 : bytes) :
  replaceAll r repl (length s1) (s1 ++ s2) = replaceAll r repl 0 s2.
Proof. induction s1 as [|c s1 IH]; [done | exact IH]. Qed.

Lemma replaceAll_imgRe_text (repl : bytes → bytes) (t rest : bytes) :
  noImgOpen t = true →
  replaceAll imgRe repl 0 (t ++ rest) = t ++ replaceAll imgRe repl 0 rest.
Proof.
  induction t as [|c t IH]; intros Ht; [done|].
  cbn [noImgOpen] in Ht. apply andb_true_iff in Ht as [Hc Ht].
  apply negb_true_iff in Hc. pose proof (opensImg_false c t rest Hc) as Hnone.
  cbn [app] in Hnone |- *. cbn [replaceAll]. rewrite Hnone. by rewrite IH.
Qed.

(** A plainly written text in which every tag meets its [src] value
    first is rewritten tag by tag: a value that is a key of the map is
    replaced by its entry, and every other byte is copied. *)
Theorem replaceImageLinks_plain (ps : list Piece) (imagePathMap : gmap bytes bytes) :
  Forall PlainPiece ps → Forall RewritablePiece ps →
  replaceImageLinks (renderPieces ps) imagePathMap
  = renderPieces (map (rewritePiece imagePathMap) ps).
Proof.
  unfold replaceImageLinks, ReplaceAllStringFunc, renderPieces.
  induction 1 as [|p ps Hp _ IH]; intros Hrw; [done|].
  apply Forall_cons in Hrw as [Hrp Hrw]. specialize (IH Hrw).
  cbn [map concat].
  pose proof (replaceTag_plain imagePathMap p Hp Hrp) as Htag.
  destruct p as [t|pre q1 link q2 post].
  - cbn [renderPiece rewritePiece]. rewrite replaceAll_imgRe_text by done. by rewrite IH.
  - pose proof (matchHere_imgRe_plain pre q1 link q2 post (concat (map renderPiece ps)) Hp)
      as Hm.
    rewrite <- Htag.
    set (tag := renderPiece (PImg pre q1 link q2 post)) in *.
    assert (∃ tag', tag = Zbyte 60 :: tag') as [tag' Htag'] by (by eexists).
    rewrite Htag' in Hm |- *. cbn [app replaceAll]. cbn [app] in Hm. rewrite Hm.
    cbn [length].
    change (Zbyte 60 :: tag' ++ concat (map renderPiece ps))
      with ((Zbyte 60 :: tag') ++ concat (map renderPiece ps)).
    change (S (length tag')) with (length (Zbyte 60 :: tag')).
    rewrite take_app_length, replaceAll_skip, IH. done.
Qed.

Lemma replaceImageLinks_plain_witness :
  let ps := [PText (str "<p>a > b ");
             PImg (str " alt=x ") SQUOTE (str "/a.jpg") SQUOTE (str " width=1");
             PText (str "</p> src='/a.jpg'");
             PImg (str " ") DQUOTE (str "/b.png") DQUOTE []] in
  let m : gmap bytes bytes := {[ str "/a.jpg" := str "/u/cf3a--a.jpg" ]} in
  replaceImageLinks (renderPieces ps) m = renderPieces (map (rewritePiece m) ps).
Proof.
  intros ps m. apply replaceImageLinks_plain.
  - repeat constructor; try (vm_compute; reflexivity); discriminate.
  - repeat constructor; vm_compute; reflexivity.
Defined.
